(** * Ravelin: frame-aware spatial algebra (Pose3, spatial arithmetic)

    A shallow embedding of [Pose3.cpp] (constructors, composition,
    inversion, interpolation, the static transform entry points,
    [is_common], [calc_transform]) and of the batch acceleration transform
    of [SpArith.cpp], with the properties of the frame tree, of the frame
    guard and of the transform resolver that the specification states. *)

From Stdlib Require Import Floats ZArith Ring Lia Reals Lra.
From stdpp Require Import base option list gmap.

(** ** Scalars

    Every source file is compiled twice, once with [REAL] defined as
    [float] and once as [double] ([fdefs.h], [ddefs.h]).  The embedding is
    generic in the scalar type in the same way: the definitions only use the
    operations below, and a theorem that needs an arithmetic law names it as
    a hypothesis. *)

Class Scalar : Type := {
  REAL : Type;
  rzero : REAL;                       (* (REAL) 0.0 *)
  rone : REAL;                        (* (REAL) 1.0 *)
  radd : REAL -> REAL -> REAL;
  rsub : REAL -> REAL -> REAL;
  rmul : REAL -> REAL -> REAL;
  ropp : REAL -> REAL;
  (* OPS::rel_equal(x, y, tol); the class OPS is not part of the sources *)
  ops_rel_equal : REAL -> REAL -> REAL -> bool
}.

(** Exact arithmetic: the scalars form a commutative ring. *)
Class ScalarLaws (Sc : Scalar) : Prop := {
  scalar_ring : ring_theory rzero rone radd rmul rsub ropp (@eq REAL)
}.

(** ** 3-vectors and 3x3 matrices *)

(** Modelled from the spec: [ORIGIN3] (a 3-vector without a frame tag) is
    not among the sources; its arithmetic is the componentwise one of the spec's
    data model. *)
Record ORIGIN3 {Sc : Scalar} : Type := mkOrigin3 { c0 : REAL; c1 : REAL; c2 : REAL }.
Arguments mkOrigin3 {Sc} c0 c1 c2.

Section Vectors.
Context {Sc : Scalar}.

Definition o3_zero : ORIGIN3 := mkOrigin3 rzero rzero rzero.
Definition o3_add (a b : ORIGIN3) : ORIGIN3 :=
  mkOrigin3 (radd (c0 a) (c0 b)) (radd (c1 a) (c1 b)) (radd (c2 a) (c2 b)).
Definition o3_sub (a b : ORIGIN3) : ORIGIN3 :=
  mkOrigin3 (rsub (c0 a) (c0 b)) (rsub (c1 a) (c1 b)) (rsub (c2 a) (c2 b)).
Definition o3_neg (a : ORIGIN3) : ORIGIN3 :=
  mkOrigin3 (ropp (c0 a)) (ropp (c1 a)) (ropp (c2 a)).
Definition o3_scale (a : ORIGIN3) (s : REAL) : ORIGIN3 :=
  mkOrigin3 (rmul (c0 a) s) (rmul (c1 a) s) (rmul (c2 a) s).
Definition o3_dot (a b : ORIGIN3) : REAL :=
  radd (radd (rmul (c0 a) (c0 b)) (rmul (c1 a) (c1 b))) (rmul (c2 a) (c2 b)).

(** Modelled from the spec: [VECTOR3::cross], the cross product. *)
Definition cross (a b : ORIGIN3) : ORIGIN3 :=
  mkOrigin3 (rsub (rmul (c1 a) (c2 b)) (rmul (c2 a) (c1 b)))
            (rsub (rmul (c2 a) (c0 b)) (rmul (c0 a) (c2 b)))
            (rsub (rmul (c0 a) (c1 b)) (rmul (c1 a) (c0 b))).
End Vectors.

(** Modelled from the spec: [MATRIX3], "a 3x3 matrix type providing
    multiply, transpose, and skew-symmetric construction from a 3-vector";
    stored by rows. *)
Record MATRIX3 {Sc : Scalar} : Type := mkMatrix3 { row0 : ORIGIN3; row1 : ORIGIN3; row2 : ORIGIN3 }.
Arguments mkMatrix3 {Sc} row0 row1 row2.

Section Matrices.
Context {Sc : Scalar}.

Definition m3_col0 (m : MATRIX3) : ORIGIN3 := mkOrigin3 (c0 (row0 m)) (c0 (row1 m)) (c0 (row2 m)).
Definition m3_col1 (m : MATRIX3) : ORIGIN3 := mkOrigin3 (c1 (row0 m)) (c1 (row1 m)) (c1 (row2 m)).
Definition m3_col2 (m : MATRIX3) : ORIGIN3 := mkOrigin3 (c2 (row0 m)) (c2 (row1 m)) (c2 (row2 m)).

Definition m3_transpose (m : MATRIX3) : MATRIX3 :=
  mkMatrix3 (m3_col0 m) (m3_col1 m) (m3_col2 m).
(* E * v *)
Definition m3_mul_vec (m : MATRIX3) (v : ORIGIN3) : ORIGIN3 :=
  mkOrigin3 (o3_dot (row0 m) v) (o3_dot (row1 m) v) (o3_dot (row2 m) v).
(* E.transpose_mult(v) *)
Definition m3_transpose_mult (m : MATRIX3) (v : ORIGIN3) : ORIGIN3 :=
  m3_mul_vec (m3_transpose m) v.
Definition m3_row_mul (r : ORIGIN3) (b : MATRIX3) : ORIGIN3 :=
  mkOrigin3 (o3_dot r (m3_col0 b)) (o3_dot r (m3_col1 b)) (o3_dot r (m3_col2 b)).
Definition m3_mul (a b : MATRIX3) : MATRIX3 :=
  mkMatrix3 (m3_row_mul (row0 a) b) (m3_row_mul (row1 a) b) (m3_row_mul (row2 a) b).
Definition m3_add (a b : MATRIX3) : MATRIX3 :=
  mkMatrix3 (o3_add (row0 a) (row0 b)) (o3_add (row1 a) (row1 b)) (o3_add (row2 a) (row2 b)).
Definition m3_sub (a b : MATRIX3) : MATRIX3 :=
  mkMatrix3 (o3_sub (row0 a) (row0 b)) (o3_sub (row1 a) (row1 b)) (o3_sub (row2 a) (row2 b)).
(* skew_symmetric(v) * w = cross(v, w) *)
Definition skew_symmetric (v : ORIGIN3) : MATRIX3 :=
  mkMatrix3 (mkOrigin3 rzero (ropp (c2 v)) (c1 v))
            (mkOrigin3 (c2 v) rzero (ropp (c0 v)))
            (mkOrigin3 (ropp (c1 v)) (c0 v) rzero).
End Matrices.

(** ** Rotations

    The quaternion class [QUAT] is an external collaborator ("rotation type
    providing compose, invert, interpolate, and conversion to a 3x3
    rotation-matrix-equivalent"); none of it is in the sources.  It enters the
    embedding as an interface. *)
Class Rotation (Sc : Scalar) : Type := {
  QUAT : Type;
  q_identity : QUAT;                          (* QUAT::identity(), set_identity() *)
  q_mul : QUAT -> QUAT -> QUAT;               (* q1 * q2 *)
  q_invert : QUAT -> QUAT;                    (* QUAT::invert(q), q.invert() *)
  q_normalize : QUAT -> QUAT;                 (* QUAT::normalize(q) *)
  q_calc_angle : QUAT -> QUAT -> REAL;        (* QUAT::calc_angle(q1, q2) *)
  q_rotate : QUAT -> ORIGIN3 -> ORIGIN3;      (* q * v *)
  q_matrix : QUAT -> MATRIX3;                 (* MATRIX3 E = q *)
  q_unit : QUAT -> Prop                       (* q has norm one *)
}.

(** [QUAT::slerp(q1, q2, t)], the interpolation of two rotations.  It is
    kept apart from the rest of the interface: only [POSE3::interpolate]
    calls it, and a rotation type over a ring without square root and
    arc cosine has none. *)
Class Slerp {Sc : Scalar} (Rt : Rotation Sc) : Type := {
  q_slerp : QUAT -> QUAT -> REAL -> QUAT
}.

(** What the theorems below ask of a rotation type, in exact arithmetic. *)
Class RotationLaws {Sc : Scalar} (Rt : Rotation Sc) : Prop := {
  q_mul_identity_l : forall q, q_mul q_identity q = q;
  q_invert_identity : q_invert q_identity = q_identity;
  q_rotate_identity : forall v, q_rotate q_identity v = v;
  q_mul_unit : forall q1 q2, q_unit q1 -> q_unit q2 -> q_unit (q_mul q1 q2);
  q_invert_unit : forall q, q_unit q -> q_unit (q_invert q);
  q_invert_involutive : forall q, q_unit q -> q_invert (q_invert q) = q;
  q_rotate_neg : forall q v, q_rotate q (o3_neg v) = o3_neg (q_rotate q v);
  q_rotate_invert : forall q v, q_unit q -> q_rotate q (q_rotate (q_invert q) v) = v;
  q_rotate_sub : forall q a b, q_rotate q (o3_sub a b) = o3_sub (q_rotate q a) (q_rotate q b);
  q_rotate_cross : forall q a b,
    q_unit q -> q_rotate q (cross a b) = cross (q_rotate q a) (q_rotate q b);
  q_matrix_rotate : forall q v, m3_mul_vec (q_matrix q) v = q_rotate q v;
  q_normalize_unit : forall q, q_unit q -> q_normalize q = q
}.

(** ** Outcomes

    A call returns a value, throws [FrameException], stops at a failed
    [assert], or dereferences a pointer that holds no object (undefined
    behaviour).  [OutOfFuel] belongs to the model only: every [while] loop
    of the source is unrolled at most [fuel] times. *)
Inductive outcome (A : Type) : Type :=
| Ok (a : A)
| FrameException
| AssertionFailure
| InvalidDereference
| OutOfFuel.
Arguments Ok {A} a.
Arguments FrameException {A}.
Arguments AssertionFailure {A}.
Arguments InvalidDereference {A}.
Arguments OutOfFuel {A}.

Definition obind {A B : Type} (m : outcome A) (f : A -> outcome B) : outcome B :=
  match m with
  | Ok a => f a
  | FrameException => FrameException
  | AssertionFailure => AssertionFailure
  | InvalidDereference => InvalidDereference
  | OutOfFuel => OutOfFuel
  end.

Notation "'let*' x ':=' m 'in' k" := (obind m (fun x => k))
  (at level 10, x pattern, m at level 100, k at level 200).

(** Build configuration: the two preprocessor symbols the code tests. *)
Record config : Type := mkConfig {
  NEXCEPT : bool;   (* defined: the frame checks are compiled out *)
  NDEBUG : bool     (* defined: assert() is compiled out *)
}.

(** ** Frames on the heap

    [boost::shared_ptr<const POSE3>] is an address or null; frames live in
    a heap and are compared by address. *)
Definition addr : Type := positive.
Definition ptr : Type := option addr.

Definition ptr_eqb (a b : ptr) : bool := bool_decide (a = b).

Record POSE3 {Sc : Scalar} {Rt : Rotation Sc} : Type := mkPose3 {
  q : QUAT;        (* the orientation of the pose frame *)
  x : ORIGIN3;     (* the position of the pose frame *)
  rpose : ptr      (* the pose that this pose is relative to (if any) *)
}.
Arguments mkPose3 {Sc Rt} q x rpose.

(** Modelled from the spec: [TRANSFORM3] is not among the sources; "source frame,
    target frame, rotation, translation". *)
Record TRANSFORM3 {Sc : Scalar} {Rt : Rotation Sc} : Type := mkTransform3 {
  t_source : ptr;
  t_target : ptr;
  t_q : QUAT;
  t_x : ORIGIN3
}.
Arguments mkTransform3 {Sc Rt} t_source t_target t_q t_x.

Abbreviation heap := (gmap addr POSE3).

(** A spatial vector ([SVECTOR6]: two 3-vectors and the frame it is defined
    in).  [WRENCH], [TWIST] and [SACCEL] are spatial vectors; their class
    declarations are not among the sources, and their accessors read the half that
    the two-vector constructor stores: [WRENCH(force, torque)],
    [TWIST(angular, linear)]. *)
Record SVECTOR6 {Sc : Scalar} : Type := mkSVector6 {
  upper : ORIGIN3;
  lower : ORIGIN3;
  pose : ptr
}.
Arguments mkSVector6 {Sc} upper lower pose.

(** A point ([POINT3]) and a free vector ([VECTOR3]) with their frames. *)
Record POINT3 {Sc : Scalar} : Type := mkPoint3 { point_xyz : ORIGIN3; point_pose : ptr }.
Arguments mkPoint3 {Sc} point_xyz point_pose.
Record VECTOR3 {Sc : Scalar} : Type := mkVector3 { vector_xyz : ORIGIN3; vector_pose : ptr }.
Arguments mkVector3 {Sc} vector_xyz vector_pose.

(** Rigid-body spatial inertia: mass, first moment, inertia tensor, frame. *)
Record SPATIAL_RB_INERTIA {Sc : Scalar} : Type := mkRBInertia {
  m : REAL;
  h : ORIGIN3;
  J : MATRIX3;
  inertia_pose : ptr
}.
Arguments mkRBInertia {Sc} m h J inertia_pose.

(** Articulated-body spatial inertia: three 3x3 blocks and the frame. *)
Record SPATIAL_AB_INERTIA {Sc : Scalar} : Type := mkABInertia {
  ab_M : MATRIX3;
  ab_H : MATRIX3;
  ab_J : MATRIX3;
  ab_pose : ptr
}.
Arguments mkABInertia {Sc} ab_M ab_H ab_J ab_pose.

(** ** Pose3.cpp *)

(** Modelled from the spec: the default value of the constructors' last
    argument [relative_pose] is declared in Pose3.h, which is not among
    the sources.  "construct from rotation/translation plus an optional parent",
    and an absent parent "means the frame is directly anchored to the
    global/world frame": the default is the null pointer. *)
Definition default_relative_pose : ptr := None.

(** [unsigned] counters are 32 bits wide. *)
Definition UINT_MAX : Z := 4294967295.
Definition wrap_unsigned (z : Z) : Z := z mod (UINT_MAX + 1).

Section Pose3.
Context {Sc : Scalar} {Rt : Rotation Sc} {Sl : Slerp Rt}.

(** [p->...]: the object a pointer refers to. *)
Definition deref (hp : heap) (p : ptr) : outcome POSE3 :=
  match p with
  | None => InvalidDereference
  | Some a =>
      match hp !! a with
      | None => InvalidDereference
      | Some v => Ok v
      end
  end.

(** [POSE3(const QUAT& q, const ORIGIN3& v, relative_pose)] *)
Definition POSE3_quat (q0 : QUAT) (v : ORIGIN3) (relative_pose : ptr) : POSE3 :=
  mkPose3 (q_normalize q0) v relative_pose.

(** [POSE3(const ORIGIN3& v, relative_pose)] *)
Definition POSE3_origin (v : ORIGIN3) (relative_pose : ptr) : POSE3 :=
  mkPose3 q_identity v relative_pose.

(** [operator=], which the copy constructor runs. *)
Definition assign (p : POSE3) : POSE3 := mkPose3 (q p) (x p) (rpose p).


(** [POSE3::interpolate] *)
Definition interpolate (T1 T2 : POSE3) (t : REAL) : POSE3 :=
  let x' := o3_add (o3_scale (x T1) (rsub rone t)) (o3_scale (x T2) t) in
  let q' := q_slerp (q T1) (q T2) t in
  POSE3_quat q' x' default_relative_pose.

(** [POSE3::invert()], in place: the state of [*this] after the call. *)
Definition invert (this : POSE3) : POSE3 :=
  let q' := q_invert (q this) in
  let x' := q_rotate q' (o3_neg (x this)) in
  mkPose3 q' x' (rpose this).

(** [POSE3::invert(const POSE3& p)]: [POSE3(p).invert()]. *)
Definition invert_static (p : POSE3) : POSE3 := invert (assign p).

(** [invert()] called through a pointer: the object at [a] is updated
    where it lives, every other object is left alone. *)
Definition invert_at (hp : heap) (a : addr) : heap := alter invert a hp.

(** [POSE3::operator*] *)
Definition mult (cfg : config) (this p : POSE3) : outcome POSE3 :=
  if negb (NEXCEPT cfg) && negb (ptr_eqb (rpose this) (rpose p)) then FrameException
  else Ok (POSE3_quat (q_mul (q this) (q p))
                      (o3_add (q_rotate (q this) (x p)) (x this))
                      default_relative_pose).

(** [POSE3::get_r_E] *)
Definition get_r_E (this : POSE3) (inverse : bool) : ORIGIN3 * MATRIX3 :=
  if negb inverse then
    let E := q_matrix (q this) in
    let r := o3_neg (x this) in
    (r, E)
  else
    let E := q_matrix (q_invert (q this)) in
    let r := m3_mul_vec E (x this) in
    (r, E).

(** The inertia update shared by the member and the static transform. *)
Definition rb_inertia_update (r : ORIGIN3) (E : MATRIX3) (Ji : SPATIAL_RB_INERTIA)
    (new_pose : ptr) : SPATIAL_RB_INERTIA :=
  let ET := m3_transpose E in
  let mr := o3_scale r (m Ji) in
  let rx := skew_symmetric r in
  let hx := skew_symmetric (h Ji) in
  let mrxrx := m3_mul rx (skew_symmetric mr) in
  let EhxETrx := m3_mul (m3_mul (m3_mul E hx) ET) rx in
  mkRBInertia
    (m Ji)
    (o3_sub (m3_mul_vec E (h Ji)) mr)
    (m3_sub (m3_add (m3_add EhxETrx (m3_transpose EhxETrx))
                    (m3_mul (m3_mul E (J Ji)) ET))
            mrxrx)
    new_pose.

(** [POSE3::transform(const SPATIAL_RB_INERTIA&) const].  [self] is what
    [shared_from_this()] gives: the pointer that owns this pose, or null
    when the pose has no owner ([bad_weak_ptr] is caught and only
    logged). *)
Definition transform_rb_inertia_member (cfg : config) (self : ptr) (this : POSE3)
    (Ji : SPATIAL_RB_INERTIA) : outcome SPATIAL_RB_INERTIA :=
  if negb (NEXCEPT cfg) && negb (ptr_eqb (inertia_pose Ji) self) then FrameException
  else
    let '(r, E) := get_r_E this false in
    Ok (rb_inertia_update r E Ji (rpose this)).
End Pose3.

Section Resolver.
Context {Sc : Scalar} {Rt : Rotation Sc}.

(** [POSE3::is_common]: is [p] in the chain of relative poses that starts
    at [x], and how far down.  The result pairs the returned flag with
    the final value of the out-parameter [i]. *)
Fixpoint is_common_loop (fuel : nat) (hp : heap) (x p : ptr) (i : Z) : outcome (bool * Z) :=
  match x with
  | None => Ok (false, i)                       (* while (x) ends *)
  | Some a =>
      if ptr_eqb x p then Ok (true, i)
      else
        match fuel with
        | O => OutOfFuel
        | S fuel' =>
            match hp !! a with
            | None => InvalidDereference
            | Some px => is_common_loop fuel' hp (rpose px) p (wrap_unsigned (i + 1))
            end
        end
  end.

Definition is_common (fuel : nat) (hp : heap) (x p : ptr) : outcome (bool * Z) :=
  is_common_loop fuel hp x p 0.

(** One step up the chain: [s = s->rpose; x = s->x + s->q * x;
    q = s->q * q]. *)
Definition compose_parent (ps : POSE3) (acc : QUAT * ORIGIN3) : QUAT * ORIGIN3 :=
  (q_mul (q ps) (fst acc), o3_add (x ps) (q_rotate (q ps) (snd acc))).

(** The loop of the two global cases:
    [while (s) { s = s->rpose; if (!s) break; ... }]. *)
Fixpoint compose_to_global (fuel : nat) (hp : heap) (s : ptr) (acc : QUAT * ORIGIN3)
    : outcome (QUAT * ORIGIN3) :=
  match s with
  | None => Ok acc
  | Some _ =>
      match fuel with
      | O => OutOfFuel
      | S fuel' =>
          let* ps := deref hp s in
          match rpose ps with
          | None => Ok acc                      (* break *)
          | Some _ =>
              let* pp := deref hp (rpose ps) in
              compose_to_global fuel' hp (rpose ps) (compose_parent pp acc)
          end
      end
  end.

(** A failed [assert]: the program aborts; with [NDEBUG] defined the
    assertion is gone and the statement after it dereferences the null
    pointer. *)
Definition assert_fails {A : Type} (cfg : config) : outcome A :=
  if NDEBUG cfg then InvalidDereference else AssertionFailure.

(** The search for the common link:
    [while (true) { if (is_common(source, r, i)) break;
                    else { assert(r); r = r->rpose; } }]. *)
Fixpoint search_common (cfg : config) (n fuel : nat) (hp : heap) (source r : ptr)
    : outcome (ptr * Z) :=
  let* (found, i) := is_common n hp source r in
  if (found : bool) then Ok (r, i)
  else
    match r with
    | None => assert_fails cfg                  (* assert(r) *)
    | Some _ =>
        match fuel with
        | O => OutOfFuel
        | S fuel' =>
            let* pr := deref hp r in
            search_common cfg n fuel' hp source (rpose pr)
        end
    end.

(** [for (unsigned j = 0; j < i; j++) { s = s->rpose; ... }] *)
Fixpoint compose_left (hp : heap) (i : nat) (s : ptr) (acc : QUAT * ORIGIN3)
    : outcome (QUAT * ORIGIN3) :=
  match i with
  | O => Ok acc
  | S i' =>
      let* ps := deref hp s in
      let* pp := deref hp (rpose ps) in
      compose_left hp i' (rpose ps) (compose_parent pp acc)
  end.

(** [while (target != r) { target = target->rpose; ... }] *)
Fixpoint compose_right (fuel : nat) (hp : heap) (target r : ptr) (acc : QUAT * ORIGIN3)
    : outcome (QUAT * ORIGIN3) :=
  if ptr_eqb target r then Ok acc
  else
    match fuel with
    | O => OutOfFuel
    | S fuel' =>
        let* pt := deref hp target in
        let* pp := deref hp (rpose pt) in
        compose_right fuel' hp (rpose pt) r (compose_parent pp acc)
    end.

(** [POSE3::calc_transform] *)
Definition calc_transform (cfg : config) (fuel : nat) (hp : heap) (source target : ptr)
    : outcome TRANSFORM3 :=
  (* special case: no transformation *)
  if ptr_eqb source target then Ok (mkTransform3 source target q_identity o3_zero)
  else
    match target, source with
    | None, _ =>
        (* special case: transformation to the global frame *)
        let* ps := deref hp source in
        let* (rq, rx) := compose_to_global fuel hp source (q ps, x ps) in
        Ok (mkTransform3 source target rq rx)
    | Some _, None =>
        (* special case: transformation from the global frame *)
        let* pt := deref hp target in
        let* (rq, rx) := compose_to_global fuel hp target (q pt, x pt) in
        let rq' := q_invert rq in
        Ok (mkTransform3 source target rq' (q_rotate rq' (o3_neg rx)))
    | Some _, Some _ =>
        let* ps := deref hp source in
        let* pt := deref hp target in
        if ptr_eqb (rpose ps) (rpose pt) then
          (* both poses are defined relative to the same frame *)
          let rq := q_mul (q_invert (q pt)) (q ps) in
          Ok (mkTransform3 source target rq (q_rotate rq (o3_sub (x ps) (x pt))))
        else
          (* search for the common link *)
          let* (r, i) := search_common cfg fuel fuel hp source target in
          let* (left_q, left_x) := compose_left hp (Z.to_nat i) source (q ps, x ps) in
          let* (right_q, right_x) := compose_right fuel hp target r (q pt, x pt) in
          let inv_right_q := q_invert right_q in
          Ok (mkTransform3 source target
                (q_mul inv_right_q left_q)
                (q_rotate inv_right_q (o3_sub left_x right_x)))
    end.
End Resolver.

Section Transforms.
Context {Sc : Scalar} {Rt : Rotation Sc}.

(** Modelled from the spec: [TRANSFORM3::transform] for a point and for a
    free vector is not among the sources.  "Point: result = rotation * point +
    translation", "Free vector: result = rotation * vector (no
    translation)", each "with frame tag updated to target". *)
Definition Transform3_transform_point (Tx : TRANSFORM3) (p : POINT3) : POINT3 :=
  mkPoint3 (o3_add (q_rotate (t_q Tx) (point_xyz p)) (t_x Tx)) (t_target Tx).
Definition Transform3_transform_vector (Tx : TRANSFORM3) (v : VECTOR3) : VECTOR3 :=
  mkVector3 (q_rotate (t_q Tx) (vector_xyz v)) (t_target Tx).

(** [#ifndef NEXCEPT  if (source != v.pose) throw FrameException();  #endif] *)
Definition frame_mismatch (cfg : config) (source tag : ptr) : bool :=
  negb (NEXCEPT cfg) && negb (ptr_eqb source tag).

(** [POSE3::transform(source, target, const VECTOR3&)] *)
Definition transform_vector (cfg : config) (fuel : nat) (hp : heap) (source target : ptr)
    (v : VECTOR3) : outcome VECTOR3 :=
  if frame_mismatch cfg source (vector_pose v) then FrameException
  else
    let* Tx := calc_transform cfg fuel hp source target in
    Ok (Transform3_transform_vector Tx v).

(** [POSE3::transform(source, target, const POINT3&)] *)
Definition transform_point (cfg : config) (fuel : nat) (hp : heap) (source target : ptr)
    (point : POINT3) : outcome POINT3 :=
  if frame_mismatch cfg source (point_pose point) then FrameException
  else
    let* Tx := calc_transform cfg fuel hp source target in
    Ok (Transform3_transform_point Tx point).

(** [POSE3::transform(source, target, const SPATIAL_AB_INERTIA&)] *)
Definition transform_ab_inertia (cfg : config) (fuel : nat) (hp : heap) (source target : ptr)
    (mi : SPATIAL_AB_INERTIA) : outcome SPATIAL_AB_INERTIA :=
  if frame_mismatch cfg source (ab_pose mi) then FrameException
  else
    let* Tx := calc_transform cfg fuel hp source target in
    let r := t_x Tx in
    let E := q_matrix (t_q Tx) in
    let ET := m3_transpose E in
    let rx := skew_symmetric r in
    let HT := m3_transpose (ab_H mi) in
    let EJET := m3_mul (m3_mul E (ab_J mi)) ET in
    let rx_E_HT_ET := m3_mul (m3_mul (m3_mul rx E) HT) ET in
    let EHET := m3_mul (m3_mul E (ab_H mi)) ET in
    let EMET := m3_mul (m3_mul E (ab_M mi)) ET in
    let rxEMET := m3_mul rx EMET in
    Ok (mkABInertia EMET
          (m3_sub EHET rxEMET)
          (m3_add (m3_sub EJET rx_E_HT_ET) (m3_mul (m3_sub EHET rxEMET) rx))
          target).

(** The calculation that the wrench and the twist transforms repeat:
    [Etop = E * top; cross = cross(r, Etop);
     result = (Etop, E * bottom - cross); result.pose = target].
    The temporaries [top], [bottom], [Etop] and [cross] are [VECTOR3]
    values in the source; only their components are carried here, the
    frame of the result being the one assigned at the end. *)
Definition spatial_update (r : ORIGIN3) (E : MATRIX3) (target : ptr) (v : SVECTOR6) : SVECTOR6 :=
  let top := upper v in
  let bottom := lower v in
  let Etop := m3_mul_vec E top in
  let cr := cross r Etop in
  mkSVector6 Etop (o3_sub (m3_mul_vec E bottom) cr) target.

(** [POSE3::transform(source, target, const WRENCH&)] *)
Definition transform_wrench (cfg : config) (fuel : nat) (hp : heap) (source target : ptr)
    (v : SVECTOR6) : outcome SVECTOR6 :=
  if frame_mismatch cfg source (pose v) then FrameException
  else
    let* Tx := calc_transform cfg fuel hp source target in
    let r := t_x Tx in
    let E := q_matrix (t_q Tx) in
    Ok (spatial_update r E target v).

(** [POSE3::transform(source, target, const TWIST&)] *)
Definition transform_twist (cfg : config) (fuel : nat) (hp : heap) (source target : ptr)
    (t : SVECTOR6) : outcome SVECTOR6 :=
  if frame_mismatch cfg source (pose t) then FrameException
  else
    let* Tx := calc_transform cfg fuel hp source target in
    let r := t_x Tx in
    let E := q_matrix (t_q Tx) in
    Ok (spatial_update r E target t).

(** [POSE3::transform(source, target, const SPATIAL_RB_INERTIA&)] *)
Definition transform_rb_inertia (cfg : config) (fuel : nat) (hp : heap) (source target : ptr)
    (Ji : SPATIAL_RB_INERTIA) : outcome SPATIAL_RB_INERTIA :=
  if frame_mismatch cfg source (inertia_pose Ji) then FrameException
  else
    let* Tx := calc_transform cfg fuel hp source target in
    let r := t_x Tx in
    let E := q_matrix (t_q Tx) in
    Ok (rb_inertia_update r E Ji target).

(** *** Batch transforms

    The result vector is an out-parameter: a batch call maps its state
    before the call to how the call ends and its state after it. *)

(** [SVECTOR6()]: the element [resize] appends. *)
Definition SVECTOR6_zero : SVECTOR6 := mkSVector6 o3_zero o3_zero None.

(** [for (i = start; i < w.size(); i++) if (source != w[i].pose) throw ...]:
    [true] when the loop finds a mismatch. *)
Fixpoint frames_differ (source : ptr) (w : list SVECTOR6) : bool :=
  match w with
  | [] => false
  | wi :: w' => if negb (ptr_eqb source (pose wi)) then true else frames_differ source w'
  end.

(** [for (i = 0; i < w.size(); i++) result[i] = f(w[i], result[i])] *)
Definition fill (f : SVECTOR6 -> SVECTOR6 -> SVECTOR6) (w result : list SVECTOR6)
    : list SVECTOR6 :=
  foldl (fun res i =>
           match w !! i, res !! i with
           | Some wi, Some ri => <[i := f wi ri]> res
           | _, _ => res
           end)
        result (seq 0 (length w)).

Definition ends {A : Type} (o : outcome A) : outcome unit := let* _ := o in Ok tt.

(** [POSE3::transform(source, target, const std::vector<WRENCH>&, result)] *)
Definition transform_wrenches (cfg : config) (fuel : nat) (hp : heap) (source target : ptr)
    (w result : list SVECTOR6) : outcome unit * list SVECTOR6 :=
  match w with
  | [] => (Ok tt, [])                                       (* result.clear() *)
  | _ :: _ =>
      if negb (NEXCEPT cfg) && frames_differ source w then (FrameException, result)
      else
        match calc_transform cfg fuel hp source target with
        | Ok Tx =>
            let r := t_x Tx in
            let E := q_matrix (t_q Tx) in
            let result1 := resize (length w) SVECTOR6_zero result in
            (Ok tt, fill (fun wi _ => spatial_update r E target wi) w result1)
        | stop => (ends stop, result)
        end
  end.

(** [POSE3::transform(source, target, const std::vector<TWIST>&, result)] *)
Definition transform_twists (cfg : config) (fuel : nat) (hp : heap) (source target : ptr)
    (t result : list SVECTOR6) : outcome unit * list SVECTOR6 :=
  match t with
  | [] => (Ok tt, [])                                       (* result.clear() *)
  | _ :: _ =>
      if negb (NEXCEPT cfg) && frames_differ source t then (FrameException, result)
      else
        match calc_transform cfg fuel hp source target with
        | Ok Tx =>
            let r := t_x Tx in
            let E := q_matrix (t_q Tx) in
            let result1 := resize (length t) SVECTOR6_zero result in
            (Ok tt, fill (fun ti _ => spatial_update r E target ti) t result1)
        | stop => (ends stop, result)
        end
  end.
End Transforms.

(** ** SpArith.cpp *)
Section SpArith.
Context {Sc : Scalar} {Rt : Rotation Sc}.

(** [POSE3::calc_relative_pose] is not among the sources: the acceleration
    transforms take the resolver they call as a parameter. *)
Variable calc_relative_pose : ptr -> ptr -> outcome TRANSFORM3.

(** [get_r_E(const TRANSFORM3& T, VECTOR3& r, MATRIX3& E)] *)
Definition get_r_E_transform (T : TRANSFORM3) : ORIGIN3 * MATRIX3 :=
  let E := q_matrix (t_q T) in
  let r := m3_transpose_mult E (o3_neg (t_x T)) in
  (r, E).

Definition set_upper (v : SVECTOR6) (u : ORIGIN3) : SVECTOR6 := mkSVector6 u (lower v) (pose v).
Definition set_lower (v : SVECTOR6) (l : ORIGIN3) : SVECTOR6 := mkSVector6 (upper v) l (pose v).
Definition set_pose (v : SVECTOR6) (p : ptr) : SVECTOR6 := mkSVector6 (upper v) (lower v) p.

(** [SPARITH::transform_accel(target, w, r, E, result)] *)
Definition transform_accel_with (target : ptr) (w : SVECTOR6) (r : ORIGIN3) (E : MATRIX3)
    (result : SVECTOR6) : SVECTOR6 :=
  let top := upper w in
  let bottom := lower w in
  let Etop := m3_mul_vec E top in
  let cr := cross r top in
  let result := set_upper result Etop in
  let result := set_lower result (m3_mul_vec E (o3_sub bottom cr)) in
  set_pose result target.

(** [SPARITH::transform_accel(target, const std::vector<SACCEL>&, result)] *)
Definition transform_accel (cfg : config) (target : ptr) (t result : list SVECTOR6)
    : outcome unit * list SVECTOR6 :=
  match t with
  | [] => (Ok tt, [])                                       (* result.clear() *)
  | t0 :: rest =>
      let source := pose t0 in
      if negb (NEXCEPT cfg) && frames_differ source rest then (FrameException, result)
      else if ptr_eqb source target then (Ok tt, t)         (* result = t *)
      else
        match calc_relative_pose source target with
        | Ok Tx =>
            let '(r, E) := get_r_E_transform Tx in
            let result1 := resize (length t) SVECTOR6_zero result in
            (Ok tt, fill (fun ti ri => transform_accel_with target ti r E ri) t result1)
        | stop => (ends stop, result)
        end
  end.
End SpArith.

(** ** Instances to run the embedding on

    Exact integer scalars and Hamilton quaternions over them, the real
    numbers with the interpolating quaternions, and [double].  The theorems are stated for every scalar and
    rotation type; these instances evaluate the definitions on concrete
    frames. *)

Record quat {Sc : Scalar} : Type := mkQuat { qw : REAL; qx : REAL; qy : REAL; qz : REAL }.
Arguments mkQuat {Sc} qw qx qy qz.

Section Hamilton.
Context {Sc : Scalar}.

Definition quat_norm2 (a : quat) : REAL :=
  radd (radd (radd (rmul (qw a) (qw a)) (rmul (qx a) (qx a))) (rmul (qy a) (qy a)))
       (rmul (qz a) (qz a)).

Definition quat_mul (a b : quat) : quat :=
  mkQuat
    (rsub (rsub (rsub (rmul (qw a) (qw b)) (rmul (qx a) (qx b))) (rmul (qy a) (qy b)))
          (rmul (qz a) (qz b)))
    (rsub (radd (radd (rmul (qw a) (qx b)) (rmul (qx a) (qw b))) (rmul (qy a) (qz b)))
          (rmul (qz a) (qy b)))
    (radd (radd (rsub (rmul (qw a) (qy b)) (rmul (qx a) (qz b))) (rmul (qy a) (qw b)))
          (rmul (qz a) (qx b)))
    (radd (rsub (radd (rmul (qw a) (qz b)) (rmul (qx a) (qy b))) (rmul (qy a) (qx b)))
          (rmul (qz a) (qw b))).

Definition quat_conj (a : quat) : quat :=
  mkQuat (qw a) (ropp (qx a)) (ropp (qy a)) (ropp (qz a)).

Definition rdouble (a : REAL) : REAL := radd a a.

(** The matrix of [v |-> a v conj(a)]. *)
Definition quat_matrix (a : quat) : MATRIX3 :=
  let ww := rmul (qw a) (qw a) in
  let xx := rmul (qx a) (qx a) in
  let yy := rmul (qy a) (qy a) in
  let zz := rmul (qz a) (qz a) in
  let xy := rmul (qx a) (qy a) in
  let xz := rmul (qx a) (qz a) in
  let yz := rmul (qy a) (qz a) in
  let wx := rmul (qw a) (qx a) in
  let wy := rmul (qw a) (qy a) in
  let wz := rmul (qw a) (qz a) in
  mkMatrix3
    (mkOrigin3 (rsub (rsub (radd ww xx) yy) zz) (rdouble (rsub xy wz)) (rdouble (radd xz wy)))
    (mkOrigin3 (rdouble (radd xy wz)) (rsub (radd (rsub ww xx) yy) zz) (rdouble (rsub yz wx)))
    (mkOrigin3 (rdouble (rsub xz wy)) (rdouble (radd yz wx)) (radd (rsub (rsub ww xx) yy) zz)).

Definition quat_rotate (a : quat) (v : ORIGIN3) : ORIGIN3 := m3_mul_vec (quat_matrix a) v.

Definition quat_scale (a : quat) (s : REAL) : quat :=
  mkQuat (rmul (qw a) s) (rmul (qx a) s) (rmul (qy a) s) (rmul (qz a) s).
Definition quat_add (a b : quat) : quat :=
  mkQuat (radd (qw a) (qw b)) (radd (qx a) (qx b)) (radd (qy a) (qy b)) (radd (qz a) (qz b)).

Definition quat_neg (a : quat) : quat :=
  mkQuat (ropp (qw a)) (ropp (qx a)) (ropp (qy a)) (ropp (qz a)).
Definition quat_dot (a b : quat) : REAL :=
  radd (radd (radd (rmul (qw a) (qw b)) (rmul (qx a) (qx b))) (rmul (qy a) (qy b)))
       (rmul (qz a) (qz b)).
Definition quat_angle (a b : quat) : REAL :=
  rsub rone (rmul (quat_dot a b) (quat_dot a b)).

(** Hamilton quaternions over any scalar ring.  A ring has no square
    root: normalisation is the identity, as it is on unit quaternions,
    and there is no interpolation. *)

#[export] Instance Hamilton : Rotation Sc := {|
  QUAT := quat;
  q_identity := mkQuat rone rzero rzero rzero;
  q_mul := quat_mul;
  q_invert := quat_conj;
  q_normalize := fun a => a;
  q_calc_angle := quat_angle;
  q_rotate := quat_rotate;
  q_matrix := quat_matrix;
  q_unit := fun a => quat_norm2 a = rone
|}.
End Hamilton.

Definition Z_scalar : Scalar := {|
  REAL := Z; rzero := 0%Z; rone := 1%Z;
  radd := Z.add; rsub := Z.sub; rmul := Z.mul; ropp := Z.opp;
  ops_rel_equal := fun a b tol => (Z.abs (a - b) <=? tol)%Z
|}.

(** Real numbers: exact arithmetic with square roots and the circular
    functions, which the interpolation of rotations needs. *)
Definition R_scalar : Scalar := {|
  REAL := R; rzero := 0%R; rone := 1%R;
  radd := Rplus; rsub := Rminus; rmul := Rmult; ropp := Ropp;
  ops_rel_equal := fun a b tol => if Rle_dec (Rabs (a - b)) tol then true else false
|}.

(** [double], IEEE 754 binary64 with round to nearest: the [REAL] of the
    build with [ddefs.h]. *)
Definition double_scalar : Scalar := {|
  REAL := float; rzero := 0%float; rone := 1%float;
  radd := PrimFloat.add; rsub := PrimFloat.sub; rmul := PrimFloat.mul;
  ropp := PrimFloat.opp;
  ops_rel_equal := fun a b tol => PrimFloat.leb (PrimFloat.abs (PrimFloat.sub a b)) tol
|}.

(** ** Quaternions over the real numbers, with interpolation *)

Section RealQuaternions.
#[local] Existing Instance R_scalar.
#[local] Open Scope R_scope.

(** Modelled from the spec: [QUAT::normalize] is not among the sources;
    the orientation of a frame is a "unit rotation": the quaternion
    divided by its norm. *)
Definition quat_normalize (a : quat) : quat :=
  quat_scale a (/ sqrt (quat_norm2 a)).

(** The sign that brings [b] to the side of [a]: [b] and [-b] are the
    same rotation, and the arc from [a] to the one with the non-negative
    dot product is the shorter one. *)
Definition arc_sign (a b : quat) : R :=
  if Rle_dec 0 (quat_dot a b) then 1 else -1.

(** Modelled from the spec: [QUAT::slerp] is not among the sources;
    "spherical/linear interpolation ... rotation via shortest-arc
    interpolation".  The spherical linear interpolation of two unit
    quaternions along the shorter great arc between the two rotations:
    with [theta] the angle between [a] and [s b],
    [sin((1-t) theta)/sin(theta) a + sin(t theta)/sin(theta) s b];
    where the two coincide ([theta = 0]) the arc is the point [a]. *)
Definition quat_slerp (a b : quat) (t : R) : quat :=
  let s := arc_sign a b in
  let c := s * quat_dot a b in
  if Rlt_dec c 1 then
    let theta := acos c in
    quat_add (quat_scale a (sin ((1 - t) * theta) / sin theta))
             (quat_scale b (s * (sin (t * theta) / sin theta)))
  else a.

(** Modelled from the spec: the "shortest-arc rotation midpoint" of two
    rotations, the unit quaternion half way between [a] and [s b] on
    their great circle: their normalised sum. *)
Definition shortest_arc_midpoint (a b : quat) : quat :=
  quat_normalize (quat_add a (quat_scale b (arc_sign a b))).

Definition RealQuat : Rotation R_scalar := {|
  QUAT := quat;
  q_identity := mkQuat 1 0 0 0;
  q_mul := quat_mul;
  q_invert := quat_conj;
  q_normalize := quat_normalize;
  q_calc_angle := quat_angle;
  q_rotate := quat_rotate;
  q_matrix := quat_matrix;
  q_unit := fun a => quat_norm2 a = 1
|}.

Definition RealSlerp : Slerp RealQuat := @Build_Slerp R_scalar RealQuat quat_slerp.
End RealQuaternions.

(** ** The ancestor chain of a frame

    [chain hp p l]: following the relative poses from [p] reaches the
    global frame, through the frames at the addresses [l], in order.  A
    chain exists exactly when the walk ends: the parent relation under [p]
    has no cycle and every frame on the way is on the heap. *)
Inductive chain {Sc : Scalar} {Rt : Rotation Sc} (hp : heap) : ptr -> list addr -> Prop :=
| chain_global : chain hp None []
| chain_frame (a : addr) (p : POSE3) (l : list addr) :
    hp !! a = Some p -> chain hp (rpose p) l -> chain hp (Some a) (a :: l).

(** The same walk as a function, for at most [fuel] frames. *)
Fixpoint ancestors {Sc : Scalar} {Rt : Rotation Sc} (fuel : nat) (hp : heap) (p : ptr)
    : option (list addr) :=
  match p with
  | None => Some []
  | Some a =>
      match fuel with
      | O => None
      | S fuel' =>
          match hp !! a with
          | None => None
          | Some pa =>
              match ancestors fuel' hp (rpose pa) with
              | None => None
              | Some l => Some (a :: l)
              end
          end
      end
  end.

(** Every frame on the heap holds a unit quaternion ("orientation (unit
    rotation)" in the data model). *)
Definition unit_frames {Sc : Scalar} {Rt : Rotation Sc} (hp : heap) : Prop :=
  map_Forall (fun (_ : addr) (p : POSE3) => q_unit (q p)) hp.

(** ** Concrete frames *)

(** The default build: frame checks and assertions compiled in. *)
Definition checked : config := mkConfig false false.

(** A build with [NEXCEPT] defined: the frame checks are compiled out. *)
Definition unchecked : config := mkConfig true false.

(** A build with [NDEBUG] defined: [assert] is compiled out. *)
Definition no_asserts : config := mkConfig false true.

Module ZFrames.
#[local] Existing Instance Z_scalar.

Definition vec (a b c : Z) : ORIGIN3 := mkOrigin3 a b c.
Definition q_one : QUAT := mkQuat 1%Z 0%Z 0%Z 0%Z.
(** The half turn about the z axis. *)
Definition q_k : QUAT := mkQuat 0%Z 0%Z 0%Z 1%Z.

(** Two frames anchored to the global frame: [1] at (1,0,0), [2] at
    (0,1,0), both with the identity rotation. *)
Definition two_roots : heap :=
  <[1%positive := mkPose3 q_one (vec 1 0 0) None]>
    (<[2%positive := mkPose3 q_one (vec 0 1 0) None]> ∅).

(** Two frames anchored to the global frame, [1] turned by a half turn
    about z, [2] moved to (1,0,0). *)
Definition turned_roots : heap :=
  <[1%positive := mkPose3 q_k (vec 0 0 0) None]>
    (<[2%positive := mkPose3 q_one (vec 1 0 0) None]> ∅).

(** The same two frames under a common frame [3], frame [2] hanging from
    it through the identity frame [4]: no longer siblings. *)
Definition turned_tree : heap :=
  <[1%positive := mkPose3 q_k (vec 0 0 0) (Some 3%positive)]>
    (<[2%positive := mkPose3 q_one (vec 1 0 0) (Some 4%positive)]>
       (<[3%positive := mkPose3 q_one (vec 0 0 0) None]>
          (<[4%positive := mkPose3 q_one (vec 0 0 0) (Some 3%positive)]> ∅))).

(** Two separate trees: [1] under the root [3], [2] under the root [4]. *)
Definition two_trees : heap :=
  <[1%positive := mkPose3 q_one (vec 1 0 0) (Some 3%positive)]>
    (<[2%positive := mkPose3 q_one (vec 0 1 0) (Some 4%positive)]>
       (<[3%positive := mkPose3 q_one (vec 0 0 0) None]>
          (<[4%positive := mkPose3 q_one (vec 5 0 0) None]> ∅))).


(** A forest of frames turned by half turns about the three axes: the tree
    [10] <- [11] <- [12], [10] <- [13] <- [14], and the lone root [20]. *)
Definition q_i : QUAT := mkQuat 0%Z 1%Z 0%Z 0%Z.
Definition q_j : QUAT := mkQuat 0%Z 0%Z 1%Z 0%Z.
Definition forest : heap :=
  <[10%positive := mkPose3 q_i (vec 1 2 3) None]>
    (<[11%positive := mkPose3 q_j (vec 4 5 6) (Some 10%positive)]>
       (<[12%positive := mkPose3 q_k (vec 7 8 9) (Some 11%positive)]>
          (<[13%positive := mkPose3 q_k (vec 1 0 2) (Some 10%positive)]>
             (<[14%positive := mkPose3 q_i (vec 3 1 4) (Some 13%positive)]>
                (<[20%positive := mkPose3 q_j (vec 2 2 2) None]> ∅))))).

(** A twist with all six components set, tagged with the frame [p]. *)
Definition screw (p : ptr) : SVECTOR6 := mkSVector6 (vec 1 2 3) (vec 4 5 6) p.

(** The twist [screw b] taken from frame [b] to frame [a] and back. *)
Definition there_and_back (a b : ptr) : outcome SVECTOR6 :=
  let* t1 := transform_twist checked 4 forest b a (screw b) in
  transform_twist checked 4 forest a b t1.

(** A twist about z, tagged with frame [2]. *)
Definition spin_z : SVECTOR6 := mkSVector6 (vec 0 0 1) (vec 0 0 0) (Some 2%positive).

(** Two poses relative to frame [3]. *)
Definition child_a : POSE3 := mkPose3 q_k (vec 1 0 0) (Some 3%positive).
Definition child_b : POSE3 := mkPose3 q_one (vec 0 2 0) (Some 3%positive).

(** A rigid-body inertia tagged with frame [1]. *)
Definition body : SPATIAL_RB_INERTIA :=
  mkRBInertia 7%Z (vec 1 2 3)
    (mkMatrix3 (vec 2 0 0) (vec 0 3 0) (vec 0 0 4)) (Some 1%positive).

(** Three wrenches, the last one tagged with another frame. *)
Definition mixed_batch : list SVECTOR6 :=
  [ mkSVector6 (vec 1 0 0) (vec 0 0 0) (Some 1%positive);
    mkSVector6 (vec 0 1 0) (vec 0 0 1) (Some 1%positive);
    mkSVector6 (vec 0 0 1) (vec 1 0 0) (Some 2%positive) ].

(** What a result vector held before the call. *)
Definition stale : list SVECTOR6 := [ mkSVector6 (vec 9 9 9) (vec 9 9 9) None ].
End ZFrames.

Module RealFrames.
#[local] Existing Instance R_scalar.
#[local] Open Scope R_scope.

Definition vec (a b c : R) : ORIGIN3 := mkOrigin3 a b c.
Definition q_one : quat := mkQuat 1 0 0 0.
(** A half turn about z, and a quarter turn about z. *)
Definition q_k : quat := mkQuat 0 0 0 1.
Definition q_quarter : quat := mkQuat (/ sqrt 2) 0 0 (/ sqrt 2).
(** Two poses relative to frame [3], and one relative to frame [4]. *)
Definition frame_a : @POSE3 R_scalar RealQuat :=
  @mkPose3 R_scalar RealQuat q_one (vec 1 0 0) (Some 3%positive).
Definition frame_b : @POSE3 R_scalar RealQuat :=
  @mkPose3 R_scalar RealQuat q_k (vec 0 3 0) (Some 3%positive).
(** A pose whose quaternion has a negative dot product with [q_one]: a
    turn by three quarters about z. *)
Definition frame_far : @POSE3 R_scalar RealQuat :=
  @mkPose3 R_scalar RealQuat (mkQuat (- / sqrt 2) 0 0 (/ sqrt 2)) (vec 0 3 0)
    (Some 3%positive).
End RealFrames.

(** A pose in the double build: the rotation (0.6, 0, 0, 0.8) as binary64
    rounds the two decimals (0x1.3333333333333p-1, 0x1.999999999999ap-1), whose
    squared norm is 1 in binary64, and the translation (1, 2, 3). *)
Module DoubleFrames.
#[local] Existing Instance double_scalar.

Definition pose_d : POSE3 :=
  mkPose3 (mkQuat 0x1.3333333333333p-1%float 0%float 0%float 0x1.999999999999ap-1%float)
          (mkOrigin3 1%float 2%float 3%float) None.
End DoubleFrames.

(** ** Pose3.cpp: the member transforms *)

Section Pose3Members.
Context {Sc : Scalar} {Rt : Rotation Sc}.

(** The frame that the product [q * v] of a rotation and a tagged 3-vector
    carries is fixed by the rotation class, which is not among the
    sources; the inverse transforms of a point and of a free vector take
    it as the parameter [untagged].  It shows only where [NEXCEPT] is
    defined, every other path assigns the frame of the result. *)
Variable untagged : ptr.

(** [VECTOR3 POSE3::transform(const VECTOR3& v) const] *)
Definition transform_vector_member (cfg : config) (self : ptr) (this : POSE3) (v : VECTOR3)
    : outcome VECTOR3 :=
  if negb (NEXCEPT cfg) && negb (ptr_eqb (vector_pose v) self) then FrameException
  else Ok (mkVector3 (q_rotate (q this) (vector_xyz v)) (rpose this)).

(** [VECTOR3 POSE3::inverse_transform(const VECTOR3& v) const]: the frame
    check comes after the computation, and tags the result. *)
Definition inverse_transform_vector (cfg : config) (self : ptr) (this : POSE3) (v : VECTOR3)
    : outcome VECTOR3 :=
  let result := q_rotate (q_invert (q this)) (vector_xyz v) in
  if NEXCEPT cfg then Ok (mkVector3 result untagged)
  else if negb (ptr_eqb (vector_pose v) (rpose this)) then FrameException
  else Ok (mkVector3 result self).

(** [POINT3 POSE3::transform(const POINT3& p) const] *)
Definition transform_point_member (cfg : config) (self : ptr) (this : POSE3) (p : POINT3)
    : outcome POINT3 :=
  if negb (NEXCEPT cfg) && negb (ptr_eqb (point_pose p) self) then FrameException
  else Ok (mkPoint3 (o3_add (q_rotate (q this) (point_xyz p)) (x this)) (rpose this)).

(** [POINT3 POSE3::inverse_transform(const POINT3& p) const] *)
Definition inverse_transform_point (cfg : config) (self : ptr) (this : POSE3) (p : POINT3)
    : outcome POINT3 :=
  let result := q_rotate (q_invert (q this)) (o3_sub (point_xyz p) (x this)) in
  if NEXCEPT cfg then Ok (mkPoint3 result untagged)
  else if negb (ptr_eqb (point_pose p) (rpose this)) then FrameException
  else Ok (mkPoint3 result self).

(** [WRENCH POSE3::transform(const WRENCH& w) const] *)
Definition transform_wrench_member (cfg : config) (self : ptr) (this : POSE3) (w : SVECTOR6)
    : outcome SVECTOR6 :=
  if negb (NEXCEPT cfg) && negb (ptr_eqb (pose w) self) then FrameException
  else
    let '(r, E) := get_r_E this false in
    Ok (spatial_update r E (rpose this) w).

(** [WRENCH POSE3::inverse_transform(const WRENCH& w) const]: the result
    is built by [WRENCH(Etop, E * bottom - cross)], which leaves its frame
    null, and is tagged only where the frame check is compiled in. *)
Definition inverse_transform_wrench (cfg : config) (self : ptr) (this : POSE3) (w : SVECTOR6)
    : outcome SVECTOR6 :=
  let '(r, E) := get_r_E this true in
  let result := spatial_update r E None w in
  if NEXCEPT cfg then Ok result
  else if negb (ptr_eqb (pose w) (rpose this)) then FrameException
  else Ok (set_pose result self).

(** [TWIST POSE3::transform(const TWIST& t) const] *)
Definition transform_twist_member (cfg : config) (self : ptr) (this : POSE3) (t : SVECTOR6)
    : outcome SVECTOR6 :=
  if negb (NEXCEPT cfg) && negb (ptr_eqb (pose t) self) then FrameException
  else
    let '(r, E) := get_r_E this false in
    Ok (spatial_update r E (rpose this) t).

(** [TWIST POSE3::inverse_transform(const TWIST& t) const] *)
Definition inverse_transform_twist (cfg : config) (self : ptr) (this : POSE3) (t : SVECTOR6)
    : outcome SVECTOR6 :=
  let '(r, E) := get_r_E this true in
  let result := spatial_update r E None t in
  if NEXCEPT cfg then Ok result
  else if negb (ptr_eqb (pose t) (rpose this)) then FrameException
  else Ok (set_pose result self).
End Pose3Members.

(** ** SpArith.cpp: one acceleration, and the products with a vector *)

Section SpArithMore.
Context {Sc : Scalar} {Rt : Rotation Sc}.

Variable calc_relative_pose : ptr -> ptr -> outcome TRANSFORM3.

(** [SACCEL SPARITH::transform_accel(target, const SACCEL& a)] *)
Definition transform_accel_single (target : ptr) (a : SVECTOR6) : outcome SVECTOR6 :=
  let s := SVECTOR6_zero in
  let source := pose a in
  if ptr_eqb source target then Ok a                       (* s = a *)
  else
    let* Tx := calc_relative_pose source target in
    let '(r, E) := get_r_E_transform Tx in
    let top := upper a in
    let bottom := lower a in
    let Etop := m3_mul_vec E top in
    let cr := cross r top in
    let s := set_upper s Etop in
    let s := set_lower s (m3_mul_vec E (o3_sub bottom cr)) in
    Ok (set_pose s target).
End SpArithMore.

(** How a product of [SpArith.cpp] ends: with a value, or with one of the
    three exceptions it throws. *)
Inductive product_outcome (A : Type) : Type :=
| Returned (a : A)
| ThrowsMissize              (* throw MissizeException() *)
| ThrowsFrame                (* throw FrameException() *)
| ThrowsRuntimeError.        (* throw std::runtime_error(...) *)
Arguments Returned {A} a.
Arguments ThrowsMissize {A}.
Arguments ThrowsFrame {A}.
Arguments ThrowsRuntimeError {A}.

Section Products.
Context {Sc : Scalar}.

(** [_data[j]] of a spatial vector: [set_upper] fills the entries 0 to 2,
    [set_lower] the entries 3 to 5; [operator[]] asserts [j < 6]. *)
Definition sv_get (v : SVECTOR6) (j : nat) : REAL :=
  match j with
  | 0 => c0 (upper v)
  | 1 => c1 (upper v)
  | 2 => c2 (upper v)
  | 3 => c0 (lower v)
  | 4 => c1 (lower v)
  | _ => c2 (lower v)
  end.

Definition sv_set (v : SVECTOR6) (j : nat) (a : REAL) : SVECTOR6 :=
  match j with
  | 0 => mkSVector6 (mkOrigin3 a (c1 (upper v)) (c2 (upper v))) (lower v) (pose v)
  | 1 => mkSVector6 (mkOrigin3 (c0 (upper v)) a (c2 (upper v))) (lower v) (pose v)
  | 2 => mkSVector6 (mkOrigin3 (c0 (upper v)) (c1 (upper v)) a) (lower v) (pose v)
  | 3 => mkSVector6 (upper v) (mkOrigin3 a (c1 (lower v)) (c2 (lower v))) (pose v)
  | 4 => mkSVector6 (upper v) (mkOrigin3 (c0 (lower v)) a (c2 (lower v))) (pose v)
  | _ => mkSVector6 (upper v) (mkOrigin3 (c0 (lower v)) (c1 (lower v)) a) (pose v)
  end.

Definition SPATIAL_DIM : nat := 6.

(** [for (j = 0; j < SPATIAL_DIM; j++) for (i = 0; i < t.size(); i++)
      result[j] += t[i][j] * vdata[i];] *)
Definition accumulate_velocities (t : list SVECTOR6) (v : list REAL) (result : SVECTOR6)
    : SVECTOR6 :=
  foldl (fun res j =>
           foldl (fun res i =>
                    match t !! i, v !! i with
                    | Some ti, Some vi =>
                        sv_set res j (radd (sv_get res j) (rmul (sv_get ti j) vi))
                    | _, _ => res
                    end)
                 res (seq 0 (length t)))
        result (seq 0 SPATIAL_DIM).

(** [SVELOCITY SPARITH::mult(const vector<SVELOCITY>& t, const VECTORN& v)];
    a [VECTORN] is the list of its entries. *)
Definition mult_velocities (t : list SVECTOR6) (v : list REAL) : product_outcome SVECTOR6 :=
  if negb (length t =? length v) then ThrowsMissize
  else
    match t with
    | [] => ThrowsRuntimeError                   (* "loss of frame information" *)
    | t0 :: rest =>
        let result := set_pose SVECTOR6_zero (pose t0) in
        if frames_differ (pose t0) rest then ThrowsFrame
        else Returned (accumulate_velocities t v result)
    end.

(** [for (i = 1; i < Is.size(); i++)
      if (Is[i].pose != Is[i-1].pose) throw FrameException();] *)
Fixpoint neighbours_differ (Is : list SVECTOR6) : bool :=
  match Is with
  | a :: (b :: _) as rest =>
      if negb (ptr_eqb (pose b) (pose a)) then true else neighbours_differ rest
  | _ => false
  end.

(** [for (j...) for (i...) rdata[j] += Isdata[j] * vdata[i];] on the
    entries of the result vector. *)
Definition accumulate_momenta (Is : list SVECTOR6) (v : list REAL) (result : list REAL)
    : list REAL :=
  foldl (fun res j =>
           foldl (fun res i =>
                    match Is !! i, v !! i, res !! j with
                    | Some Ii, Some vi, Some rj => <[j := radd rj (rmul (sv_get Ii j) vi)]> res
                    | _, _, _ => res
                    end)
                 res (seq 0 (length Is)))
        result (seq 0 SPATIAL_DIM).

(** [VECTORN& SPARITH::mult(const vector<SMOMENTUM>& Is, const VECTORN& v,
    VECTORN& result)]: how the call ends, and the result vector after it.
    [result.set_zero(SPATIAL_DIM)] makes it six zeros. *)
Definition mult_momenta (Is : list SVECTOR6) (v result : list REAL)
    : product_outcome unit * list REAL :=
  if negb (length Is =? length v) then (ThrowsMissize, result)
  else
    let result := replicate SPATIAL_DIM rzero in
    match Is with
    | [] => (Returned tt, result)
    | _ :: _ =>
        if neighbours_differ Is then (ThrowsFrame, result)
        else (Returned tt, accumulate_momenta Is v result)
    end.

(** The sum the two products compute, one term per input:
    [acc + t * c], entry by entry. *)
Definition sv_add_scaled (acc t : SVECTOR6) (c : REAL) : SVECTOR6 :=
  mkSVector6 (o3_add (upper acc) (o3_scale (upper t) c))
             (o3_add (lower acc) (o3_scale (lower t) c))
             (pose acc).

Definition sv_linear_combination (t : list SVECTOR6) (v : list REAL) (start : SVECTOR6)
    : SVECTOR6 :=
  foldl (fun acc tc => sv_add_scaled acc (fst tc) (snd tc)) start (zip t v).

Definition sv_entries (s : SVECTOR6) : list REAL :=
  [c0 (upper s); c1 (upper s); c2 (upper s); c0 (lower s); c1 (lower s); c2 (lower s)].

(** Entry [k] of the sum: the entry of the start plus the weighted
    entries of the inputs, in the order of the inputs. *)
Definition entry_sum (k : nat) (start : REAL) (l : list (SVECTOR6 * REAL)) : REAL :=
  foldl (fun acc tc => radd acc (rmul (sv_get (fst tc) k) (snd tc))) start l.

(** The body of the inner loops: [result[j] += t[i][j] * vdata[i]] and
    [rdata[j] += Isdata[j] * vdata[i]]. *)
Definition entry_step (j : nat) (res : SVECTOR6) (ti : SVECTOR6) (vi : REAL) : SVECTOR6 :=
  sv_set res j (radd (sv_get res j) (rmul (sv_get ti j) vi)).

Definition entry_step_list (j : nat) (res : list REAL) (Ii : SVECTOR6) (vi : REAL)
    : list REAL :=
  match res !! j with
  | Some rj => <[j := radd rj (rmul (sv_get Ii j) vi)]> res
  | None => res
  end.
End Products.

(** ** More of what a rotation type is asked for *)

Class RotationInverseLaws {Sc : Scalar} (Rt : Rotation Sc) : Prop := {
  q_mul_invert_r : forall q, q_unit q -> q_mul q (q_invert q) = q_identity;
  q_mul_invert_l : forall q, q_unit q -> q_mul (q_invert q) q = q_identity;
  q_identity_unit : q_unit q_identity;
  q_matrix_transpose : forall q v,
    q_unit q -> m3_transpose_mult (q_matrix q) v = q_rotate (q_invert q) v
}.

(** The 3x3 identity matrix. *)
Definition m3_identity {Sc : Scalar} : MATRIX3 :=
  mkMatrix3 (mkOrigin3 rone rzero rzero) (mkOrigin3 rzero rone rzero)
            (mkOrigin3 rzero rzero rone).

(** A set of frames that the parent links never leave: every frame in it
    is on the heap and has a parent in it. *)
Definition parent_closed {Sc : Scalar} {Rt : Rotation Sc} (hp : heap) (inside : addr -> Prop)
    : Prop :=
  forall a, inside a ->
    exists pa b, hp !! a = Some pa /\ rpose pa = Some b /\ inside b.

Module MoreZFrames.
#[local] Existing Instance Z_scalar.
Import ZFrames.

(** Two frames that are each other's parent. *)
Definition loop_heap : heap :=
  <[1%positive := mkPose3 q_one (vec 1 0 0) (Some 2%positive)]>
    (<[2%positive := mkPose3 q_k (vec 0 1 0) (Some 1%positive)]> ∅).

(** Three twists in frame [1] and three weights. *)
Definition axes : list SVECTOR6 :=
  [ mkSVector6 (vec 1 0 0) (vec 0 0 2) (Some 1%positive);
    mkSVector6 (vec 0 1 0) (vec 3 0 0) (Some 1%positive);
    mkSVector6 (vec 0 0 1) (vec 0 4 0) (Some 1%positive) ].
Definition weights : list REAL := [2%Z; 3%Z; 5%Z].

(** A symmetric inertia tensor for a body in frame [1]. *)
Definition symmetric_body : SPATIAL_RB_INERTIA :=
  mkRBInertia 7%Z (vec 1 2 3)
    (mkMatrix3 (vec 2 1 0) (vec 1 3 5) (vec 0 5 4)) (Some 1%positive).

Definition symmetric_ab : SPATIAL_AB_INERTIA :=
  mkABInertia (mkMatrix3 (vec 2 1 0) (vec 1 3 5) (vec 0 5 4))
              (mkMatrix3 (vec 1 2 3) (vec 4 5 6) (vec 7 8 9))
              (mkMatrix3 (vec 6 1 2) (vec 1 7 3) (vec 2 3 8)) (Some 1%positive).
End MoreZFrames.

(** * Properties *)

Lemma ptr_eqb_true (a b : ptr) : ptr_eqb a b = true <-> a = b.
Proof. unfold ptr_eqb. apply bool_decide_eq_true. Qed.

Lemma ptr_eqb_false (a b : ptr) : ptr_eqb a b = false <-> a <> b.
Proof. unfold ptr_eqb. apply bool_decide_eq_false. Qed.

Lemma ptr_eqb_refl (a : ptr) : ptr_eqb a a = true.
Proof. by apply ptr_eqb_true. Qed.

(** ** The instances satisfy the laws *)

Lemma Z_scalar_laws : ScalarLaws Z_scalar.
Proof. constructor. exact InitialRing.Zth. Qed.

Lemma R_scalar_laws : ScalarLaws R_scalar.
Proof. constructor. exact RTheory. Qed.

Section HamiltonLaws.
Context {Sc : Scalar} {L : ScalarLaws Sc}.

Add Ring scalar_ring_hamilton : (@scalar_ring Sc L).

Lemma quat_rotate_conj (a : quat) (v : ORIGIN3) :
  quat_rotate a (quat_rotate (quat_conj a) v)
  = o3_scale v (rmul (quat_norm2 a) (quat_norm2 a)).
Proof.
  destruct a, v; unfold quat_rotate, quat_matrix, quat_conj, m3_mul_vec, o3_dot, o3_scale,
    quat_norm2, rdouble; simpl; f_equal; ring.
Qed.

Lemma quat_rotate_cross (a : quat) (u v : ORIGIN3) :
  o3_scale (quat_rotate a (cross u v)) (quat_norm2 a)
  = cross (quat_rotate a u) (quat_rotate a v).
Proof.
  destruct a, u, v; unfold quat_rotate, quat_matrix, m3_mul_vec, o3_dot, o3_scale, cross,
    quat_norm2, rdouble; simpl; f_equal; ring.
Qed.

Lemma Hamilton_laws : RotationLaws (@Hamilton Sc).
Proof.
  constructor; simpl.
  - intros [w a b c]; unfold quat_mul; simpl; f_equal; ring.
  - unfold quat_conj; simpl; f_equal; ring.
  - intros [a b c]; unfold quat_rotate, quat_matrix, m3_mul_vec, o3_dot, rdouble; simpl;
      f_equal; ring.
  - intros [w a b c] [w' a' b' c']; unfold quat_norm2, quat_mul; simpl; intros H1 H2.
    transitivity (rmul rone rone); [|ring]. rewrite <- H1 at 1. rewrite <- H2. ring.
  - intros [w a b c]; unfold quat_norm2, quat_conj; simpl; intros <-; ring.
  - intros [w a b c] _; unfold quat_conj; simpl; f_equal; ring.
  - intros [w a b c] [v0 v1 v2]; unfold quat_rotate, quat_matrix, m3_mul_vec, o3_dot,
      o3_neg, rdouble; simpl; f_equal; ring.
  - intros a v Hu. rewrite quat_rotate_conj, Hu. destruct v; unfold o3_scale; simpl;
      f_equal; ring.
  - intros [w a b c] [u0 u1 u2] [v0 v1 v2]; unfold quat_rotate, quat_matrix, m3_mul_vec,
      o3_dot, o3_sub, rdouble; simpl; f_equal; ring.
  - intros a u v Hu. rewrite <- quat_rotate_cross, Hu.
    destruct (quat_rotate a (cross u v)); unfold o3_scale; simpl; f_equal; ring.
  - reflexivity.
  - reflexivity.
Qed.
End HamiltonLaws.

(** ** Batch transforms *)

Section BatchFacts.
Context {Sc : Scalar} {Rt : Rotation Sc}.

(** The validation loop finds a mismatch exactly when some element is
    tagged with another frame than [source]. *)
Lemma frames_differ_Exists (source : ptr) (w : list SVECTOR6) :
  frames_differ source w = true <-> Exists (fun e => pose e <> source) w.
Proof.
  induction w as [|wi w IH]; simpl.
  - split; [discriminate | intros H; inversion H].
  - destruct (ptr_eqb source (pose wi)) eqn:E; simpl.
    + apply ptr_eqb_true in E. rewrite IH. split.
      * intros H. by apply Exists_cons_tl.
      * intros H. inversion H as [? ? Hne|]; subst; [congruence | done].
    + apply ptr_eqb_false in E. split; [|done].
      intros _. apply Exists_cons_hd. congruence.
Qed.

Lemma frames_differ_Forall (source : ptr) (w : list SVECTOR6) :
  frames_differ source w = false <-> Forall (fun e => pose e = source) w.
Proof.
  induction w as [|wi w IH]; simpl.
  - split; [constructor | done].
  - destruct (ptr_eqb source (pose wi)) eqn:E; simpl.
    + apply ptr_eqb_true in E. rewrite IH. split.
      * intros H. by constructor.
      * intros H. by inversion H.
    + apply ptr_eqb_false in E. split; [done|].
      intros H. inversion H; subst. congruence.
Qed.

(** The element loop, once the result vector has the size of the input,
    rewrites every slot from the input element at the same index. *)
Lemma fill_prefix (f : SVECTOR6 -> SVECTOR6 -> SVECTOR6) (w res : list SVECTOR6) (n : nat) :
  length res = length w -> n <= length w ->
  foldl (fun r i =>
           match w !! i, r !! i with
           | Some wi, Some ri => <[i := f wi ri]> r
           | _, _ => r
           end) res (seq 0 n)
  = zip_with f (take n w) (take n res) ++ drop n res.
Proof.
  intros Hlen. induction n as [|n IH]; intros Hn.
  - by rewrite !take_0, drop_0.
  - rewrite seq_S, foldl_app, IH by lia. simpl.
    destruct (lookup_lt_is_Some_2 w n) as [wi Hwi]; [lia|].
    destruct (lookup_lt_is_Some_2 res n) as [ri Hri]; [lia|].
    assert (Hl : length (zip_with f (take n w) (take n res)) = n).
    { rewrite length_zip_with, !length_take. lia. }
    rewrite Hwi, lookup_app_r by lia. rewrite Hl, Nat.sub_diag.
    rewrite (drop_S res ri n Hri). simpl.
    rewrite insert_app_r_alt by lia. rewrite Hl, Nat.sub_diag. simpl.
    rewrite (take_S_r w n wi Hwi), (take_S_r res n ri Hri).
    rewrite zip_with_app by (rewrite !length_take; lia).
    simpl. by rewrite <- app_assoc.
Qed.

Lemma fill_zip_with (f : SVECTOR6 -> SVECTOR6 -> SVECTOR6) (w res : list SVECTOR6) :
  length res = length w -> fill f w res = zip_with f w res.
Proof.
  intros Hlen. unfold fill. rewrite fill_prefix by lia.
  rewrite firstn_all, <- Hlen, firstn_all, drop_all. apply app_nil_r.
Qed.

Lemma fill_resize_map (g : SVECTOR6 -> SVECTOR6) (w result : list SVECTOR6) :
  fill (fun wi _ => g wi) w (resize (length w) SVECTOR6_zero result) = g <$> w.
Proof.
  rewrite fill_zip_with by apply length_resize.
  assert (Hr : length (resize (length w) SVECTOR6_zero result) = length w)
    by apply length_resize.
  revert Hr. generalize (resize (length w) SVECTOR6_zero result).
  induction w as [|wi w IH]; intros [|r0 rs] Hl; simpl in *; try done.
  f_equal. apply IH. lia.
Qed.
End BatchFacts.

(** ** The resolver throws nothing

    [calc_transform] has no [throw]: whatever the frames, it does not end
    in a [FrameException]. *)
Arguments deref : simpl never.

Section NoFrameException.
Context {Sc : Scalar} {Rt : Rotation Sc}.

Lemma deref_no_exception (hp : heap) (p : ptr) : deref hp p <> FrameException.
Proof. unfold deref. destruct p as [a|]; [destruct (hp !! a)|]; discriminate. Qed.

Lemma obind_no_exception {A B : Type} (o : outcome A) (k : A -> outcome B) :
  o <> FrameException -> (forall a, k a <> FrameException) ->
  obind o k <> FrameException.
Proof. destruct o; simpl; intros Ho Hk; auto; discriminate. Qed.

Lemma is_common_loop_no_exception (fuel : nat) (hp : heap) (x p : ptr) (i : Z) :
  is_common_loop fuel hp x p i <> FrameException.
Proof.
  revert x i. induction fuel as [|fuel IH]; intros [a|] i; simpl; try discriminate.
  - destruct (ptr_eqb (Some a) p); discriminate.
  - destruct (ptr_eqb (Some a) p); [discriminate|].
    destruct (hp !! a); [apply IH | discriminate].
Qed.

Lemma compose_to_global_no_exception (fuel : nat) (hp : heap) (s : ptr) (acc : QUAT * ORIGIN3) :
  compose_to_global fuel hp s acc <> FrameException.
Proof.
  revert s acc. induction fuel as [|fuel IH]; intros [a|] acc; simpl; try discriminate.
  apply obind_no_exception; [apply deref_no_exception|].
  intros ps. destruct (rpose ps); [|discriminate].
  apply obind_no_exception; [apply deref_no_exception|]. intros pp. apply IH.
Qed.

Lemma search_common_no_exception (cfg : config) (n fuel : nat) (hp : heap) (source r : ptr) :
  search_common cfg n fuel hp source r <> FrameException.
Proof.
  revert r. induction fuel as [|fuel IH]; intros r; simpl.
  - apply obind_no_exception; [apply is_common_loop_no_exception|].
    intros [[] i]; [discriminate|]. destruct r; [discriminate|].
    unfold assert_fails. destruct (NDEBUG cfg); discriminate.
  - apply obind_no_exception; [apply is_common_loop_no_exception|].
    intros [[] i]; [discriminate|]. destruct r as [a|].
    + apply obind_no_exception; [apply deref_no_exception|]. intros pr. apply IH.
    + unfold assert_fails. destruct (NDEBUG cfg); discriminate.
Qed.

Lemma compose_left_no_exception (hp : heap) (i : nat) (s : ptr) (acc : QUAT * ORIGIN3) :
  compose_left hp i s acc <> FrameException.
Proof.
  revert s acc. induction i as [|i IH]; intros s acc; simpl; [discriminate|].
  apply obind_no_exception; [apply deref_no_exception|]. intros ps.
  apply obind_no_exception; [apply deref_no_exception|]. intros pp. apply IH.
Qed.

Lemma compose_right_no_exception (fuel : nat) (hp : heap) (target r : ptr)
    (acc : QUAT * ORIGIN3) :
  compose_right fuel hp target r acc <> FrameException.
Proof.
  revert target acc. induction fuel as [|fuel IH]; intros target acc; simpl;
    destruct (ptr_eqb target r); try discriminate.
  apply obind_no_exception; [apply deref_no_exception|]. intros pt.
  apply obind_no_exception; [apply deref_no_exception|]. intros pp. apply IH.
Qed.

Lemma calc_transform_no_exception (cfg : config) (fuel : nat) (hp : heap) (source target : ptr) :
  calc_transform cfg fuel hp source target <> FrameException.
Proof.
  unfold calc_transform. destruct (ptr_eqb source target); [discriminate|].
  destruct target as [b|], source as [a|].
  - apply obind_no_exception; [apply deref_no_exception|]. intros ps.
    apply obind_no_exception; [apply deref_no_exception|]. intros pt.
    destruct (ptr_eqb (rpose ps) (rpose pt)); [discriminate|].
    apply obind_no_exception; [apply search_common_no_exception|]. intros [r i].
    apply obind_no_exception; [apply compose_left_no_exception|]. intros [lq lx].
    apply obind_no_exception; [apply compose_right_no_exception|]. intros [rq rx].
    discriminate.
  - apply obind_no_exception; [apply deref_no_exception|]. intros pt.
    apply obind_no_exception; [apply compose_to_global_no_exception|]. intros [rq rx].
    discriminate.
  - apply obind_no_exception; [apply deref_no_exception|]. intros ps.
    apply obind_no_exception; [apply compose_to_global_no_exception|]. intros [rq rx].
    discriminate.
  - apply obind_no_exception; [apply deref_no_exception|]. intros ps.
    apply obind_no_exception; [apply compose_to_global_no_exception|]. intros [rq rx].
    discriminate.
Qed.
End NoFrameException.

(** ** The batch entry points *)

Section Batch.
Context {Sc : Scalar} {Rt : Rotation Sc}.

(** C9: for every source and target frame, whatever the heap holds and
    whatever the resolver would answer, transforming an empty vector of
    wrenches, twists or accelerations succeeds and leaves the result
    vector empty; no frame is compared and the resolver is not run (the
    outcome depends neither on the configuration, nor on the fuel, nor on
    the frames). *)
Theorem empty_batch_succeeds (cfg : config) (fuel : nat) (hp : heap) (source target : ptr)
    (calc_relative_pose : ptr -> ptr -> outcome TRANSFORM3) (result : list SVECTOR6) :
  transform_wrenches cfg fuel hp source target [] result = (Ok tt, [])
  /\ transform_twists cfg fuel hp source target [] result = (Ok tt, [])
  /\ transform_accel calc_relative_pose cfg target [] result = (Ok tt, []).
Proof. repeat split. Qed.

(** C3, amended: with the frame checks compiled in, a batch of wrenches, twists or
    accelerations in which some element is tagged with another frame than
    the source frame ends in a [FrameException], and the result vector
    is what it was before the call.  For accelerations the source frame
    is the tag of the first element. *)
Theorem batch_validates_first (cfg : config) (fuel : nat) (hp : heap) (source target : ptr)
    (calc_relative_pose : ptr -> ptr -> outcome TRANSFORM3) (w result : list SVECTOR6) :
  NEXCEPT cfg = false ->
  Exists (fun e => pose e <> source) w ->
  transform_wrenches cfg fuel hp source target w result = (FrameException, result)
  /\ transform_twists cfg fuel hp source target w result = (FrameException, result)
  /\ (forall t0, pose t0 = source ->
      transform_accel calc_relative_pose cfg target (t0 :: w) result
      = (FrameException, result)).
Proof.
  intros Hcfg Hex. apply frames_differ_Exists in Hex as Hd.
  unfold transform_wrenches, transform_twists, transform_accel.
  rewrite Hcfg. destruct w as [|w0 w]; [inversion Hex|].
  split; [|split].
  - by rewrite Hd.
  - by rewrite Hd.
  - intros t0 Ht0. by rewrite Ht0, Hd.
Qed.

(** A batch that passes the validation and whose transform resolves is
    transformed element by element, whatever the result vector held. *)
Lemma transform_wrenches_ok (cfg : config) (fuel : nat) (hp : heap) (source target : ptr)
    (w result : list SVECTOR6) (Tx : TRANSFORM3) :
  w <> [] -> Forall (fun e => pose e = source) w ->
  calc_transform cfg fuel hp source target = Ok Tx ->
  transform_wrenches cfg fuel hp source target w result
  = (Ok tt, spatial_update (t_x Tx) (q_matrix (t_q Tx)) target <$> w).
Proof.
  intros Hne Hall HTx. apply frames_differ_Forall in Hall.
  unfold transform_wrenches. destruct w as [|w0 w]; [done|].
  rewrite Hall, andb_false_r, HTx. by rewrite fill_resize_map.
Qed.
End Batch.

(** ** The frame guard *)

Section Guard.
Context {Sc : Scalar} {Rt : Rotation Sc}.

Lemma frame_mismatch_true (cfg : config) (source tag : ptr) :
  frame_mismatch cfg source tag = true <-> NEXCEPT cfg = false /\ source <> tag.
Proof.
  unfold frame_mismatch. rewrite andb_true_iff, !negb_true_iff, ptr_eqb_false. done.
Qed.


Lemma mult_exception (cfg : config) (this p : POSE3) :
  mult cfg this p = FrameException <-> NEXCEPT cfg = false /\ rpose this <> rpose p.
Proof.
  unfold mult. rewrite <- frame_mismatch_true. unfold frame_mismatch.
  destruct (negb (NEXCEPT cfg) && negb (ptr_eqb (rpose this) (rpose p))); split;
    done.
Qed.


(** When the tag is the asserted frame the guard lets the call through:
    a static transform never ends in a [FrameException] then. *)
Lemma transform_twist_exception (cfg : config) (fuel : nat) (hp : heap) (source target : ptr)
    (t : SVECTOR6) :
  transform_twist cfg fuel hp source target t = FrameException
  <-> NEXCEPT cfg = false /\ source <> pose t.
Proof.
  unfold transform_twist. rewrite <- frame_mismatch_true.
  destruct (frame_mismatch cfg source (pose t)); [done|]. split; [|done].
  pose proof (calc_transform_no_exception cfg fuel hp source target) as H.
  destruct (calc_transform cfg fuel hp source target); simpl; done.
Qed.
End Guard.

(** ** Poses: composition, interpolation, inversion, inertia *)

(** Whatever the scalar and the rotation type, a pose built by
    [interpolate] or by [operator*] has the constructor's default relative
    pose: the parents of the operands are not read. *)
Lemma interpolate_rpose {Sc : Scalar} {Rt : Rotation Sc} {Sl : Slerp Rt} (T1 T2 : POSE3)
    (t : REAL) :
  rpose (interpolate T1 T2 t) = default_relative_pose.
Proof. reflexivity. Qed.

Lemma mult_rpose {Sc : Scalar} {Rt : Rotation Sc} (cfg : config) (this p r : POSE3) :
  mult cfg this p = Ok r -> rpose r = default_relative_pose.
Proof.
  unfold mult. destruct (_ && _); [discriminate|]. intros H. by simplify_eq.
Qed.

Section PoseFacts.
Context {Sc : Scalar} {L : ScalarLaws Sc} {Rt : Rotation Sc} {RL : RotationLaws Rt}.

Add Ring scalar_ring_pose : (@scalar_ring Sc L).

Lemma o3_neg_involutive (v : ORIGIN3) : o3_neg (o3_neg v) = v.
Proof. destruct v; unfold o3_neg; simpl; f_equal; ring. Qed.

Lemma o3_blend_0 (a b : ORIGIN3) :
  o3_add (o3_scale a (rsub rone rzero)) (o3_scale b rzero) = a.
Proof. destruct a, b; unfold o3_add, o3_scale; simpl; f_equal; ring. Qed.

Lemma o3_blend_1 (a b : ORIGIN3) :
  o3_add (o3_scale a (rsub rone rone)) (o3_scale b rone) = b.
Proof. destruct a, b; unfold o3_add, o3_scale; simpl; f_equal; ring. Qed.

Lemma o3_blend_half (a b : ORIGIN3) (half : REAL) :
  radd half half = rone ->
  o3_add (o3_scale a (rsub rone half)) (o3_scale b half) = o3_scale (o3_add a b) half.
Proof.
  intros Hh. replace (rsub rone half) with half by (rewrite <- Hh; ring).
  destruct a, b; unfold o3_add, o3_scale; simpl; f_equal; ring.
Qed.

(** C5, amended: composing two poses whose rotations are unit
    quaternions ends in a [FrameException] exactly when the frame checks
    are compiled in and the two parent references differ; otherwise it
    returns a new pose with rotation [this.q * other.q], translation
    [this.q * other.x + this.x] and no parent (the null reference), also
    when the operands have one. *)
Theorem mult_spec (cfg : config) (this p : POSE3) :
  q_unit (q this) -> q_unit (q p) ->
  (mult cfg this p = FrameException <-> NEXCEPT cfg = false /\ rpose this <> rpose p)
  /\ (mult cfg this p <> FrameException ->
      mult cfg this p
      = Ok (mkPose3 (q_mul (q this) (q p))
                    (o3_add (q_rotate (q this) (x p)) (x this))
                    None)).
Proof.
  intros H1 H2. split; [apply mult_exception|].
  unfold mult, POSE3_quat, default_relative_pose.
  destruct (negb (NEXCEPT cfg) && negb (ptr_eqb (rpose this) (rpose p))); [done|].
  intros _. by rewrite q_normalize_unit by by apply q_mul_unit.
Qed.

Lemma invert_rpose (p : POSE3) : rpose (invert p) = rpose p.
Proof. reflexivity. Qed.

Lemma invert_invert (p : POSE3) : q_unit (q p) -> invert (invert p) = p.
Proof.
  intros Hu. destruct p as [pq px pr]. unfold invert. simpl in *.
  rewrite q_invert_involutive by done.
  rewrite (q_rotate_neg (q_invert pq) px), o3_neg_involutive, q_rotate_invert by done.
  reflexivity.
Qed.

Lemma assign_id (p : POSE3) : assign p = p.
Proof. by destruct p. Qed.

(** C10, amended: in exact arithmetic, for a pose whose rotation is a
    unit quaternion, inverting twice gives the pose back, rotation,
    translation and parent reference, in place, through the static
    function and through a pointer into the heap; and one inversion
    leaves the parent reference as it is. *)
Theorem invert_twice (p : POSE3) (hp : heap) (a : addr) :
  q_unit (q p) ->
  invert (invert p) = p
  /\ invert_static (invert_static p) = p
  /\ rpose (invert p) = rpose p
  /\ rpose (invert_static p) = rpose p
  /\ (hp !! a = Some p -> invert_at (invert_at hp a) a = hp).
Proof.
  intros Hu. unfold invert_static. rewrite !assign_id.
  repeat split; try by apply invert_invert.
  intros Ha. unfold invert_at. apply map_eq. intros b.
  destruct (decide (a = b)) as [<-|Hne].
  - rewrite !lookup_alter_eq, Ha. simpl. by rewrite invert_invert.
  - by rewrite !lookup_alter_ne.
Qed.
End PoseFacts.

(** ** Interpolation, over the real numbers *)

Section RealInterpolation.
#[local] Existing Instance R_scalar.
#[local] Open Scope R_scope.

(** Unfold the scalar operations to those of [R], and the quaternion
    operations to their entries. *)
Ltac real_entries :=
  cbv [radd rsub rmul ropp rzero rone R_scalar REAL].
Ltac quat_entries :=
  cbv [quat_normalize quat_slerp shortest_arc_midpoint arc_sign quat_add quat_scale quat_neg
       quat_dot quat_norm2 qw qx qy qz radd rsub rmul ropp rzero rone R_scalar REAL] in *.

(** Normalisation leaves a unit quaternion as it is. *)
Lemma quat_normalize_unit (a : quat) : quat_norm2 a = 1 -> quat_normalize a = a.
Proof.
  intros Hu. unfold quat_normalize. rewrite Hu, sqrt_1. destruct a. quat_entries.
  f_equal; real_entries; field.
Qed.

Lemma arc_sign_cases (a b : quat) :
  (0 <= quat_dot a b /\ arc_sign a b = 1) \/ (quat_dot a b < 0 /\ arc_sign a b = -1).
Proof. unfold arc_sign. destruct (Rle_dec 0 (quat_dot a b)); [left|right]; split; lra. Qed.

(** The cosine of the angle of the shorter arc lies between 0 and 1. *)
Lemma arc_cos_range (a b : quat) :
  quat_norm2 a = 1 -> quat_norm2 b = 1 -> 0 <= arc_sign a b * quat_dot a b <= 1.
Proof.
  intros Ha Hb. destruct (arc_sign_cases a b) as [[Hd ->]|[Hd ->]];
    destruct a as [w x y z], b as [w' x' y' z']; quat_entries.
  - split; [lra|].
    pose proof (Rle_0_sqr (w - w')). pose proof (Rle_0_sqr (x - x')).
    pose proof (Rle_0_sqr (y - y')). pose proof (Rle_0_sqr (z - z')).
    unfold Rsqr in *. nra.
  - split; [lra|].
    pose proof (Rle_0_sqr (w + w')). pose proof (Rle_0_sqr (x + x')).
    pose proof (Rle_0_sqr (y + y')). pose proof (Rle_0_sqr (z + z')).
    unfold Rsqr in *. nra.
Qed.

(** Where that cosine is 1, the two ends of the arc coincide. *)
Lemma arc_point (a b : quat) :
  quat_norm2 a = 1 -> quat_norm2 b = 1 -> ~ arc_sign a b * quat_dot a b < 1 ->
  a = quat_scale b (arc_sign a b).
Proof.
  intros Ha Hb Hc. pose proof (arc_cos_range a b Ha Hb) as Hr.
  assert (Hone : arc_sign a b * quat_dot a b = 1) by lra. clear Hc Hr.
  destruct (arc_sign_cases a b) as [[_ Hs]|[_ Hs]]; rewrite Hs in *;
    destruct a as [w x y z], b as [w' x' y' z']; quat_entries.
  - assert (H : (w - w')² + (x - x')² + (y - y')² + (z - z')² = 0)
      by (unfold Rsqr; nra).
    pose proof (Rle_0_sqr (w - w')). pose proof (Rle_0_sqr (x - x')).
    pose proof (Rle_0_sqr (y - y')). pose proof (Rle_0_sqr (z - z')).
    assert (Hw : (w - w')² = 0) by lra. assert (Hx : (x - x')² = 0) by lra.
    assert (Hy : (y - y')² = 0) by lra. assert (Hz : (z - z')² = 0) by lra.
    apply Rsqr_0_uniq in Hw, Hx, Hy, Hz. f_equal; real_entries; lra.
  - assert (H : (w + w')² + (x + x')² + (y + y')² + (z + z')² = 0)
      by (unfold Rsqr; nra).
    pose proof (Rle_0_sqr (w + w')). pose proof (Rle_0_sqr (x + x')).
    pose proof (Rle_0_sqr (y + y')). pose proof (Rle_0_sqr (z + z')).
    assert (Hw : (w + w')² = 0) by lra. assert (Hx : (x + x')² = 0) by lra.
    assert (Hy : (y + y')² = 0) by lra. assert (Hz : (z + z')² = 0) by lra.
    apply Rsqr_0_uniq in Hw, Hx, Hy, Hz. f_equal; real_entries; lra.
Qed.

Lemma sin_arc_pos (c : R) : 0 <= c < 1 -> 0 < sin (acos c).
Proof.
  intros Hc. rewrite sin_acos by lra. apply sqrt_lt_R0. unfold Rsqr. nra.
Qed.

(** The real quaternions satisfy the laws asked of a rotation type. *)
Lemma RealQuat_laws : RotationLaws RealQuat.
Proof.
  destruct (@Hamilton_laws R_scalar R_scalar_laws).
  constructor; try assumption. exact quat_normalize_unit.
Qed.

(** The interpolation starts at [a] and ends at [b] or at [-b], whichever
    is on the side of [a]; half way it is the midpoint of the shorter
    arc. *)
Lemma quat_slerp_0 (a b : quat) :
  quat_norm2 a = 1 -> quat_norm2 b = 1 -> quat_slerp a b 0 = a.
Proof.
  intros Ha Hb. pose proof (arc_cos_range a b Ha Hb) as Hr. unfold quat_slerp.
  destruct (Rlt_dec (arc_sign a b * quat_dot a b) 1) as [Hlt|Hge]; [|done].
  pose proof (sin_arc_pos _ (conj (proj1 Hr) Hlt)) as Hs.
  remember (acos (arc_sign a b * quat_dot a b)) as theta eqn:E. clear E.
  remember (arc_sign a b) as s eqn:E. clear E.
  replace ((1 - 0) * theta) with theta by ring. rewrite Rmult_0_l, sin_0.
  destruct a as [w x y z], b as [w' x' y' z']. quat_entries.
  f_equal; real_entries; field; lra.
Qed.

Lemma quat_slerp_1 (a b : quat) :
  quat_norm2 a = 1 -> quat_norm2 b = 1 -> quat_slerp a b 1 = quat_scale b (arc_sign a b).
Proof.
  intros Ha Hb. pose proof (arc_cos_range a b Ha Hb) as Hr. unfold quat_slerp.
  destruct (Rlt_dec (arc_sign a b * quat_dot a b) 1) as [Hlt|Hge]; [|by apply arc_point].
  pose proof (sin_arc_pos _ (conj (proj1 Hr) Hlt)) as Hs.
  remember (acos (arc_sign a b * quat_dot a b)) as theta eqn:E. clear E.
  remember (arc_sign a b) as s eqn:E. clear E.
  replace ((1 - 1) * theta) with 0 by ring. rewrite Rmult_1_l, sin_0.
  destruct a as [w x y z], b as [w' x' y' z']. quat_entries.
  f_equal; real_entries; field; lra.
Qed.


Lemma arc_sign_square (a b : quat) : arc_sign a b * arc_sign a b = 1.
Proof. destruct (arc_sign_cases a b) as [[_ ->]|[_ ->]]; ring. Qed.

Lemma arc_sum_norm2 (a b : quat) :
  quat_norm2 a = 1 -> quat_norm2 b = 1 ->
  quat_norm2 (quat_add a (quat_scale b (arc_sign a b)))
  = 2 + 2 * (arc_sign a b * quat_dot a b).
Proof.
  intros Ha Hb. pose proof (arc_sign_square a b) as Hs.
  remember (arc_sign a b) as s eqn:E. clear E.
  destruct a as [w x y z], b as [w' x' y' z']. quat_entries. nra.
Qed.

(** The midpoint is a unit quaternion. *)
Lemma shortest_arc_midpoint_unit (a b : quat) :
  quat_norm2 a = 1 -> quat_norm2 b = 1 -> quat_norm2 (shortest_arc_midpoint a b) = 1.
Proof.
  intros Ha Hb. pose proof (arc_cos_range a b Ha Hb) as Hr.
  pose proof (arc_sum_norm2 a b Ha Hb) as Hn. unfold shortest_arc_midpoint, quat_normalize.
  remember (arc_sign a b * quat_dot a b) as c eqn:E. clear E.
  remember (quat_add a (quat_scale b (arc_sign a b))) as m eqn:E. clear E Ha Hb.
  assert (Hpos : 0 < quat_norm2 m) by lra.
  pose proof (sqrt_lt_R0 _ Hpos) as Hsq. pose proof (sqrt_sqrt (quat_norm2 m)) as Hss.
  remember (sqrt (quat_norm2 m)) as k eqn:E. clear E.
  destruct m as [w x y z]. quat_entries.
  transitivity ((w * w + x * x + y * y + z * z) * / (k * k)); [field; lra|].
  rewrite Hss by lra. field. lra.
Qed.

(** The midpoint is as far from one end of the arc as from the other. *)
Lemma shortest_arc_midpoint_equidistant (a b : quat) :
  quat_norm2 a = 1 -> quat_norm2 b = 1 ->
  quat_dot (shortest_arc_midpoint a b) a
  = quat_dot (shortest_arc_midpoint a b) (quat_scale b (arc_sign a b)).
Proof.
  intros Ha Hb. pose proof (arc_sign_square a b) as Hs.
  unfold shortest_arc_midpoint, quat_normalize.
  remember (/ sqrt (quat_norm2 (quat_add a (quat_scale b (arc_sign a b))))) as k eqn:E.
  clear E. remember (arc_sign a b) as s eqn:E. clear E.
  destruct a as [w x y z], b as [w' x' y' z']. quat_entries.
  transitivity (k * ((w * w + x * x + y * y + z * z)
                     + s * (w * w' + x * x' + y * y' + z * z'))); [ring|].
  transitivity (k * (s * s * (w' * w' + x' * x' + y' * y' + z' * z')
                     + s * (w * w' + x * x' + y * y' + z * z'))); [|ring].
  rewrite Ha, Hb, Hs. ring.
Qed.

Lemma quat_slerp_half (a b : quat) :
  quat_norm2 a = 1 -> quat_norm2 b = 1 ->
  quat_slerp a b (1 / 2) = shortest_arc_midpoint a b.
Proof.
  intros Ha Hb. pose proof (arc_cos_range a b Ha Hb) as Hr.
  pose proof (arc_sum_norm2 a b Ha Hb) as Hn.
  unfold quat_slerp, shortest_arc_midpoint, quat_normalize. rewrite Hn.
  destruct (Rlt_dec (arc_sign a b * quat_dot a b) 1) as [Hlt|Hge].
  - pose proof (sin_arc_pos _ (conj (proj1 Hr) Hlt)) as Hsin.
    pose proof (cos_acos (arc_sign a b * quat_dot a b) ltac:(lra)) as Hcos.
    pose proof (acos_bound (arc_sign a b * quat_dot a b)) as Hb'.
    remember (acos (arc_sign a b * quat_dot a b)) as theta eqn:E. clear E.
    set (h := theta / 2). assert (Htheta : theta = 2 * h) by (unfold h; field).
    clearbody h. subst theta.
    replace ((1 - 1 / 2) * (2 * h)) with h by field.
    replace (1 / 2 * (2 * h)) with h by field.
    rewrite sin_2a in Hsin |- *. rewrite cos_2a_cos in Hcos.
    assert (Hch : 0 <= cos h).
    { pose proof PI_RGT_0. apply cos_ge_0; lra. }
    remember (sin h) as sh eqn:E. clear E.
    remember (cos h) as ch eqn:E. clear E.
    assert (Hch' : 0 < ch) by nra. assert (Hsh : sh <> 0) by nra.
    rewrite <- Hcos.
    replace (2 + 2 * (2 * ch * ch - 1)) with ((2 * ch) * (2 * ch)) by ring.
    rewrite sqrt_square by lra.
    remember (arc_sign a b) as s eqn:E. clear E.
    destruct a as [w x y z], b as [w' x' y' z']. quat_entries.
    f_equal; real_entries; field; lra.
  - assert (Hone : arc_sign a b * quat_dot a b = 1) by lra.
    pose proof (arc_point a b Ha Hb Hge) as Hab. rewrite Hone.
    replace (2 + 2 * 1) with (2 * 2) by ring. rewrite sqrt_square by lra.
    rewrite <- Hab. destruct a as [w x y z]. quat_entries.
    f_equal; real_entries; field.
Qed.

Lemma quat_scale_1 (b : quat) : quat_scale b 1 = b.
Proof. destruct b. quat_entries. f_equal; real_entries; ring. Qed.

Lemma quat_scale_opp_1 (b : quat) : quat_scale b (-1) = quat_neg b.
Proof. destruct b. quat_entries. f_equal; real_entries; ring. Qed.

Lemma quat_scale_unit (b : quat) (s : R) :
  s * s = 1 -> quat_norm2 b = 1 -> quat_norm2 (quat_scale b s) = 1.
Proof.
  intros Hs Hb. destruct b as [w x y z]. quat_entries.
  transitivity (s * s * (w * w + x * x + y * y + z * z)); [ring|]. rewrite Hs, Hb. ring.
Qed.

(** [POSE3::interpolate] at the two ends and half way. *)
Lemma interpolate_start (T1 T2 : @POSE3 R_scalar RealQuat) :
  q_unit (q T1) -> q_unit (q T2) ->
  @interpolate R_scalar RealQuat RealSlerp T1 T2 0 = mkPose3 (q T1) (x T1) None.
Proof.
  intros H1 H2. unfold interpolate, POSE3_quat, default_relative_pose.
  rewrite (@o3_blend_0 R_scalar R_scalar_laws). simpl.
  by rewrite quat_slerp_0, quat_normalize_unit.
Qed.

Lemma interpolate_end (T1 T2 : @POSE3 R_scalar RealQuat) :
  q_unit (q T1) -> q_unit (q T2) ->
  @interpolate R_scalar RealQuat RealSlerp T1 T2 1
  = mkPose3 (quat_scale (q T2) (arc_sign (q T1) (q T2)) : @QUAT _ RealQuat) (x T2) None.
Proof.
  intros H1 H2. unfold interpolate, POSE3_quat, default_relative_pose.
  rewrite (@o3_blend_1 R_scalar R_scalar_laws). simpl.
  rewrite quat_slerp_1 by done.
  by rewrite quat_normalize_unit by (apply quat_scale_unit; [apply arc_sign_square|done]).
Qed.

Lemma interpolate_half (T1 T2 : @POSE3 R_scalar RealQuat) :
  q_unit (q T1) -> q_unit (q T2) ->
  @interpolate R_scalar RealQuat RealSlerp T1 T2 (1 / 2)
  = mkPose3 (shortest_arc_midpoint (q T1) (q T2) : @QUAT _ RealQuat)
            (o3_scale (o3_add (x T1) (x T2)) (1 / 2)) None.
Proof.
  intros H1 H2. unfold interpolate, POSE3_quat, default_relative_pose.
  rewrite (@o3_blend_half R_scalar R_scalar_laws) by (simpl; field). simpl.
  rewrite quat_slerp_half by done.
  by rewrite quat_normalize_unit by by apply shortest_arc_midpoint_unit.
Qed.

(** C7, amended: for poses whose rotations are unit quaternions, in
    exact real arithmetic and with the interpolation of rotations along
    the shorter arc, [interpolate] at t=0 returns the rotation and the
    translation of the first pose; at t=1 the translation of the second
    pose and its rotation (its quaternion when the dot product of the two
    quaternions is not negative, the negated quaternion, which is the
    same rotation, when it is); at t=1/2 the componentwise midpoint of
    the translations and the shortest-arc rotation midpoint.  In every
    case the parent reference of the result is null, whatever parent the
    two poses have. *)
Theorem interpolate_spec (T1 T2 : @POSE3 R_scalar RealQuat) :
  q_unit (q T1) -> q_unit (q T2) ->
  @interpolate R_scalar RealQuat RealSlerp T1 T2 0 = mkPose3 (q T1) (x T1) None
  /\ (0 <= quat_dot (q T1) (q T2) ->
      @interpolate R_scalar RealQuat RealSlerp T1 T2 1 = mkPose3 (q T2) (x T2) None)
  /\ (quat_dot (q T1) (q T2) < 0 ->
      @interpolate R_scalar RealQuat RealSlerp T1 T2 1 = mkPose3 (quat_neg (q T2) : @QUAT _ RealQuat) (x T2) None)
  /\ @interpolate R_scalar RealQuat RealSlerp T1 T2 (1 / 2)
     = mkPose3 (shortest_arc_midpoint (q T1) (q T2) : @QUAT _ RealQuat)
               (o3_scale (o3_add (x T1) (x T2)) (1 / 2)) None.
Proof.
  intros H1 H2. split; [by apply interpolate_start|].
  split; [|split; [|by apply interpolate_half]]; intros Hd;
    rewrite interpolate_end by done; unfold arc_sign;
    destruct (Rle_dec 0 (quat_dot (q T1) (q T2))); try lra.
  - by rewrite quat_scale_1.
  - by rewrite quat_scale_opp_1.
Qed.
End RealInterpolation.

Section Inertia.
Context {Sc : Scalar} {Rt : Rotation Sc}.

Lemma rb_inertia_update_m (r : ORIGIN3) (E : MATRIX3) (Ji : SPATIAL_RB_INERTIA) (np : ptr) :
  m (rb_inertia_update r E Ji np) = m Ji.
Proof. reflexivity. Qed.

(** C8: transforming a rigid-body spatial inertia, through the member
    function or through the static entry point, never changes the mass:
    every result has the mass of the input; and a result is returned
    whenever the inertia is tagged with the source frame and (for the
    static entry point) the transform to the target resolves. *)
Theorem rb_inertia_mass_preserved (cfg : config) (fuel : nat) (hp : heap)
    (self source target : ptr) (this : POSE3) (Ji : SPATIAL_RB_INERTIA) :
  (forall Jx, transform_rb_inertia_member cfg self this Ji = Ok Jx -> m Jx = m Ji)
  /\ (forall Jx, transform_rb_inertia cfg fuel hp source target Ji = Ok Jx -> m Jx = m Ji)
  /\ (inertia_pose Ji = self ->
      exists Jx, transform_rb_inertia_member cfg self this Ji = Ok Jx
                 /\ m Jx = m Ji /\ inertia_pose Jx = rpose this)
  /\ (inertia_pose Ji = source ->
      forall Tx, calc_transform cfg fuel hp source target = Ok Tx ->
      exists Jx, transform_rb_inertia cfg fuel hp source target Ji = Ok Jx
                 /\ m Jx = m Ji /\ inertia_pose Jx = target).
Proof.
  unfold transform_rb_inertia_member, transform_rb_inertia, frame_mismatch.
  split; [|split; [|split]].
  - intros Jx. destruct (_ && _); [discriminate|]. simpl. by intros [= <-].
  - intros Jx. destruct (_ && _); [discriminate|].
    destruct (calc_transform cfg fuel hp source target); simpl; try discriminate.
    by intros [= <-].
  - intros ->. rewrite ptr_eqb_refl, andb_false_r. simpl. eauto.
  - intros -> Tx ->. rewrite ptr_eqb_refl, andb_false_r. simpl. eauto.
Qed.
End Inertia.

(** ** The resolver *)

Section ResolverFacts.
Context {Sc : Scalar} {Rt : Rotation Sc}.

Lemma chain_deref (hp : heap) (a : addr) (l : list addr) :
  chain hp (Some a) l -> exists p l', hp !! a = Some p /\ l = a :: l' /\ chain hp (rpose p) l'.
Proof. intros H. inversion H; subst. eauto. Qed.

Lemma chain_unique (hp : heap) (p : ptr) (l1 l2 : list addr) :
  chain hp p l1 -> chain hp p l2 -> l1 = l2.
Proof.
  intros H1. revert l2. induction H1 as [|a pa l Ha _ IH]; intros l2 H2.
  - by inversion H2.
  - inversion H2 as [|a' pa' l' Ha' Hc']; subst.
    rewrite Ha in Ha'. injection Ha' as <-. f_equal. by apply IH.
Qed.

(** [ancestors] computes the chain, given fuel for its length. *)
Lemma ancestors_chain (fuel : nat) (hp : heap) (p : ptr) (l : list addr) :
  ancestors fuel hp p = Some l -> chain hp p l.
Proof.
  revert p l. induction fuel as [|fuel IH]; intros [a|] l; simpl; intros H;
    try discriminate H.
  - simplify_eq. constructor.
  - destruct (hp !! a) as [pa|] eqn:Ha; [|discriminate].
    destruct (ancestors fuel hp (rpose pa)) as [l'|] eqn:Hl; [|discriminate].
    simplify_eq. econstructor; eauto.
  - simplify_eq. constructor.
Qed.

(** The scan of [x]'s chain for a frame that is not on it walks the whole
    chain and answers no. *)
Lemma is_common_loop_absent (fuel : nat) (hp : heap) (x p : ptr) (l : list addr) (i : Z) :
  chain hp x l -> (forall a, a ∈ l -> Some a <> p) -> length l <= fuel ->
  exists i', is_common_loop fuel hp x p i = Ok (false, i').
Proof.
  intros Hc. revert fuel i. induction Hc as [|a pa l Ha _ IH]; intros fuel i Hp Hlen.
  - destruct fuel; simpl; eauto.
  - destruct fuel as [|fuel]; simpl in Hlen; [lia|]. simpl.
    assert (E : ptr_eqb (Some a) p = false).
    { apply ptr_eqb_false, Hp. set_solver. }
    rewrite E, Ha. apply IH; [|lia]. intros c Hin. apply Hp. set_solver.
Qed.

(** When the two chains share no frame, the search climbs [r]'s chain to
    its end and stops at [assert(r)]. *)
Lemma search_common_disjoint (cfg : config) (n fuel : nat) (hp : heap) (source r : ptr)
    (ls lr : list addr) :
  chain hp r lr -> chain hp source ls ->
  (forall c, c ∈ ls -> c ∉ lr) ->
  length ls <= n -> length lr <= fuel ->
  search_common cfg n fuel hp source r = assert_fails cfg.
Proof.
  intros Hr. revert fuel. induction Hr as [|b pb lr Hb Hr IH]; intros fuel Hs Hdis Hn Hf.
  - destruct (is_common_loop_absent n hp source None ls 0 Hs) as [i' Hi]; [done|done|].
    destruct fuel; simpl; unfold is_common; rewrite Hi; reflexivity.
  - destruct (is_common_loop_absent n hp source (Some b) ls 0 Hs) as [i' Hi]; [|done|].
    { intros a Ha [= ->]. apply (Hdis b Ha). set_solver. }
    destruct fuel as [|fuel]; simpl in Hf; [lia|].
    simpl. unfold is_common. rewrite Hi. simpl. unfold deref. rewrite Hb. simpl.
    apply IH; [done| |done|lia]. intros c Hc Hin. apply (Hdis c Hc). set_solver.
Qed.

(** C1: what [calc_transform] does on two frames whose ancestor chains
    are finite and share no frame.  It terminates (fuel for the longer
    chain is enough).  Two parentless frames go through the same-parent
    branch, which takes the global frame as their common parent, and the
    transform is returned.  In every other case the search for the common
    link runs off the end of the target's chain: no error is thrown, the
    call stops at the failed [assert(r)] or, with assertions compiled out,
    at the dereference of the null pointer in [r->rpose]. *)
Theorem calc_transform_disjoint (cfg : config) (fuel : nat) (hp : heap) (a b : addr)
    (pa pb : POSE3) (la lb : list addr) :
  hp !! a = Some pa -> hp !! b = Some pb ->
  chain hp (Some a) la -> chain hp (Some b) lb ->
  (forall c, c ∈ la -> c ∉ lb) ->
  length la <= fuel -> length lb <= fuel ->
  calc_transform cfg fuel hp (Some a) (Some b)
  = match rpose pa, rpose pb with
    | None, None =>
        let rq := q_mul (q_invert (q pb)) (q pa) in
        Ok (mkTransform3 (Some a) (Some b) rq (q_rotate rq (o3_sub (x pa) (x pb))))
    | _, _ => if NDEBUG cfg then InvalidDereference else AssertionFailure
    end.
Proof.
  intros Ha Hb Hca Hcb Hdis Hla Hlb.
  destruct (chain_deref _ _ _ Hca) as (pa' & la' & Ha' & -> & Hca').
  destruct (chain_deref _ _ _ Hcb) as (pb' & lb' & Hb' & -> & Hcb').
  rewrite Ha in Ha'. injection Ha' as <-. rewrite Hb in Hb'. injection Hb' as <-.
  assert (Hab : a <> b).
  { intros ->. apply (Hdis b); set_solver. }
  unfold calc_transform.
  assert (E : ptr_eqb (Some a) (Some b) = false) by (apply ptr_eqb_false; congruence).
  rewrite E. unfold deref. rewrite Ha, Hb. simpl.
  destruct (ptr_eqb (rpose pa) (rpose pb)) eqn:Ep.
  - apply ptr_eqb_true in Ep. destruct (rpose pa) as [c|] eqn:Epa.
    + exfalso. rewrite <- Ep in Hcb'.
      inversion Hca' as [|c1 pc l1 Hc1 Hl1]; subst.
      inversion Hcb' as [|c2 pc2 l2 Hc2 Hl2]; subst.
      apply (Hdis c); set_solver.
    + by rewrite <- Ep.
  - rewrite (search_common_disjoint cfg fuel fuel hp (Some a) (Some b) (a :: la') (b :: lb'))
      by (done || econstructor; eauto).
    unfold assert_fails.
    apply ptr_eqb_false in Ep.
    destruct (rpose pa), (rpose pb), (NDEBUG cfg); simpl; done.
Qed.
(** *** Termination on every finite chain

    With the parent relation free of cycles, [calc_transform] comes to an
    end for every pair of frames: it returns a transform or stops at
    [assert(r)]. *)

Lemma wrap_unsigned_bounds (z : Z) : (0 <= z)%Z -> (0 <= wrap_unsigned z <= z)%Z.
Proof.
  intros Hz. unfold wrap_unsigned, UINT_MAX. split.
  - apply Z.mod_pos_bound. lia.
  - apply Z.mod_le; lia.
Qed.

Lemma is_common_loop_total (fuel : nat) (hp : heap) (x p : ptr) (l : list addr) (i : Z) :
  chain hp x l -> length l <= fuel -> (0 <= i)%Z ->
  exists found i',
    is_common_loop fuel hp x p i = Ok (found, i')
    /\ (found = true -> Z.to_nat i' < Z.to_nat i + length l).
Proof.
  intros Hc. revert fuel i. induction Hc as [|a pa l Ha _ IH]; intros fuel i Hlen Hi.
  - exists false, i. destruct fuel; simpl; split; done.
  - simpl in Hlen. destruct (ptr_eqb (Some a) p) eqn:E.
    + exists true, i. destruct fuel; simpl; rewrite E; split; try done; intros _; lia.
    + destruct fuel as [|fuel]; [lia|]. simpl. rewrite E, Ha.
      pose proof (wrap_unsigned_bounds (i + 1)) as Hw.
      destruct (IH fuel (wrap_unsigned (i + 1))) as (found & i' & Hr & Hb); [lia|lia|].
      exists found, i'. split; [done|]. intros Hf. specialize (Hb Hf). lia.
Qed.

Lemma search_common_total (cfg : config) (n fuel : nat) (hp : heap) (source r : ptr)
    (ls lr : list addr) :
  chain hp r lr -> chain hp source ls -> length ls <= n -> length lr <= fuel ->
  search_common cfg n fuel hp source r = assert_fails cfg
  \/ exists c i, search_common cfg n fuel hp source r = Ok (Some c, i)
                 /\ c ∈ lr /\ Z.to_nat i < length ls.
Proof.
  intros Hr. revert fuel. induction Hr as [|b pb lr Hb Hr IH]; intros fuel Hs Hn Hf.
  - left. destruct (is_common_loop_absent n hp source None ls 0 Hs) as [i' Hi]; [done|done|].
    destruct fuel; simpl; unfold is_common; rewrite Hi; reflexivity.
  - destruct (is_common_loop_total n hp source (Some b) ls 0 Hs) as (found & i & Hi & Hbound);
      [done|done|].
    simpl in Hf. destruct found.
    + right. exists b, i. specialize (Hbound eq_refl).
      split; [|split; [set_solver|simpl in Hbound; lia]].
      destruct fuel; simpl; unfold is_common; rewrite Hi; reflexivity.
    + destruct fuel as [|fuel]; [lia|].
      assert (Hstep : search_common cfg n (S fuel) hp source (Some b)
                      = search_common cfg n fuel hp source (rpose pb)).
      { simpl. unfold is_common. rewrite Hi. simpl. unfold deref. by rewrite Hb. }
      rewrite Hstep. destruct (IH fuel) as [Hfail|(c & j & Hok & Hin & Hj)]; [done|done|lia| |].
      * by left.
      * right. exists c, j. split; [done|]. split; [set_solver|done].
Qed.

Lemma compose_to_global_total (fuel : nat) (hp : heap) (s : ptr) (l : list addr)
    (acc : QUAT * ORIGIN3) :
  chain hp s l -> length l <= fuel -> exists r, compose_to_global fuel hp s acc = Ok r.
Proof.
  intros Hc. revert fuel acc. induction Hc as [|a pa l Ha Hc IH]; intros fuel acc Hlen.
  - destruct fuel; simpl; eauto.
  - simpl in Hlen. destruct fuel as [|fuel]; [lia|].
    simpl. unfold deref at 1. rewrite Ha. simpl.
    destruct (rpose pa) as [b|] eqn:Eb; [|eauto].
    destruct (chain_deref _ _ _ Hc) as (pb & l' & Hb & -> & _).
    unfold deref. rewrite Hb. simpl. apply IH. lia.
Qed.

Lemma compose_left_total (hp : heap) (i : nat) (s : ptr) (l : list addr)
    (acc : QUAT * ORIGIN3) :
  chain hp s l -> i < length l -> exists r, compose_left hp i s acc = Ok r.
Proof.
  revert s l acc. induction i as [|i IH]; intros s l acc Hc Hi; simpl; [eauto|].
  destruct Hc as [|a pa l Ha Hc]; simpl in Hi; [lia|].
  unfold deref at 1. rewrite Ha. simpl.
  destruct Hc as [|b pb l Hb Hc]; simpl in Hi; [lia|].
  unfold deref. rewrite Hb. simpl. apply (IH (Some b) (b :: l)); [|simpl; lia].
  econstructor; eauto.
Qed.

Lemma compose_right_total (fuel : nat) (hp : heap) (target : ptr) (c : addr) (l : list addr)
    (acc : QUAT * ORIGIN3) :
  chain hp target l -> c ∈ l -> length l <= fuel ->
  exists r, compose_right fuel hp target (Some c) acc = Ok r.
Proof.
  intros Hc. revert fuel acc. induction Hc as [|a pa l Ha Hc IH]; intros fuel acc Hin Hlen.
  - by apply elem_of_nil in Hin.
  - simpl in Hlen. destruct (ptr_eqb (Some a) (Some c)) eqn:E.
    + destruct fuel; simpl; rewrite E; eauto.
    + destruct fuel as [|fuel]; [lia|]. simpl. rewrite E.
      unfold deref at 1. rewrite Ha. simpl.
      apply ptr_eqb_false in E.
      assert (Hin' : c ∈ l) by (apply elem_of_cons in Hin as [->|]; [congruence|done]).
      destruct Hc as [|b pb l Hb Hc]; [by apply elem_of_nil in Hin'|].
      unfold deref. rewrite Hb. simpl.
      apply IH; [done|simpl in *; lia].
Qed.

Theorem calc_transform_total (cfg : config) (fuel : nat) (hp : heap) (source target : ptr)
    (ls lt : list addr) :
  chain hp source ls -> chain hp target lt ->
  length ls <= fuel -> length lt <= fuel ->
  (exists Tx, calc_transform cfg fuel hp source target = Ok Tx
              /\ t_source Tx = source /\ t_target Tx = target)
  \/ calc_transform cfg fuel hp source target
     = if NDEBUG cfg then InvalidDereference else AssertionFailure.
Proof.
  intros Hs Ht Hls Hlt. unfold calc_transform.
  destruct (ptr_eqb source target) eqn:Est; [left; eauto|].
  destruct target as [b|], source as [a|].
  - destruct (chain_deref _ _ _ Hs) as (pa & ls' & Ha & -> & Hs').
    destruct (chain_deref _ _ _ Ht) as (pb & lt' & Hb & -> & Ht').
    unfold deref. rewrite Ha, Hb. simpl.
    destruct (ptr_eqb (rpose pa) (rpose pb)); [left; eauto|].
    destruct (search_common_total cfg fuel fuel hp (Some a) (Some b) (a :: ls') (b :: lt'))
      as [Hfail|(c & i & Hok & Hin & Hi)]; [done|done|done|done| |].
    + right. rewrite Hfail. unfold assert_fails. by destruct (NDEBUG cfg).
    + left. rewrite Hok. simpl.
      destruct (compose_left_total hp (Z.to_nat i) (Some a) (a :: ls') (q pa, x pa))
        as [[lq lx] Hl]; [done|done|].
      rewrite Hl. simpl.
      destruct (compose_right_total fuel hp (Some b) c (b :: lt') (q pb, x pb))
        as [[rq rx] Hr]; [done|done|done|].
      rewrite Hr. simpl. eauto.
  - destruct (chain_deref _ _ _ Ht) as (pb & lt' & Hb & -> & Ht').
    unfold deref. rewrite Hb. simpl.
    destruct (compose_to_global_total fuel hp (Some b) (b :: lt') (q pb, x pb))
      as [[rq rx] Hr]; [done|done|].
    rewrite Hr. simpl. left. eauto.
  - destruct (chain_deref _ _ _ Hs) as (pa & ls' & Ha & -> & Hs').
    unfold deref. rewrite Ha. simpl.
    destruct (compose_to_global_total fuel hp (Some a) (a :: ls') (q pa, x pa))
      as [[rq rx] Hr]; [done|done|].
    rewrite Hr. simpl. left. eauto.
  - by rewrite ptr_eqb_refl in Est.
Qed.
End ResolverFacts.

Section Scenario.
Context {Sc : Scalar} {L : ScalarLaws Sc} {Rt : Rotation Sc} {RL : RotationLaws Rt}.

Add Ring scalar_ring_scenario : (@scalar_ring Sc L).

(** C4: with frame A = (identity, (1,0,0)) and frame B = (identity,
    (0,1,0)), both without parent, the transform resolved from A to B
    has the identity rotation and the translation (1,-1,0), and
    applying it to the point (0,0,0) tagged A gives the point (1,-1,0)
    tagged B. *)
Theorem sibling_scenario (cfg : config) (fuel : nat) (hp : heap) (a b : addr) :
  a <> b ->
  hp !! a = Some (POSE3_origin (mkOrigin3 rone rzero rzero) None) ->
  hp !! b = Some (POSE3_origin (mkOrigin3 rzero rone rzero) None) ->
  calc_transform cfg fuel hp (Some a) (Some b)
  = Ok (mkTransform3 (Some a) (Some b) q_identity (mkOrigin3 rone (ropp rone) rzero))
  /\ transform_point cfg fuel hp (Some a) (Some b) (mkPoint3 o3_zero (Some a))
     = Ok (mkPoint3 (mkOrigin3 rone (ropp rone) rzero) (Some b)).
Proof.
  intros Hab Ha Hb.
  assert (HT : calc_transform cfg fuel hp (Some a) (Some b)
               = Ok (mkTransform3 (Some a) (Some b) q_identity
                       (mkOrigin3 rone (ropp rone) rzero))).
  { unfold calc_transform.
    assert (E : ptr_eqb (Some a) (Some b) = false) by (apply ptr_eqb_false; congruence).
    rewrite E. unfold deref. rewrite Ha, Hb. simpl.
    rewrite q_invert_identity, q_mul_identity_l, q_rotate_identity.
    unfold o3_sub. simpl. do 2 f_equal. f_equal; ring. }
  split; [done|].
  unfold transform_point, frame_mismatch. simpl. rewrite ptr_eqb_refl, andb_false_r, HT.
  simpl. unfold Transform3_transform_point. simpl. rewrite q_rotate_identity.
  unfold o3_add, o3_zero. simpl. do 2 f_equal. f_equal; ring.
Qed.
End Scenario.

(** ** Round trips through the global frame

    Where the resolver composes along one chain only, a twist taken to
    the other frame and back is the twist it was. *)

Section RoundTrip.
Context {Sc : Scalar} {L : ScalarLaws Sc} {Rt : Rotation Sc} {RL : RotationLaws Rt}.

Add Ring scalar_ring_round_trip : (@scalar_ring Sc L).

Lemma q_rotate_invert_l (q0 : QUAT) (v : ORIGIN3) :
  q_unit q0 -> q_rotate (q_invert q0) (q_rotate q0 v) = v.
Proof.
  intros Hu. rewrite <- (q_invert_involutive q0 Hu) at 2.
  apply q_rotate_invert. by apply q_invert_unit.
Qed.

Lemma cross_neg_l (a b : ORIGIN3) : cross (o3_neg a) b = o3_neg (cross a b).
Proof. destruct a, b; unfold cross, o3_neg; simpl; f_equal; ring. Qed.

Lemma o3_sub_sub_neg (v c : ORIGIN3) : o3_sub (o3_sub v c) (o3_neg c) = v.
Proof. destruct v, c; unfold o3_sub, o3_neg; simpl; f_equal; ring. Qed.

Lemma o3_sub_neg_sub (v c : ORIGIN3) : o3_sub (o3_sub v (o3_neg c)) c = v.
Proof. destruct v, c; unfold o3_sub, o3_neg; simpl; f_equal; ring. Qed.

(** Forward with (Q, X), back with the inverse pair. *)
Lemma spatial_update_there_and_back (Q : QUAT) (X : ORIGIN3) (mid back : ptr) (t : SVECTOR6) :
  q_unit Q ->
  spatial_update (q_rotate (q_invert Q) (o3_neg X)) (q_matrix (q_invert Q)) back
    (spatial_update X (q_matrix Q) mid t)
  = mkSVector6 (upper t) (lower t) back.
Proof.
  intros Hu. unfold spatial_update. simpl. rewrite !q_matrix_rotate.
  rewrite q_rotate_invert_l by done. f_equal.
  rewrite q_rotate_sub, q_rotate_cross by by apply q_invert_unit.
  rewrite !q_rotate_invert_l by done.
  rewrite q_rotate_neg, cross_neg_l. apply o3_sub_sub_neg.
Qed.

(** Forward with the inverse pair, back with (Q, X). *)
Lemma spatial_update_back_and_there (Q : QUAT) (X : ORIGIN3) (mid back : ptr) (t : SVECTOR6) :
  q_unit Q ->
  spatial_update X (q_matrix Q) back
    (spatial_update (q_rotate (q_invert Q) (o3_neg X)) (q_matrix (q_invert Q)) mid t)
  = mkSVector6 (upper t) (lower t) back.
Proof.
  intros Hu. unfold spatial_update. simpl. rewrite !q_matrix_rotate.
  rewrite q_rotate_invert by done. f_equal.
  rewrite q_rotate_sub, q_rotate_cross by done.
  rewrite !q_rotate_invert by done.
  rewrite cross_neg_l. apply o3_sub_neg_sub.
Qed.

Lemma compose_to_global_unit (fuel : nat) (hp : heap) (s : ptr) (acc r : QUAT * ORIGIN3) :
  unit_frames hp -> q_unit (fst acc) ->
  compose_to_global fuel hp s acc = Ok r -> q_unit (fst r).
Proof.
  intros Hhp. revert s acc. induction fuel as [|fuel IH]; intros [a|] acc Hacc; simpl;
    intros H; try discriminate H; try (by simplify_eq).
  unfold deref in H. destruct (hp !! a) as [pa|]; [|discriminate]. simpl in H.
  destruct (rpose pa) as [b|]; [|by simplify_eq].
  destruct (hp !! b) as [pb|] eqn:Hb; [|discriminate]. simpl in H.
  apply IH in H; [done|]. simpl. apply q_mul_unit; [|done]. by apply (Hhp b).
Qed.

(** The round trip of C2 between a frame and the global frame, in both
    directions: the twist comes back as it was, tagged as it was. *)
Theorem round_trip_through_global (cfg : config) (fuel : nat) (hp : heap) (a : addr)
    (la : list addr) (t : SVECTOR6) :
  unit_frames hp -> chain hp (Some a) la -> length la <= fuel ->
  (pose t = Some a ->
   (let* t1 := transform_twist cfg fuel hp (Some a) None t in
    transform_twist cfg fuel hp None (Some a) t1) = Ok t)
  /\ (pose t = None ->
      (let* t1 := transform_twist cfg fuel hp None (Some a) t in
       transform_twist cfg fuel hp (Some a) None t1) = Ok t).
Proof.
  intros Hhp Hc Hlen.
  destruct (chain_deref _ _ _ Hc) as (pa & la' & Ha & -> & Hc').
  destruct (compose_to_global_total fuel hp (Some a) (a :: la') (q pa, x pa))
    as [[Q X] HQ]; [done|done|].
  assert (HuQ : q_unit Q).
  { apply (compose_to_global_unit fuel hp (Some a) (q pa, x pa) (Q, X)); [done| |done].
    by apply (Hhp a). }
  assert (Hto : calc_transform cfg fuel hp (Some a) None = Ok (mkTransform3 (Some a) None Q X)).
  { unfold calc_transform, deref. simpl. rewrite Ha. simpl. by rewrite HQ. }
  assert (Hfrom : calc_transform cfg fuel hp None (Some a)
                  = Ok (mkTransform3 None (Some a) (q_invert Q)
                          (q_rotate (q_invert Q) (o3_neg X)))).
  { unfold calc_transform, deref. simpl. rewrite Ha. simpl. by rewrite HQ. }
  unfold transform_twist, frame_mismatch. rewrite Hto, Hfrom.
  split; intros Ht; rewrite Ht, !ptr_eqb_refl, !andb_false_r; simpl;
    rewrite ?ptr_eqb_refl, ?andb_false_r; simpl.
  - rewrite spatial_update_there_and_back by done. destruct t; simpl in *; by subst.
  - rewrite spatial_update_back_and_there by done. destruct t; simpl in *; by subst.
Qed.
End RoundTrip.

(** ** The embedding run on concrete frames *)

Section OnIntegers.
#[local] Existing Instance Z_scalar.
Import ZFrames.

Lemma Z_rotation_laws : RotationLaws (@Hamilton Z_scalar).
Proof. exact (@Hamilton_laws Z_scalar Z_scalar_laws). Qed.

(** The scan of a chain: frame [3] is two links above frame [2], and frame
    [4] is not above frame [1]. *)
Example is_common_found :
  is_common 4 turned_tree (Some 2%positive) (Some 3%positive) = Ok (true, 2%Z).
Proof. reflexivity. Qed.

Example is_common_not_found :
  is_common 4 turned_tree (Some 1%positive) (Some 4%positive) = Ok (false, 2%Z).
Proof. reflexivity. Qed.

(** The scan runs out of fuel on a frame that is its own parent. *)
Example is_common_cycle (fuel : nat) :
  is_common fuel {[ 1%positive := mkPose3 q_one (vec 0 0 0) (Some 1%positive) ]}
    (Some 1%positive) (Some 2%positive) = OutOfFuel.
Proof.
  unfold is_common. set (hp := {[ 1%positive := _ ]}). generalize 0%Z at 1.
  induction fuel as [|fuel IH]; intros i; [reflexivity|].
  simpl. unfold hp at 1. rewrite lookup_singleton_eq. apply IH.
Qed.

(** To the global frame and back, along the chain [2], [4]. *)
Example to_global :
  calc_transform checked 2 two_trees (Some 2%positive) None
  = Ok (mkTransform3 (Some 2%positive) None q_one (vec 5 1 0)).
Proof. reflexivity. Qed.

Example from_global :
  calc_transform checked 2 two_trees None (Some 2%positive)
  = Ok (mkTransform3 None (Some 2%positive) q_one (vec (-5) (-1) 0)).
Proof. reflexivity. Qed.

(** The general branch: from frame [2] up to the common frame [3] and down
    to frame [1]. *)
Example through_common_frame :
  calc_transform checked 3 turned_tree (Some 2%positive) (Some 1%positive)
  = Ok (mkTransform3 (Some 2%positive) (Some 1%positive)
          (mkQuat 0%Z 0%Z 0%Z (-1)%Z) (vec (-1) 0 0)).
Proof. reflexivity. Qed.

(** A batch whose elements carry the source frame replaces what the result
    vector held. *)
Example batch_of_two :
  transform_wrenches checked 2 two_roots (Some 1%positive) (Some 2%positive)
    (take 2 mixed_batch) stale
  = (Ok tt,
     [ mkSVector6 (vec 1 0 0) (vec 0 0 (-1)) (Some 2%positive);
       mkSVector6 (vec 0 1 0) (vec 0 0 0) (Some 2%positive) ]).
Proof. reflexivity. Qed.

Example accelerations_of_two :
  transform_accel (calc_transform checked 2 two_roots) checked (Some 2%positive)
    (take 2 mixed_batch) stale
  = (Ok tt,
     [ mkSVector6 (vec 1 0 0) (vec 0 0 1) (Some 2%positive);
       mkSVector6 (vec 0 1 0) (vec 0 0 2) (Some 2%positive) ]).
Proof. reflexivity. Qed.

(** C2: the round trip fails between two frames that share their parent.
    Frame [1] is turned by a half turn about z, frame [2] stands at
    (1,0,0); a twist about z with no linear part, tagged with frame [2],
    is taken to frame [1] and back.  It comes back with the linear part
    (0,2,0).  The same two frames resolved through the general branch
    (frame [2] hanging from the common frame through an identity frame)
    give the twist back unchanged. *)
Theorem round_trip_through_sibling :
  (let* t1 := transform_twist checked 2 turned_roots (Some 2%positive) (Some 1%positive) spin_z in
   transform_twist checked 2 turned_roots (Some 1%positive) (Some 2%positive) t1)
  = Ok (mkSVector6 (vec 0 0 1) (vec 0 2 0) (Some 2%positive))
  /\ (let* t1 := transform_twist checked 3 turned_tree (Some 2%positive) (Some 1%positive) spin_z in
      transform_twist checked 3 turned_tree (Some 1%positive) (Some 2%positive) t1)
     = Ok spin_z.
Proof. split; reflexivity. Qed.

(** A point makes the same round trip: the origin of frame [2] comes
    back as (2,0,0). *)
Lemma round_trip_point_through_sibling :
  (let* p1 := transform_point checked 2 turned_roots (Some 2%positive) (Some 1%positive)
                (mkPoint3 (vec 0 0 0) (Some 2%positive)) in
   transform_point checked 2 turned_roots (Some 1%positive) (Some 2%positive) p1)
  = Ok (mkPoint3 (vec 2 0 0) (Some 2%positive)).
Proof. reflexivity. Qed.

(** Outside the same-parent branch the round trip holds.  In [forest] a
    twist tagged [b] goes to [a] and back unchanged when the transform is
    resolved through the general branch ([12] and [14], [12] and its
    ancestor [10]) or through the global frame; between the siblings [11]
    and [13] it does not. *)
Lemma round_trip_other_branches :
  there_and_back (Some 12%positive) (Some 14%positive) = Ok (screw (Some 14%positive))
  /\ there_and_back (Some 14%positive) (Some 12%positive) = Ok (screw (Some 12%positive))
  /\ there_and_back (Some 12%positive) (Some 10%positive) = Ok (screw (Some 10%positive))
  /\ there_and_back (Some 10%positive) (Some 12%positive) = Ok (screw (Some 12%positive))
  /\ there_and_back (Some 12%positive) None = Ok (screw None)
  /\ there_and_back None (Some 14%positive) = Ok (screw (Some 14%positive))
  /\ there_and_back (Some 11%positive) (Some 13%positive)
     = Ok (mkSVector6 (vec 1 2 3) (vec 18 13 (-4)) (Some 13%positive)).
Proof. repeat split; reflexivity. Qed.

(** The frames of [forest] hold unit quaternions, and the round trip
    through the global frame applies to them. *)
Lemma forest_unit_frames : unit_frames forest.
Proof.
  unfold unit_frames, forest.
  repeat (apply map_Forall_insert_2; [reflexivity|]). apply map_Forall_empty.
Qed.

Lemma round_trip_through_global_witness :
  (let* t1 := transform_twist checked 3 forest (Some 12%positive) None
                (screw (Some 12%positive)) in
   transform_twist checked 3 forest None (Some 12%positive) t1)
  = Ok (screw (Some 12%positive)).
Proof.
  apply (@round_trip_through_global Z_scalar Z_scalar_laws Hamilton Z_rotation_laws
           checked 3 forest 12%positive [12%positive; 11%positive; 10%positive]).
  - exact forest_unit_frames.
  - apply (ancestors_chain 3). reflexivity.
  - simpl. lia.
  - reflexivity.
Defined.

(** The two resolved transforms of the failing round trip, and the ones
    of the general branch: the rotations agree, the translations of the
    way back do not. *)
Lemma sibling_translation_differs :
  calc_transform checked 2 turned_roots (Some 1%positive) (Some 2%positive)
  = Ok (mkTransform3 (Some 1%positive) (Some 2%positive) q_k (vec 1 0 0))
  /\ calc_transform checked 3 turned_tree (Some 1%positive) (Some 2%positive)
     = Ok (mkTransform3 (Some 1%positive) (Some 2%positive) q_k (vec (-1) 0 0)).
Proof. split; reflexivity. Qed.

(** Two frames in separate trees, [1] under the root [3] and [2] under
    the root [4]: the resolver stops at the assertion, or at the null
    dereference when assertions are compiled out; in neither build does
    it report a frame or structural error. *)
Lemma calc_transform_separate_trees :
  ancestors 2 two_trees (Some 1%positive) = Some [1%positive; 3%positive]
  /\ ancestors 2 two_trees (Some 2%positive) = Some [2%positive; 4%positive]
  /\ calc_transform checked 2 two_trees (Some 1%positive) (Some 2%positive)
     = AssertionFailure
  /\ calc_transform no_asserts 2 two_trees (Some 1%positive) (Some 2%positive)
     = InvalidDereference
  /\ calc_transform unchecked 2 two_trees (Some 1%positive) (Some 2%positive)
     = AssertionFailure.
Proof. repeat split. Qed.

Lemma calc_transform_disjoint_witness :
  calc_transform checked 2 two_trees (Some 1%positive) (Some 2%positive) = AssertionFailure.
Proof.
  apply (calc_transform_disjoint checked 2 two_trees 1%positive 2%positive
           (mkPose3 q_one (vec 1 0 0) (Some 3%positive))
           (mkPose3 q_one (vec 0 1 0) (Some 4%positive))
           [1%positive; 3%positive] [2%positive; 4%positive]).
  - reflexivity.
  - reflexivity.
  - apply (ancestors_chain 2). reflexivity.
  - apply (ancestors_chain 2). reflexivity.
  - intros c Hc Hd. rewrite !elem_of_cons, elem_of_nil in Hc, Hd.
  destruct Hc as [->|[->|[]]]; destruct Hd as [Hd|[Hd|[]]]; discriminate Hd.
  - simpl. lia.
  - simpl. lia.
Defined.

Lemma sibling_scenario_witness :
  calc_transform checked 0 two_roots (Some 1%positive) (Some 2%positive)
  = Ok (mkTransform3 (Some 1%positive) (Some 2%positive) q_one (vec 1 (-1) 0))
  /\ transform_point checked 0 two_roots (Some 1%positive) (Some 2%positive)
       (mkPoint3 (vec 0 0 0) (Some 1%positive))
     = Ok (mkPoint3 (vec 1 (-1) 0) (Some 2%positive)).
Proof.
  apply (@sibling_scenario Z_scalar Z_scalar_laws Hamilton Z_rotation_laws
           checked 0 two_roots 1%positive 2%positive).
  - discriminate.
  - reflexivity.
  - reflexivity.
Defined.

(** Against C5 as stated: the composition of two poses relative to frame
    [3] succeeds and its result has no parent. *)
Lemma mult_parent_counterexample :
  rpose child_a = rpose child_b
  /\ exists r, mult checked child_a child_b = Ok r
               /\ r = mkPose3 q_k (vec 1 (-2) 0) None
               /\ rpose r <> rpose child_b.
Proof.
  split; [reflexivity|]. eexists. split; [reflexivity|]. split; [reflexivity|discriminate].
Qed.

Lemma mult_spec_witness :
  q_unit (q child_a) /\ q_unit (q child_b)
  /\ (mult checked child_a child_b = FrameException
      <-> NEXCEPT checked = false /\ rpose child_a <> rpose child_b)
  /\ (mult checked child_a child_b <> FrameException ->
      mult checked child_a child_b
      = Ok (mkPose3 (q_mul (q child_a) (q child_b))
              (o3_add (q_rotate (q child_a) (x child_b)) (x child_a)) None)).
Proof.
  split; [reflexivity|]. split; [reflexivity|].
  apply (@mult_spec Z_scalar Hamilton Z_rotation_laws checked child_a child_b);
    reflexivity.
Defined.

Lemma invert_twice_witness :
  q_unit (q child_a)
  /\ invert (invert child_a) = child_a
  /\ invert_static (invert_static child_a) = child_a
  /\ rpose (invert child_a) = rpose child_a
  /\ rpose (invert_static child_a) = rpose child_a
  /\ (({[ 5%positive := child_a ]} : heap) !! 5%positive = Some child_a ->
      invert_at (invert_at {[ 5%positive := child_a ]} 5%positive) 5%positive
      = {[ 5%positive := child_a ]}).
Proof.
  split; [reflexivity|].
  apply (@invert_twice Z_scalar Z_scalar_laws Hamilton Z_rotation_laws
           child_a {[ 5%positive := child_a ]} 5%positive).
  reflexivity.
Defined.

(** Against C3 as stated: in a build with [NEXCEPT] defined the
    validation loops are compiled out; a batch whose last element is
    tagged with another frame is transformed, and the result vector is
    overwritten. *)
Lemma batch_unchecked_counterexample :
  Exists (fun e => pose e <> Some 1%positive) mixed_batch
  /\ transform_wrenches unchecked 2 two_roots (Some 1%positive) (Some 2%positive)
       mixed_batch stale
     = (Ok tt, [ mkSVector6 (vec 1 0 0) (vec 0 0 (-1)) (Some 2%positive);
                 mkSVector6 (vec 0 1 0) (vec 0 0 0) (Some 2%positive);
                 mkSVector6 (vec 0 0 1) (vec 2 1 0) (Some 2%positive) ])
  /\ transform_twists unchecked 2 two_roots (Some 1%positive) (Some 2%positive)
       mixed_batch stale
     = (Ok tt, [ mkSVector6 (vec 1 0 0) (vec 0 0 (-1)) (Some 2%positive);
                 mkSVector6 (vec 0 1 0) (vec 0 0 0) (Some 2%positive);
                 mkSVector6 (vec 0 0 1) (vec 2 1 0) (Some 2%positive) ])
  /\ transform_accel (calc_transform unchecked 2 two_roots) unchecked (Some 2%positive)
       mixed_batch stale
     = (Ok tt, [ mkSVector6 (vec 1 0 0) (vec 0 0 1) (Some 2%positive);
                 mkSVector6 (vec 0 1 0) (vec 0 0 2) (Some 2%positive);
                 mkSVector6 (vec 0 0 1) (vec 0 (-1) 0) (Some 2%positive) ]).
Proof.
  split; [|repeat split].
  apply Exists_cons_tl, Exists_cons_tl, Exists_cons_hd. discriminate.
Qed.

Lemma batch_validates_first_witness :
  NEXCEPT checked = false
  /\ Exists (fun e => pose e <> Some 1%positive) mixed_batch
  /\ transform_wrenches checked 2 two_roots (Some 1%positive) (Some 2%positive)
       mixed_batch stale = (FrameException, stale)
  /\ transform_twists checked 2 two_roots (Some 1%positive) (Some 2%positive)
       mixed_batch stale = (FrameException, stale)
  /\ (forall t0, pose t0 = Some 1%positive ->
      transform_accel (calc_transform checked 2 two_roots) checked (Some 2%positive)
        (t0 :: mixed_batch) stale = (FrameException, stale)).
Proof.
  assert (Hex : Exists (fun e : SVECTOR6 => pose e <> Some 1%positive) mixed_batch).
  { apply Exists_cons_tl, Exists_cons_tl, Exists_cons_hd. discriminate. }
  split; [reflexivity|]. split; [exact Hex|].
  apply (batch_validates_first checked 2 two_roots (Some 1%positive) (Some 2%positive)
           (calc_transform checked 2 two_roots) mixed_batch stale);
    [reflexivity | exact Hex].
Defined.


Lemma rb_inertia_mass_preserved_witness :
  exists Jx, transform_rb_inertia checked 2 two_roots (Some 1%positive) (Some 2%positive) body
             = Ok Jx
             /\ m Jx = 7%Z /\ inertia_pose Jx = Some 2%positive.
Proof.
  destruct (rb_inertia_mass_preserved checked 2 two_roots None
              (Some 1%positive) (Some 2%positive) child_a body) as (_ & _ & _ & H).
  exact (H eq_refl _ eq_refl).
Defined.
End OnIntegers.

Section OnReals.
#[local] Existing Instance R_scalar.
#[local] Open Scope R_scope.
Import RealFrames.

Lemma sqrt2_pos : 0 < sqrt 2.
Proof. apply sqrt_lt_R0. lra. Qed.

Lemma q_one_unit : quat_norm2 q_one = 1.
Proof. cbv [q_one quat_norm2 qw qx qy qz radd rmul R_scalar REAL]. ring. Qed.

Lemma q_k_unit : quat_norm2 q_k = 1.
Proof. cbv [q_k quat_norm2 qw qx qy qz radd rmul R_scalar REAL]. ring. Qed.

Lemma q_far_unit : quat_norm2 (q frame_far) = 1.
Proof.
  pose proof sqrt2_pos. pose proof (sqrt_sqrt 2 ltac:(lra)) as Hs.
  cbv [frame_far q quat_norm2 qw qx qy qz radd rmul R_scalar REAL].
  transitivity (2 * / (sqrt 2 * sqrt 2)); [field; lra|]. rewrite Hs. field.
Qed.

Lemma midpoint_one_k : shortest_arc_midpoint q_one q_k = q_quarter.
Proof.
  pose proof sqrt2_pos.
  unfold shortest_arc_midpoint, quat_normalize, arc_sign.
  destruct (Rle_dec 0 (quat_dot q_one q_k)) as [_|Hn].
  - cbv [q_one q_k q_quarter quat_add quat_scale quat_norm2 qw qx qy qz radd rmul R_scalar REAL].
    replace (1 + 0 * 1) with 1 by ring. replace (0 + 0 * 1) with 0 by ring.
    replace (0 + 1 * 1) with 1 by ring.
    replace (1 * 1 + 0 * 0 + 0 * 0 + 1 * 1) with 2 by ring.
    f_equal; cbv [REAL R_scalar]; field; lra.
  - exfalso. apply Hn. cbv [q_one q_k quat_dot qw qx qy qz radd rmul R_scalar REAL]. lra.
Qed.

Lemma far_dot_negative : quat_dot q_one (q frame_far) < 0.
Proof.
  pose proof sqrt2_pos. pose proof (Rinv_0_lt_compat _ H).
  cbv [frame_far q q_one quat_dot qw qx qy qz radd rmul R_scalar REAL]. lra.
Qed.

(** Against C7 as stated: two poses relative to frame [3] interpolate to
    poses without a parent, at t=0 and at t=1; and a second pose whose
    quaternion has a negative dot product with the first comes back at
    t=1 with the negated quaternion. *)
Lemma interpolate_parent_counterexample :
  rpose frame_a = Some 3%positive /\ rpose frame_b = Some 3%positive
  /\ rpose frame_far = Some 3%positive
  /\ @interpolate R_scalar RealQuat RealSlerp frame_a frame_b 0
     = @mkPose3 R_scalar RealQuat q_one (vec 1 0 0) None
  /\ @interpolate R_scalar RealQuat RealSlerp frame_a frame_b 1
     = @mkPose3 R_scalar RealQuat q_k (vec 0 3 0) None
  /\ q frame_far = mkQuat (- / sqrt 2) 0 0 (/ sqrt 2)
  /\ @interpolate R_scalar RealQuat RealSlerp frame_a frame_far 1
     = @mkPose3 R_scalar RealQuat (mkQuat (/ sqrt 2) 0 0 (- / sqrt 2)) (vec 0 3 0) None.
Proof.
  split; [reflexivity|]. split; [reflexivity|]. split; [reflexivity|].
  split; [exact (interpolate_start frame_a frame_b q_one_unit q_k_unit)|].
  split.
  { rewrite (interpolate_end frame_a frame_b q_one_unit q_k_unit). unfold arc_sign.
    destruct (Rle_dec 0 (quat_dot (q frame_a) (q frame_b))) as [_|Hn].
    - by rewrite quat_scale_1.
    - exfalso. apply Hn.
      cbv [frame_a frame_b q q_one q_k quat_dot qw qx qy qz radd rmul R_scalar REAL]. lra. }
  split; [reflexivity|].
  rewrite (interpolate_end frame_a frame_far q_one_unit q_far_unit). unfold arc_sign.
  destruct (Rle_dec 0 (quat_dot (q frame_a) (q frame_far))) as [Hp|_].
  - exfalso. exact (Rlt_not_le _ _ far_dot_negative Hp).
  - rewrite quat_scale_opp_1.
    cbv [frame_far q x vec quat_neg qw qx qy qz ropp R_scalar REAL].
    f_equal. f_equal; cbv [REAL R_scalar]; ring.
Qed.


Lemma interpolate_spec_witness :
  @interpolate R_scalar RealQuat RealSlerp frame_a frame_b 0
  = @mkPose3 R_scalar RealQuat q_one (vec 1 0 0) None
  /\ @interpolate R_scalar RealQuat RealSlerp frame_a frame_b 1
     = @mkPose3 R_scalar RealQuat q_k (vec 0 3 0) None
  /\ @interpolate R_scalar RealQuat RealSlerp frame_a frame_far 1
     = @mkPose3 R_scalar RealQuat (mkQuat (/ sqrt 2) 0 0 (- / sqrt 2)) (vec 0 3 0) None
  /\ @interpolate R_scalar RealQuat RealSlerp frame_a frame_b (1 / 2)
     = @mkPose3 R_scalar RealQuat q_quarter (vec (1 / 2) (3 / 2) 0) None.
Proof.
  destruct (interpolate_spec frame_a frame_b q_one_unit q_k_unit) as (H0 & H1 & _ & Hh).
  destruct (interpolate_spec frame_a frame_far q_one_unit q_far_unit) as (_ & _ & Hn & _).
  split; [exact H0|]. split.
  { apply H1. cbv [frame_a frame_b q q_one q_k quat_dot qw qx qy qz radd rmul R_scalar REAL]. lra. }
  split.
  { rewrite (Hn far_dot_negative).
    cbv [frame_far q x vec quat_neg qw qx qy qz ropp R_scalar REAL].
    f_equal. f_equal; cbv [REAL R_scalar]; ring. }
  rewrite Hh. simpl q. rewrite midpoint_one_k. f_equal.
  cbv [frame_a frame_b x vec o3_scale o3_add c0 c1 c2 radd rmul R_scalar REAL].
  f_equal; cbv [REAL R_scalar]; field.
Defined.
End OnReals.

Section OnDoubles.
#[local] Existing Instance double_scalar.
Import DoubleFrames.

(** Against C10 as stated: in binary64 the rotation (0.6, 0, 0, 0.8) has
    squared norm 1, and inverting the pose with the translation (1, 2, 3)
    twice gives the translation (1, 1.9999999999999998, 3). *)
Lemma invert_twice_double_counterexample :
  q_unit (q pose_d)
  /\ invert (invert pose_d)
     = mkPose3 (q pose_d) (mkOrigin3 1%float 0x1.fffffffffffffp+0%float 3%float) None
  /\ PrimFloat.eqb (c1 (x (invert (invert pose_d)))) (c1 (x pose_d)) = false
  /\ invert_static (invert_static pose_d) = invert (invert pose_d).
Proof. repeat split. Qed.
End OnDoubles.
(** Unfolds the 3x3 matrix and 3-vector operations down to the scalar
    operations on the entries, arguments first. *)
Ltac entrywise :=
  cbv [rb_inertia_update m3_identity o3_zero m3_transpose m3_mul m3_row_mul m3_add m3_sub
       m3_mul_vec skew_symmetric o3_scale o3_sub o3_add o3_dot m3_col0 m3_col1 m3_col2
       c0 c1 c2 row0 row1 row2 m h J inertia_pose ab_M ab_H ab_J ab_pose].


(** * Further properties of the code *)

(** ** The resolver on cyclic chains, and what it never throws *)

Section ResolverMore.
Context {Sc : Scalar} {Rt : Rotation Sc}.

Lemma is_common_loop_cyclic (hp : heap) (inside : addr -> Prop) (p : ptr) :
  parent_closed hp inside -> (forall a, inside a -> Some a <> p) ->
  forall fuel x i, inside x -> is_common_loop fuel hp (Some x) p i = OutOfFuel.
Proof.
  intros Hclosed Hp. induction fuel as [|fuel IH]; intros x i Hx; simpl.
  - assert (E : ptr_eqb (Some x) p = false) by (apply ptr_eqb_false; auto).
    by rewrite E.
  - assert (E : ptr_eqb (Some x) p = false) by (apply ptr_eqb_false; auto).
    rewrite E. destruct (Hclosed x Hx) as (px & b & Hpx & Hb & Hin).
    rewrite Hpx, Hb. by apply IH.
Qed.

Lemma compose_to_global_cyclic (hp : heap) (inside : addr -> Prop) :
  parent_closed hp inside ->
  forall fuel x acc, inside x -> compose_to_global fuel hp (Some x) acc = OutOfFuel.
Proof.
  intros Hclosed. induction fuel as [|fuel IH]; intros x acc Hx; simpl; [done|].
  destruct (Hclosed x Hx) as (px & b & Hpx & Hb & Hin).
  unfold deref at 1. rewrite Hpx. simpl. rewrite Hb.
  destruct (Hclosed b Hin) as (pb & c & Hpb & _ & _).
  unfold deref. rewrite Hpb. simpl. by apply IH.
Qed.

(** On a chain of relative poses that closes into a cycle the walks of
    [is_common] and of the two global cases of [calc_transform] have no
    end: whatever the fuel, the model is still walking.  Nothing in the
    code detects the cycle. *)
Theorem walk_on_cycle_never_ends (cfg : config) (hp : heap) (inside : addr -> Prop)
    (x : addr) (fuel : nat) :
  parent_closed hp inside -> inside x ->
  (forall p, (forall a, inside a -> Some a <> p) -> is_common fuel hp (Some x) p = OutOfFuel)
  /\ calc_transform cfg fuel hp (Some x) None = OutOfFuel
  /\ calc_transform cfg fuel hp None (Some x) = OutOfFuel.
Proof.
  intros Hclosed Hx. destruct (Hclosed x Hx) as (px & b & Hpx & Hb & Hin).
  split; [|split].
  - intros p Hp. by apply (is_common_loop_cyclic hp inside p).
  - unfold calc_transform, deref. simpl. rewrite Hpx. simpl.
    by rewrite (compose_to_global_cyclic hp inside).
  - unfold calc_transform, deref. simpl. rewrite Hpx. simpl.
    by rewrite (compose_to_global_cyclic hp inside).
Qed.

(** A static transform ends in a [FrameException] only through its frame
    check: exactly when the checks are compiled in and the quantity is not
    tagged with the source frame.  Whatever else goes wrong while the
    transform is resolved, it is not reported as a frame mismatch; this
    holds for the six entry points and for the two batch transforms. *)
Theorem frame_exception_only_from_guard (cfg : config) (fuel : nat) (hp : heap)
    (source target : ptr) :
  (forall v, transform_vector cfg fuel hp source target v = FrameException
             <-> NEXCEPT cfg = false /\ source <> vector_pose v)
  /\ (forall p, transform_point cfg fuel hp source target p = FrameException
                <-> NEXCEPT cfg = false /\ source <> point_pose p)
  /\ (forall w, transform_wrench cfg fuel hp source target w = FrameException
                <-> NEXCEPT cfg = false /\ source <> pose w)
  /\ (forall t, transform_twist cfg fuel hp source target t = FrameException
                <-> NEXCEPT cfg = false /\ source <> pose t)
  /\ (forall Ji, transform_rb_inertia cfg fuel hp source target Ji = FrameException
                 <-> NEXCEPT cfg = false /\ source <> inertia_pose Ji)
  /\ (forall mi, transform_ab_inertia cfg fuel hp source target mi = FrameException
                 <-> NEXCEPT cfg = false /\ source <> ab_pose mi)
  /\ (forall w result,
        fst (transform_wrenches cfg fuel hp source target w result) = FrameException
        <-> NEXCEPT cfg = false /\ Exists (fun e => pose e <> source) w)
  /\ (forall t result,
        fst (transform_twists cfg fuel hp source target t result) = FrameException
        <-> NEXCEPT cfg = false /\ Exists (fun e => pose e <> source) t).
Proof.
  pose proof (calc_transform_no_exception cfg fuel hp source target) as Hno.
  assert (Hone : forall (A : Type) (tag : ptr) (k : TRANSFORM3 -> A),
    (if frame_mismatch cfg source tag then FrameException
     else obind (calc_transform cfg fuel hp source target) (fun Tx => Ok (k Tx)))
    = FrameException
    <-> NEXCEPT cfg = false /\ source <> tag).
  { intros A tag k. rewrite <- frame_mismatch_true.
    destruct (frame_mismatch cfg source tag); [done|].
    split; [|done]. destruct (calc_transform cfg fuel hp source target); simpl; done. }
  assert (Hbatch : forall (f : TRANSFORM3 -> list SVECTOR6) (w result : list SVECTOR6),
    fst (match w with
         | [] => (Ok tt, [])
         | _ :: _ =>
             if negb (NEXCEPT cfg) && frames_differ source w then (FrameException, result)
             else match calc_transform cfg fuel hp source target with
                  | Ok Tx => (Ok tt, f Tx)
                  | stop => (ends stop, result)
                  end
         end) = FrameException
    <-> NEXCEPT cfg = false /\ Exists (fun e => pose e <> source) w).
  { intros f w result. rewrite <- frames_differ_Exists. destruct w as [|w0 w].
    - simpl. split; [discriminate|]. intros [_ H]. discriminate H.
    - remember (frames_differ source (w0 :: w)) as d eqn:Hd. clear Hd.
      destruct (NEXCEPT cfg), d; simpl.
      + split; [|intros [H _]; discriminate H].
        destruct (calc_transform cfg fuel hp source target); simpl; done.
      + split; [|intros [H _]; discriminate H].
        destruct (calc_transform cfg fuel hp source target); simpl; done.
      + split; auto.
      + split; [|intros [_ H]; discriminate H].
        destruct (calc_transform cfg fuel hp source target); simpl; done. }
  split; [intros v; apply (Hone _ (vector_pose v))|].
  split; [intros p; apply (Hone _ (point_pose p))|].
  split; [intros w; apply (Hone _ (pose w))|].
  split; [intros t; apply (Hone _ (pose t))|].
  split; [intros Ji; apply (Hone _ (inertia_pose Ji))|].
  split; [intros mi; apply (Hone _ (ab_pose mi))|].
  split; intros w result; apply Hbatch.
Qed.

(** The transform from the global frame is the inverse of the transform
    to it: whenever a frame resolves to the global frame with rotation
    [Q] and translation [X], the global frame resolves to that frame with
    the rotation and translation that [POSE3::invert] gives the pose
    [(Q, X)]. *)
Theorem from_global_is_inverse (cfg : config) (fuel : nat) (hp : heap) (a : addr)
    (Tx : TRANSFORM3) :
  calc_transform cfg fuel hp (Some a) None = Ok Tx ->
  calc_transform cfg fuel hp None (Some a)
  = Ok (mkTransform3 None (Some a)
          (q (invert (mkPose3 (t_q Tx) (t_x Tx) None)))
          (x (invert (mkPose3 (t_q Tx) (t_x Tx) None)))).
Proof.
  unfold calc_transform, deref. simpl.
  destruct (hp !! a) as [pa|]; simpl; [|discriminate].
  destruct (compose_to_global fuel hp (Some a) (q pa, x pa)) as [[rq rx]| | | |];
    simpl; try discriminate.
  intros H. by simplify_eq.
Qed.
End ResolverMore.

(** ** The batch transforms as a whole *)

Section BatchMore.
Context {Sc : Scalar} {Rt : Rotation Sc}.

Lemma fill_length (f : SVECTOR6 -> SVECTOR6 -> SVECTOR6) (w result : list SVECTOR6) :
  length (fill f w (resize (length w) SVECTOR6_zero result)) = length w.
Proof.
  rewrite fill_zip_with by apply length_resize.
  rewrite length_zip_with, length_resize. lia.
Qed.

Lemma transform_accel_with_fresh (target : ptr) (w : SVECTOR6) (r : ORIGIN3) (E : MATRIX3)
    (res1 res2 : SVECTOR6) :
  transform_accel_with target w r E res1 = transform_accel_with target w r E res2.
Proof. reflexivity. Qed.

(** A batch transform never leaves a half-written result vector: either
    the call succeeds and the result vector holds exactly one element per
    input element, or it fails (frame mismatch, failed assertion, ...) and
    the result vector is what it was before the call. *)
Theorem batch_all_or_nothing (cfg : config) (fuel : nat) (hp : heap) (source target : ptr)
    (calc_relative_pose : ptr -> ptr -> outcome TRANSFORM3) (w result : list SVECTOR6) :
  let done_or_untouched (call : outcome unit * list SVECTOR6) :=
    (fst call = Ok tt /\ length (snd call) = length w)
    \/ (fst call <> Ok tt /\ snd call = result) in
  done_or_untouched (transform_wrenches cfg fuel hp source target w result)
  /\ done_or_untouched (transform_twists cfg fuel hp source target w result)
  /\ done_or_untouched (transform_accel calc_relative_pose cfg target w result).
Proof.
  simpl. unfold transform_wrenches, transform_twists, transform_accel.
  destruct w as [|w0 w]; [by repeat split; left|].
  split; [|split].
  - destruct (negb (NEXCEPT cfg) && frames_differ source (w0 :: w)); [by right|].
    destruct (calc_transform cfg fuel hp source target); simpl;
      try (by right); left; split; [done|apply fill_length].
  - destruct (negb (NEXCEPT cfg) && frames_differ source (w0 :: w)); [by right|].
    destruct (calc_transform cfg fuel hp source target); simpl;
      try (by right); left; split; [done|apply fill_length].
  - destruct (negb (NEXCEPT cfg) && frames_differ (pose w0) w); [by right|].
    destruct (ptr_eqb (pose w0) target); [by left|].
    destruct (calc_relative_pose (pose w0) target) as [Tx| | | |]; simpl; try (by right).
    destruct (get_r_E_transform Tx) as [r E]. left. split; [done|apply fill_length].
Qed.

Lemma Forall2_computed {A B : Type} (g : A -> outcome B) (f : A -> B) (w : list A)
    (l : list B) :
  (forall a, a ∈ w -> g a = Ok (f a)) ->
  Forall2 (fun a b => g a = Ok b) w l <-> l = f <$> w.
Proof.
  revert l. induction w as [|a w IH]; intros l Hg.
  - split; [by inversion 1|intros ->; constructor].
  - split.
    + inversion 1 as [|? b ? l' Ha Hl]; subst.
      rewrite Hg in Ha by apply list_elem_of_here.
      injection Ha as <-. simpl. f_equal. apply IH; [|done].
      intros; by apply Hg, list_elem_of_further.
    + intros ->. simpl. constructor; [apply Hg, list_elem_of_here|].
      apply IH; [|done]. intros; by apply Hg, list_elem_of_further.
Qed.

Lemma Forall2_failed {A B : Type} (g : A -> outcome B) (a : A) (w : list A) (l : list B) :
  (forall b, g a <> Ok b) -> ~ Forall2 (fun a b => g a = Ok b) (a :: w) l.
Proof. intros Hg H. inversion H as [|? b ? ? Ha]; subst. by apply (Hg b). Qed.

(** A batch of wrenches or twists that all carry the source frame is
    transformed exactly as its elements are one at a time: the batch
    succeeds with the result [l] if and only if every element transforms
    to the element of [l] at the same place. *)
Theorem batch_is_elementwise (cfg : config) (fuel : nat) (hp : heap) (source target : ptr)
    (w result l : list SVECTOR6) :
  w <> [] -> Forall (fun e => pose e = source) w ->
  (transform_wrenches cfg fuel hp source target w result = (Ok tt, l)
   <-> Forall2 (fun wi ri => transform_wrench cfg fuel hp source target wi = Ok ri) w l)
  /\ (transform_twists cfg fuel hp source target w result = (Ok tt, l)
      <-> Forall2 (fun ti ri => transform_twist cfg fuel hp source target ti = Ok ri) w l).
Proof.
  intros Hne Hall.
  assert (Hd : frames_differ source w = false) by by apply frames_differ_Forall.
  assert (Hsingle : forall wi, wi ∈ w ->
            transform_twist cfg fuel hp source target wi
            = obind (calc_transform cfg fuel hp source target)
                (fun Tx => Ok (spatial_update (t_x Tx) (q_matrix (t_q Tx)) target wi))).
  { intros wi Hin. unfold transform_twist, frame_mismatch.
    rewrite Forall_forall in Hall. by rewrite (Hall wi Hin), ptr_eqb_refl, andb_false_r. }
  assert (Hboth : transform_wrenches cfg fuel hp source target w result = (Ok tt, l)
                  <-> Forall2 (fun ti ri => transform_twist cfg fuel hp source target ti = Ok ri)
                        w l).
  { unfold transform_wrenches. destruct w as [|w0 w]; [done|].
    rewrite Hd, andb_false_r.
    destruct (calc_transform cfg fuel hp source target) as [Tx| | | |] eqn:HTx.
    - rewrite fill_resize_map.
      rewrite (Forall2_computed _ (spatial_update (t_x Tx) (q_matrix (t_q Tx)) target))
        by (intros wi Hin; by rewrite Hsingle).
      split; [by intros [= <-]|by intros ->].
    - split; [discriminate|]. intros H. exfalso. revert H. apply Forall2_failed.
      intros b. rewrite Hsingle by apply list_elem_of_here. discriminate.
    - split; [discriminate|]. intros H. exfalso. revert H. apply Forall2_failed.
      intros b. rewrite Hsingle by apply list_elem_of_here. discriminate.
    - split; [discriminate|]. intros H. exfalso. revert H. apply Forall2_failed.
      intros b. rewrite Hsingle by apply list_elem_of_here. discriminate.
    - split; [discriminate|]. intros H. exfalso. revert H. apply Forall2_failed.
      intros b. rewrite Hsingle by apply list_elem_of_here. discriminate. }
  split; exact Hboth.
Qed.

(** A batch of accelerations that all carry one frame is transformed as
    its elements are one at a time, by the single-acceleration
    [transform_accel]: in particular a batch already in the target frame
    comes back as it is, without the resolver being asked. *)
Theorem accel_batch_is_elementwise (calc_relative_pose : ptr -> ptr -> outcome TRANSFORM3)
    (cfg : config) (target : ptr) (t result l : list SVECTOR6) (t0 : SVECTOR6) :
  Forall (fun e => pose e = pose t0) t ->
  transform_accel calc_relative_pose cfg target (t0 :: t) result = (Ok tt, l)
  <-> Forall2 (fun ti ri => transform_accel_single calc_relative_pose target ti = Ok ri)
        (t0 :: t) l.
Proof.
  intros Hall.
  assert (Hd : frames_differ (pose t0) t = false) by by apply frames_differ_Forall.
  assert (Hall' : forall ti, ti ∈ t0 :: t -> pose ti = pose t0).
  { intros ti [->|Hin]%elem_of_cons; [done|]. rewrite Forall_forall in Hall. auto. }
  unfold transform_accel. rewrite Hd, andb_false_r.
  destruct (ptr_eqb (pose t0) target) eqn:Et.
  - rewrite (Forall2_computed _ (fun ti => ti)).
    + rewrite list_fmap_id. split; [by intros [= <-]|by intros ->].
    + intros ti Hin. unfold transform_accel_single. by rewrite (Hall' ti Hin), Et.
  - assert (Hsingle : forall ti, ti ∈ t0 :: t ->
              transform_accel_single calc_relative_pose target ti
              = obind (calc_relative_pose (pose t0) target)
                  (fun Tx => Ok (transform_accel_with target ti (fst (get_r_E_transform Tx))
                                   (snd (get_r_E_transform Tx)) SVECTOR6_zero))).
    { intros ti Hin. unfold transform_accel_single. rewrite (Hall' ti Hin), Et.
      destruct (calc_relative_pose (pose t0) target); reflexivity. }
    destruct (calc_relative_pose (pose t0) target) as [Tx| | | |] eqn:HTx.
    + rewrite (Forall2_computed _
                 (fun ti => transform_accel_with target ti (fst (get_r_E_transform Tx))
                              (snd (get_r_E_transform Tx)) SVECTOR6_zero))
        by (intros ti Hin; by rewrite Hsingle).
      destruct (get_r_E_transform Tx) as [r E] eqn:HrE.
      rewrite fill_zip_with by apply length_resize.
      assert (Hzip : zip_with (fun ti ri => transform_accel_with target ti r E ri) (t0 :: t)
                       (resize (length (t0 :: t)) SVECTOR6_zero result)
                     = (fun ti => transform_accel_with target ti r E SVECTOR6_zero)
                         <$> (t0 :: t)).
      { assert (Hr : length (resize (length (t0 :: t)) SVECTOR6_zero result)
                     = length (t0 :: t)) by apply length_resize.
        revert Hr. generalize (resize (length (t0 :: t)) SVECTOR6_zero result).
        generalize (t0 :: t). clear.
        induction l as [|a l IH]; intros [|b bs] Hl; simpl in *; try done.
        f_equal. apply IH. lia. }
      rewrite Hzip. simpl. split; [by intros [= <-]|by intros ->].
    + split; [discriminate|]. intros H. exfalso. revert H. apply Forall2_failed.
      intros b. rewrite Hsingle by apply list_elem_of_here. discriminate.
    + split; [discriminate|]. intros H. exfalso. revert H. apply Forall2_failed.
      intros b. rewrite Hsingle by apply list_elem_of_here. discriminate.
    + split; [discriminate|]. intros H. exfalso. revert H. apply Forall2_failed.
      intros b. rewrite Hsingle by apply list_elem_of_here. discriminate.
    + split; [discriminate|]. intros H. exfalso. revert H. apply Forall2_failed.
      intros b. rewrite Hsingle by apply list_elem_of_here. discriminate.
Qed.
End BatchMore.

(** ** Hamilton quaternions satisfy the further laws *)

Section HamiltonInverseLaws.
Context {Sc : Scalar} {L : ScalarLaws Sc}.

Add Ring scalar_ring_hamilton_inverse : (@scalar_ring Sc L).

Lemma Hamilton_inverse_laws : RotationInverseLaws (@Hamilton Sc).
Proof.
  constructor; simpl.
  - intros [w a b c] Hu. unfold quat_norm2 in Hu. simpl in Hu.
    unfold quat_mul, quat_conj; simpl. f_equal; [rewrite <- Hu|..]; ring.
  - intros [w a b c] Hu. unfold quat_norm2 in Hu. simpl in Hu.
    unfold quat_mul, quat_conj; simpl. f_equal; [rewrite <- Hu|..]; ring.
  - unfold quat_norm2; simpl. ring.
  - intros [w a b c] [v0 v1 v2] _.
    unfold m3_transpose_mult, m3_transpose, quat_rotate, quat_matrix, quat_conj, m3_mul_vec,
      m3_col0, m3_col1, m3_col2, o3_dot, rdouble; simpl; f_equal; ring.
Qed.
End HamiltonInverseLaws.

(** ** Transforms that undo each other, and transforms that change nothing *)

Section Inverses.
Context {Sc : Scalar} {L : ScalarLaws Sc} {Rt : Rotation Sc} {RL : RotationLaws Rt}
  {RIL : RotationInverseLaws Rt}.

Add Ring scalar_ring_inverses : (@scalar_ring Sc L).

Lemma o3_add_sub_cancel (a b : ORIGIN3) : o3_sub (o3_add a b) b = a.
Proof. destruct a, b; unfold o3_add, o3_sub; simpl; f_equal; ring. Qed.

Lemma o3_sub_add_cancel (a b : ORIGIN3) : o3_add (o3_sub a b) b = a.
Proof. destruct a, b; unfold o3_add, o3_sub; simpl; f_equal; ring. Qed.

Lemma o3_add_neg_l (a : ORIGIN3) : o3_add (o3_neg a) a = o3_zero.
Proof. destruct a; unfold o3_add, o3_neg, o3_zero; simpl; f_equal; ring. Qed.

Lemma o3_add_neg_r (a : ORIGIN3) : o3_add a (o3_neg a) = o3_zero.
Proof. destruct a; unfold o3_add, o3_neg, o3_zero; simpl; f_equal; ring. Qed.

Lemma o3_add_zero_r (a : ORIGIN3) : o3_add a o3_zero = a.
Proof. destruct a; unfold o3_add, o3_zero; simpl; f_equal; ring. Qed.

Lemma o3_sub_zero_r (a : ORIGIN3) : o3_sub a o3_zero = a.
Proof. destruct a; unfold o3_sub, o3_zero; simpl; f_equal; ring. Qed.

Lemma cross_zero_l (a : ORIGIN3) : cross o3_zero a = o3_zero.
Proof. destruct a; unfold cross, o3_zero; simpl; f_equal; ring. Qed.

Lemma o3_neg_neg (v : ORIGIN3) : o3_neg (o3_neg v) = v.
Proof. destruct v; unfold o3_neg; simpl; f_equal; ring. Qed.

(** The member transform of a pose and its inverse transform undo each
    other.  With the frame checks compiled in and a unit rotation, a
    point, a free vector, a wrench or a twist tagged with the pose comes
    back, value and tag, from [transform] followed by
    [inverse_transform]; one tagged with the parent comes back from
    [inverse_transform] followed by [transform]. *)
Theorem member_transform_round_trip (cfg : config) (self untagged : ptr) (this : POSE3) :
  NEXCEPT cfg = false -> q_unit (q this) ->
  (forall p, point_pose p = self ->
     (let* p1 := transform_point_member cfg self this p in
      inverse_transform_point untagged cfg self this p1) = Ok p)
  /\ (forall p, point_pose p = rpose this ->
     (let* p1 := inverse_transform_point untagged cfg self this p in
      transform_point_member cfg self this p1) = Ok p)
  /\ (forall v, vector_pose v = self ->
     (let* v1 := transform_vector_member cfg self this v in
      inverse_transform_vector untagged cfg self this v1) = Ok v)
  /\ (forall v, vector_pose v = rpose this ->
     (let* v1 := inverse_transform_vector untagged cfg self this v in
      transform_vector_member cfg self this v1) = Ok v)
  /\ (forall w, pose w = self ->
     (let* w1 := transform_wrench_member cfg self this w in
      inverse_transform_wrench cfg self this w1) = Ok w)
  /\ (forall w, pose w = rpose this ->
     (let* w1 := inverse_transform_wrench cfg self this w in
      transform_wrench_member cfg self this w1) = Ok w)
  /\ (forall t, pose t = self ->
     (let* t1 := transform_twist_member cfg self this t in
      inverse_transform_twist cfg self this t1) = Ok t)
  /\ (forall t, pose t = rpose this ->
     (let* t1 := inverse_transform_twist cfg self this t in
      transform_twist_member cfg self this t1) = Ok t).
Proof.
  intros Hcfg Hu.
  assert (Hforth : forall t : SVECTOR6, pose t = self ->
    (let* t1 := transform_twist_member cfg self this t in
     inverse_transform_twist cfg self this t1) = Ok t).
  { intros [tu tl tp] Ht. simpl in Ht. subst tp.
    unfold transform_twist_member, inverse_transform_twist, get_r_E. rewrite Hcfg. simpl.
    rewrite !ptr_eqb_refl. simpl. rewrite ptr_eqb_refl. simpl.
    rewrite q_matrix_rotate.
    pose proof (spatial_update_there_and_back (q this) (o3_neg (x this)) (rpose this) None
                  (mkSVector6 tu tl self) Hu) as H.
    rewrite o3_neg_neg in H. rewrite H. reflexivity. }
  assert (Hback : forall t : SVECTOR6, pose t = rpose this ->
    (let* t1 := inverse_transform_twist cfg self this t in
     transform_twist_member cfg self this t1) = Ok t).
  { intros [tu tl tp] Ht. simpl in Ht. subst tp.
    unfold transform_twist_member, inverse_transform_twist, get_r_E. rewrite Hcfg. simpl.
    rewrite !ptr_eqb_refl. simpl. rewrite ptr_eqb_refl. simpl.
    rewrite q_matrix_rotate.
    pose proof (spatial_update_back_and_there (q this) (o3_neg (x this)) None (rpose this)
                  (mkSVector6 tu tl (rpose this)) Hu) as H.
    rewrite o3_neg_neg in H.
    unfold set_pose. unfold spatial_update in *. simpl in *. rewrite H. reflexivity. }
  split; [|split; [|split; [|split; [|split; [|split; [|split]]]]]];
    try exact Hforth; try exact Hback.
  - intros [pv pp] Hp. simpl in Hp. subst pp.
    unfold transform_point_member, inverse_transform_point. rewrite Hcfg. simpl.
    rewrite !ptr_eqb_refl. simpl. rewrite ptr_eqb_refl. simpl.
    by rewrite o3_add_sub_cancel, q_rotate_invert_l.
  - intros [pv pp] Hp. simpl in Hp. subst pp.
    unfold transform_point_member, inverse_transform_point. rewrite Hcfg. simpl.
    rewrite !ptr_eqb_refl. simpl. rewrite ptr_eqb_refl. simpl.
    by rewrite q_rotate_invert, o3_sub_add_cancel.
  - intros [vv vp] Hv. simpl in Hv. subst vp.
    unfold transform_vector_member, inverse_transform_vector. rewrite Hcfg. simpl.
    rewrite !ptr_eqb_refl. simpl. rewrite ptr_eqb_refl. simpl.
    by rewrite q_rotate_invert_l.
  - intros [vv vp] Hv. simpl in Hv. subst vp.
    unfold transform_vector_member, inverse_transform_vector. rewrite Hcfg. simpl.
    rewrite !ptr_eqb_refl. simpl. rewrite ptr_eqb_refl. simpl.
    by rewrite q_rotate_invert.
Qed.

(** The acceleration transform of [SpArith.cpp], with the [r] and [E]
    that its [get_r_E] takes from a transform [T] with a unit rotation,
    gives what the member twist transform of [Pose3.cpp] gives for the
    pose with the rotation and translation of [T]: the duplicated code
    computes the same spatial vector. *)
Theorem accel_transform_is_member_twist (cfg : config) (self target : ptr) (T : TRANSFORM3)
    (w result : SVECTOR6) :
  q_unit (t_q T) -> pose w = self ->
  transform_twist_member cfg self (mkPose3 (t_q T) (t_x T) target) w
  = Ok (transform_accel_with target w (fst (get_r_E_transform T)) (snd (get_r_E_transform T))
          result).
Proof.
  intros Hu Hw. unfold transform_twist_member, get_r_E. simpl.
  rewrite Hw, ptr_eqb_refl, andb_false_r. f_equal.
  unfold transform_accel_with, get_r_E_transform, spatial_update, set_pose, set_lower,
    set_upper. simpl.
  rewrite q_matrix_transpose by done. rewrite !q_matrix_rotate. f_equal.
  rewrite q_rotate_sub, q_rotate_cross, q_rotate_invert by done. reflexivity.
Qed.

(** A pose composed with its inverse, on either side, is the identity
    pose (identity rotation, zero translation); like every product of
    poses it has no parent. *)
Theorem mult_invert (cfg : config) (p : POSE3) :
  q_unit (q p) ->
  mult cfg p (invert p) = Ok (mkPose3 q_identity o3_zero None)
  /\ mult cfg (invert p) p = Ok (mkPose3 q_identity o3_zero None).
Proof.
  intros Hu. unfold mult, invert, POSE3_quat, default_relative_pose. simpl.
  rewrite !ptr_eqb_refl, !andb_false_r.
  rewrite q_mul_invert_r, q_mul_invert_l by done.
  rewrite q_normalize_unit by apply q_identity_unit.
  rewrite q_rotate_invert by done. rewrite q_rotate_neg.
  by rewrite o3_add_neg_l, o3_add_neg_r.
Qed.

Lemma q_matrix_identity : q_matrix q_identity = m3_identity.
Proof.
  assert (H : forall v, m3_mul_vec (q_matrix q_identity) v = v).
  { intros v. by rewrite q_matrix_rotate, q_rotate_identity. }
  destruct (q_matrix q_identity) as [[a b c] [d e f] [g h i]].
  pose proof (H (mkOrigin3 rone rzero rzero)) as H0.
  pose proof (H (mkOrigin3 rzero rone rzero)) as H1.
  pose proof (H (mkOrigin3 rzero rzero rone)) as H2.
  unfold m3_mul_vec, o3_dot in H0, H1, H2. simpl in H0, H1, H2.
  injection H0 as Ha Hd Hg. injection H1 as Hb He Hh. injection H2 as Hc Hf Hi.
  unfold m3_identity. f_equal; f_equal.
  - rewrite <- Ha. ring.
  - rewrite <- Hb. ring.
  - rewrite <- Hc. ring.
  - rewrite <- Hd. ring.
  - rewrite <- He. ring.
  - rewrite <- Hf. ring.
  - rewrite <- Hg. ring.
  - rewrite <- Hh. ring.
  - rewrite <- Hi. ring.
Qed.

Lemma spatial_update_identity (f : ptr) (t : SVECTOR6) :
  pose t = f -> spatial_update o3_zero (q_matrix q_identity) f t = t.
Proof.
  intros <-. unfold spatial_update. rewrite !q_matrix_rotate, !q_rotate_identity.
  rewrite cross_zero_l, o3_sub_zero_r. by destruct t.
Qed.

Lemma rb_inertia_update_identity (Ji : SPATIAL_RB_INERTIA) :
  rb_inertia_update o3_zero m3_identity Ji (inertia_pose Ji) = Ji.
Proof.
  destruct Ji as [mm [h0 h1 h2] [[a b c] [d e f] [g h i]] p].
  entrywise.
  f_equal; [f_equal; ring|]. f_equal; f_equal; ring.
Qed.

Lemma ab_inertia_identity (M H J0 : MATRIX3) :
  let E := m3_identity in
  let ET := m3_transpose E in
  let rx := skew_symmetric o3_zero in
  let EHET := m3_mul (m3_mul E H) ET in
  let EMET := m3_mul (m3_mul E M) ET in
  EMET = M
  /\ m3_sub EHET (m3_mul rx EMET) = H
  /\ m3_add (m3_sub (m3_mul (m3_mul E J0) ET)
                    (m3_mul (m3_mul (m3_mul rx E) (m3_transpose H)) ET))
            (m3_mul (m3_sub EHET (m3_mul rx EMET)) rx) = J0.
Proof.
  destruct M as [[a b c] [d e f] [g h i]], H as [[a1 b1 c1] [d1 e1 f1] [g1 h1 i1]],
    J0 as [[a2 b2 c2] [d2 e2 f2] [g2 h2 i2]].
  entrywise.
  repeat split; f_equal; f_equal; ring.
Qed.

(** Transforming a quantity to the frame it is already in changes
    nothing: for a quantity tagged with [f] every static transform from
    [f] to [f] returns the quantity itself, and a batch of such wrenches
    or twists comes back as it is. *)
Theorem transform_to_same_frame (cfg : config) (fuel : nat) (hp : heap) (f : ptr) :
  (forall v, vector_pose v = f -> transform_vector cfg fuel hp f f v = Ok v)
  /\ (forall p, point_pose p = f -> transform_point cfg fuel hp f f p = Ok p)
  /\ (forall w, pose w = f -> transform_wrench cfg fuel hp f f w = Ok w)
  /\ (forall t, pose t = f -> transform_twist cfg fuel hp f f t = Ok t)
  /\ (forall Ji, inertia_pose Ji = f -> transform_rb_inertia cfg fuel hp f f Ji = Ok Ji)
  /\ (forall mi, ab_pose mi = f -> transform_ab_inertia cfg fuel hp f f mi = Ok mi)
  /\ (forall w result, Forall (fun e => pose e = f) w ->
        transform_wrenches cfg fuel hp f f w result = (Ok tt, w))
  /\ (forall t result, Forall (fun e => pose e = f) t ->
        transform_twists cfg fuel hp f f t result = (Ok tt, t)).
Proof.
  assert (HT : calc_transform cfg fuel hp f f = Ok (mkTransform3 f f q_identity o3_zero)).
  { unfold calc_transform. by rewrite ptr_eqb_refl. }
  assert (Hmap : forall w : list SVECTOR6, Forall (fun e => pose e = f) w ->
            spatial_update o3_zero (q_matrix q_identity) f <$> w = w).
  { induction 1 as [|e w He _ IH]; [done|]. rewrite fmap_cons.
    by rewrite spatial_update_identity, IH. }
  assert (Hbatch : forall w result, Forall (fun e : SVECTOR6 => pose e = f) w ->
            transform_wrenches cfg fuel hp f f w result = (Ok tt, w)).
  { intros w result Hall. destruct w as [|w0 w]; [done|].
    rewrite (transform_wrenches_ok cfg fuel hp f f (w0 :: w) result _ ltac:(done) Hall HT).
    simpl t_x. simpl t_q. by rewrite Hmap. }
  unfold transform_vector, transform_point, transform_wrench, transform_twist,
    transform_rb_inertia, transform_ab_inertia, frame_mismatch.
  rewrite HT. simpl.
  split; [|split; [|split; [|split; [|split; [|split; [|split]]]]]].
  - intros [vv vp] Hv. simpl in Hv. subst vp. rewrite ptr_eqb_refl, andb_false_r.
    unfold Transform3_transform_vector. simpl. by rewrite q_rotate_identity.
  - intros [pv pp] Hp. simpl in Hp. subst pp. rewrite ptr_eqb_refl, andb_false_r.
    unfold Transform3_transform_point. simpl.
    by rewrite q_rotate_identity, o3_add_zero_r.
  - intros w Hw. rewrite <- Hw at 1. rewrite ptr_eqb_refl, andb_false_r.
    by rewrite spatial_update_identity.
  - intros t Ht. rewrite <- Ht at 1. rewrite ptr_eqb_refl, andb_false_r.
    by rewrite spatial_update_identity.
  - intros Ji HJ. rewrite <- HJ at 1. rewrite ptr_eqb_refl, andb_false_r.
    rewrite q_matrix_identity. rewrite <- HJ. by rewrite rb_inertia_update_identity.
  - intros [M H J0 p] Hp. simpl in Hp. subst p. rewrite ptr_eqb_refl, andb_false_r.
    rewrite q_matrix_identity. simpl.
    destruct (ab_inertia_identity M H J0) as (HM & HH & HJ). simpl in HM, HH, HJ.
    by rewrite HJ, HH, HM.
  - exact Hbatch.
  - exact Hbatch.
Qed.
End Inverses.

(** ** Inertia tensors stay symmetric *)

Section Symmetry.
Context {Sc : Scalar} {L : ScalarLaws Sc} {Rt : Rotation Sc}.

Add Ring scalar_ring_symmetry : (@scalar_ring Sc L).

Lemma m3_symmetric_entries (a b c d e f g h i : REAL) :
  m3_transpose (mkMatrix3 (mkOrigin3 a b c) (mkOrigin3 d e f) (mkOrigin3 g h i))
  = mkMatrix3 (mkOrigin3 a b c) (mkOrigin3 d e f) (mkOrigin3 g h i) ->
  d = b /\ g = c /\ h = f.
Proof.
  unfold m3_transpose, m3_col0, m3_col1, m3_col2. simpl. intros H.
  injection H as H1 H2 H3 H4 H5 H6. auto.
Qed.

Lemma rb_inertia_update_symmetric (r : ORIGIN3) (E : MATRIX3) (Ji : SPATIAL_RB_INERTIA)
    (np : ptr) :
  m3_transpose (J Ji) = J Ji ->
  m3_transpose (J (rb_inertia_update r E Ji np)) = J (rb_inertia_update r E Ji np).
Proof.
  destruct Ji as [mm [h0 h1 h2] [[a b c] [d e f] [g h i]] p]. simpl.
  intros (-> & -> & ->)%m3_symmetric_entries.
  destruct r as [r0 r1 r2], E as [[e00 e01 e02] [e10 e11 e12] [e20 e21 e22]].
  entrywise.
  f_equal; f_equal; ring.
Qed.

(** The transform of a rigid-body inertia keeps the inertia tensor
    symmetric: if [J] is symmetric in the input it is symmetric in every
    result of the member and of the static transform, whatever the
    rotation and the translation between the two frames. *)
Theorem rb_inertia_stays_symmetric (cfg : config) (fuel : nat) (hp : heap)
    (self source target : ptr) (this : POSE3) (Ji : SPATIAL_RB_INERTIA) :
  m3_transpose (J Ji) = J Ji ->
  (forall Jx, transform_rb_inertia_member cfg self this Ji = Ok Jx ->
              m3_transpose (J Jx) = J Jx)
  /\ (forall Jx, transform_rb_inertia cfg fuel hp source target Ji = Ok Jx ->
                 m3_transpose (J Jx) = J Jx).
Proof.
  intros Hsym. unfold transform_rb_inertia_member, transform_rb_inertia, frame_mismatch.
  split; intros Jx.
  - destruct (_ && _); [discriminate|]. simpl. intros [= <-].
    by apply rb_inertia_update_symmetric.
  - destruct (_ && _); [discriminate|].
    destruct (calc_transform cfg fuel hp source target); simpl; try discriminate.
    intros [= <-]. by apply rb_inertia_update_symmetric.
Qed.

(** The transform of an articulated-body inertia keeps its diagonal
    blocks symmetric: if [M] and [J] are symmetric in the input, they are
    symmetric in every result of the static transform. *)
Theorem ab_inertia_stays_symmetric (cfg : config) (fuel : nat) (hp : heap)
    (source target : ptr) (mi mx : SPATIAL_AB_INERTIA) :
  m3_transpose (ab_M mi) = ab_M mi -> m3_transpose (ab_J mi) = ab_J mi ->
  transform_ab_inertia cfg fuel hp source target mi = Ok mx ->
  m3_transpose (ab_M mx) = ab_M mx /\ m3_transpose (ab_J mx) = ab_J mx.
Proof.
  destruct mi as [[[a b c] [d e f] [g h i]] [[a1 b1 c1] [d1 e1 f1] [g1 h1 i1]]
                    [[a2 b2 c2] [d2 e2 f2] [g2 h2 i2]] p]. simpl.
  intros (-> & -> & ->)%m3_symmetric_entries (-> & -> & ->)%m3_symmetric_entries.
  unfold transform_ab_inertia. destruct (frame_mismatch _ _ _); [discriminate|].
  destruct (calc_transform cfg fuel hp source target) as [Tx| | | |]; simpl;
    try discriminate.
  intros [= <-]. simpl.
  destruct (t_x Tx) as [r0 r1 r2], (q_matrix (t_q Tx)) as [[e00 e01 e02] [e10 e11 e12]
                                                            [e20 e21 e22]].
  entrywise.
  split; f_equal; f_equal; ring.
Qed.
End Symmetry.

(** ** The products of SpArith.cpp *)

Lemma fold_indices {A B R : Type} (F : R -> A -> B -> R) (pre_t t : list A)
    (pre_v v : list B) (res : R) :
  length pre_t = length pre_v -> length t = length v ->
  foldl (fun res i =>
           match (pre_t ++ t) !! i, (pre_v ++ v) !! i with
           | Some a, Some b => F res a b
           | _, _ => res
           end) res (seq (length pre_t) (length t))
  = foldl (fun res ab => F res (fst ab) (snd ab)) res (zip t v).
Proof.
  revert pre_t pre_v v res. induction t as [|a t IH]; intros pre_t pre_v v res Hpre Hlen.
  - by destruct v.
  - destruct v as [|b v]; [done|]. simpl in Hlen. simpl.
    rewrite (lookup_app_r pre_t) by lia. rewrite Nat.sub_diag. simpl.
    rewrite Hpre at 1. rewrite (lookup_app_r pre_v) by lia. rewrite Nat.sub_diag. simpl.
    specialize (IH (pre_t ++ [a]) (pre_v ++ [b]) v (F res a b)).
    rewrite !length_app in IH. simpl in IH. rewrite <- !app_assoc in IH. simpl in IH.
    rewrite Nat.add_1_r in IH. apply IH; lia.
Qed.

Section ProductFacts.
Context {Sc : Scalar}.

Lemma sv_get_set_same (s : SVECTOR6) (j : nat) (a : REAL) : sv_get (sv_set s j a) j = a.
Proof. by do 6 (destruct j as [|j]; [reflexivity|]). Qed.

Lemma sv_get_set_other (s : SVECTOR6) (j k : nat) (a : REAL) :
  j <> k -> j < 6 -> k < 6 -> sv_get (sv_set s j a) k = sv_get s k.
Proof.
  intros Hne Hj Hk.
  do 6 (destruct j as [|j]; [by do 6 (destruct k as [|k]; [done|]); lia|]). lia.
Qed.

Lemma sv_pose_set (s : SVECTOR6) (j : nat) (a : REAL) : pose (sv_set s j a) = pose s.
Proof. by do 6 (destruct j as [|j]; [reflexivity|]). Qed.

Lemma sv_ext (s1 s2 : SVECTOR6) :
  pose s1 = pose s2 -> (forall k, k < 6 -> sv_get s1 k = sv_get s2 k) -> s1 = s2.
Proof.
  destruct s1 as [[a0 a1 a2] [a3 a4 a5] p1], s2 as [[b0 b1 b2] [b3 b4 b5] p2]. simpl.
  intros -> H.
  pose proof (H 0 ltac:(lia)). pose proof (H 1 ltac:(lia)). pose proof (H 2 ltac:(lia)).
  pose proof (H 3 ltac:(lia)). pose proof (H 4 ltac:(lia)). pose proof (H 5 ltac:(lia)).
  simpl in *. by subst.
Qed.

Lemma entry_loop_same (j : nat) (s : SVECTOR6) (l : list (SVECTOR6 * REAL)) :
  sv_get (foldl (fun res tc => entry_step j res (fst tc) (snd tc)) s l) j
  = entry_sum j (sv_get s j) l.
Proof.
  revert s. induction l as [|[ti vi] l IH]; intros s; [done|].
  simpl. rewrite IH. unfold entry_step. by rewrite sv_get_set_same.
Qed.

Lemma entry_loop_other (j k : nat) (s : SVECTOR6) (l : list (SVECTOR6 * REAL)) :
  j <> k -> j < 6 -> k < 6 ->
  sv_get (foldl (fun res tc => entry_step j res (fst tc) (snd tc)) s l) k = sv_get s k.
Proof.
  intros Hne Hj Hk. revert s. induction l as [|[ti vi] l IH]; intros s; [done|].
  simpl. rewrite IH. unfold entry_step. by rewrite sv_get_set_other.
Qed.

Lemma entry_loop_pose (j : nat) (s : SVECTOR6) (l : list (SVECTOR6 * REAL)) :
  pose (foldl (fun res tc => entry_step j res (fst tc) (snd tc)) s l) = pose s.
Proof.
  revert s. induction l as [|[ti vi] l IH]; intros s; [done|].
  simpl. rewrite IH. unfold entry_step. by rewrite sv_pose_set.
Qed.

Lemma linear_combination_entry (k : nat) (t : list SVECTOR6) (v : list REAL) (s : SVECTOR6) :
  k < 6 -> sv_get (sv_linear_combination t v s) k = entry_sum k (sv_get s k) (zip t v).
Proof.
  intros Hk. unfold sv_linear_combination, entry_sum. generalize (zip t v). intros l.
  revert s. induction l as [|[ti vi] l IH]; intros s; [done|].
  simpl. rewrite IH. f_equal.
  destruct s as [[a0 a1 a2] [a3 a4 a5] p], ti as [[b0 b1 b2] [b3 b4 b5] p'].
  by do 6 (destruct k as [|k]; [reflexivity|]); lia.
Qed.

Lemma linear_combination_pose (t : list SVECTOR6) (v : list REAL) (s : SVECTOR6) :
  pose (sv_linear_combination t v s) = pose s.
Proof.
  unfold sv_linear_combination. generalize (zip t v). intros l.
  revert s. induction l as [|[ti vi] l IH]; intros s; [done|]. simpl. by rewrite IH.
Qed.

(** The nested loops over the entries compute the sum of the weighted
    inputs. *)
Lemma accumulate_velocities_sum (t : list SVECTOR6) (v : list REAL) (s : SVECTOR6) :
  length t = length v -> accumulate_velocities t v s = sv_linear_combination t v s.
Proof.
  intros Hlen.
  assert (Hin : forall j res,
    foldl (fun res i =>
             match t !! i, v !! i with
             | Some ti, Some vi => sv_set res j (radd (sv_get res j) (rmul (sv_get ti j) vi))
             | _, _ => res
             end) res (seq 0 (length t))
    = foldl (fun res tc => entry_step j res (fst tc) (snd tc)) res (zip t v)).
  { intros j res. exact (fold_indices (entry_step j) [] t [] v res eq_refl Hlen). }
  unfold accumulate_velocities, SPATIAL_DIM. cbn [seq foldl]. rewrite !Hin.
  apply sv_ext.
  - by rewrite !entry_loop_pose, linear_combination_pose.
  - intros k Hk. rewrite linear_combination_entry by done.
    do 6 (destruct k as [|k];
          [ rewrite ?entry_loop_other by lia; rewrite entry_loop_same;
            by rewrite ?entry_loop_other by lia |]).
    lia.
Qed.

(** [SPARITH::mult] of a vector of twists by a vector of weights: a size
    mismatch is reported first, then the empty input (a runtime error,
    "loss of frame information"), then a twist that is not in the frame
    of the first one (a frame mismatch, in every build); otherwise the
    result is the sum of the weighted twists, tagged with the frame of
    the first twist. *)
Theorem mult_velocities_spec (t : list SVECTOR6) (v : list REAL) :
  (length t <> length v -> mult_velocities t v = ThrowsMissize)
  /\ (t = [] -> v = [] -> mult_velocities t v = ThrowsRuntimeError)
  /\ (forall t0 rest, t = t0 :: rest -> length t = length v ->
        (Exists (fun e => pose e <> pose t0) rest -> mult_velocities t v = ThrowsFrame)
        /\ (Forall (fun e => pose e = pose t0) rest ->
            mult_velocities t v
            = Returned (sv_linear_combination t v (set_pose SVECTOR6_zero (pose t0))))).
Proof.
  unfold mult_velocities. split; [|split].
  - intros Hne. apply Nat.eqb_neq in Hne. by rewrite Hne.
  - by intros -> ->.
  - intros t0 rest -> Hlen. apply Nat.eqb_eq in Hlen as Hlen'. rewrite Hlen'. simpl negb.
    cbv iota. split.
    + intros Hex. apply frames_differ_Exists in Hex. by rewrite Hex.
    + intros Hall. apply frames_differ_Forall in Hall. rewrite Hall.
      by rewrite accumulate_velocities_sum.
Qed.

Lemma entry_list_loop_same (j : nat) (s : list REAL) (l : list (SVECTOR6 * REAL)) :
  foldl (fun res tc => entry_step_list j res (fst tc) (snd tc)) s l !! j
  = (fun x => entry_sum j x l) <$> (s !! j).
Proof.
  revert s. induction l as [|[Ii vi] l IH]; intros s.
  - simpl. by destruct (s !! j).
  - simpl. rewrite IH. unfold entry_step_list. simpl.
    destruct (s !! j) as [x|] eqn:Hx.
    + rewrite list_lookup_insert_eq by (by eapply lookup_lt_Some). done.
    + by rewrite Hx.
Qed.

Lemma entry_list_loop_other (j k : nat) (s : list REAL) (l : list (SVECTOR6 * REAL)) :
  j <> k ->
  foldl (fun res tc => entry_step_list j res (fst tc) (snd tc)) s l !! k = s !! k.
Proof.
  intros Hne. revert s. induction l as [|[Ii vi] l IH]; intros s; [done|].
  simpl. rewrite IH. unfold entry_step_list. simpl.
  destruct (s !! j); [by rewrite list_lookup_insert_ne|done].
Qed.

Lemma entry_list_loop_length (j : nat) (s : list REAL) (l : list (SVECTOR6 * REAL)) :
  length (foldl (fun res tc => entry_step_list j res (fst tc) (snd tc)) s l) = length s.
Proof.
  revert s. induction l as [|[Ii vi] l IH]; intros s; [done|].
  simpl. rewrite IH. unfold entry_step_list. simpl.
  destruct (s !! j); [by rewrite length_insert|done].
Qed.

Lemma sv_entries_lookup (s : SVECTOR6) (k : nat) :
  k < 6 -> sv_entries s !! k = Some (sv_get s k).
Proof. intros Hk. by do 6 (destruct k as [|k]; [reflexivity|]); lia. Qed.

(** On six zeros the loops over the raw entries compute the entries of
    the sum of the weighted inputs. *)
Lemma accumulate_momenta_sum (Is : list SVECTOR6) (v : list REAL) :
  length Is = length v ->
  accumulate_momenta Is v (replicate SPATIAL_DIM rzero)
  = sv_entries (sv_linear_combination Is v SVECTOR6_zero).
Proof.
  intros Hlen.
  assert (Hin : forall j res,
    foldl (fun res i =>
             match Is !! i, v !! i, res !! j with
             | Some Ii, Some vi, Some rj => <[j := radd rj (rmul (sv_get Ii j) vi)]> res
             | _, _, _ => res
             end) res (seq 0 (length Is))
    = foldl (fun res tc => entry_step_list j res (fst tc) (snd tc)) res (zip Is v)).
  { intros j res. exact (fold_indices (entry_step_list j) [] Is [] v res eq_refl Hlen). }
  unfold accumulate_momenta, SPATIAL_DIM. cbn [seq foldl]. rewrite !Hin.
  apply list_eq. intros k. destruct (decide (k < 6)) as [Hk|Hk].
  - rewrite sv_entries_lookup, linear_combination_entry by done.
    do 6 (destruct k as [|k];
          [ rewrite ?entry_list_loop_other by lia; rewrite entry_list_loop_same;
            by rewrite ?entry_list_loop_other by lia |]).
    lia.
  - rewrite !lookup_ge_None_2; [done|simpl; lia|].
    rewrite !entry_list_loop_length. simpl. lia.
Qed.

Lemma neighbours_differ_false (Is : list SVECTOR6) :
  neighbours_differ Is = false <->
  (forall a b, a ∈ Is -> b ∈ Is -> pose a = pose b).
Proof.
  induction Is as [|a [|b rest] IH].
  - split; [|done]. intros _ a b Ha. by apply elem_of_nil in Ha.
  - split; [|done]. intros _ x y Hx Hy.
    apply list_elem_of_singleton in Hx, Hy. by subst.
  - change (neighbours_differ (a :: b :: rest))
      with (if negb (ptr_eqb (pose b) (pose a)) then true else neighbours_differ (b :: rest)).
    destruct (ptr_eqb (pose b) (pose a)) eqn:Hab; simpl negb; cbv iota.
    + apply ptr_eqb_true in Hab. rewrite IH. split.
      * intros H x y Hx Hy.
        assert (forall z, z ∈ a :: b :: rest -> pose z = pose b) as Hz.
        { intros z Hz. apply elem_of_cons in Hz as [->|Hz]; [done|].
          apply H; [done|]. apply list_elem_of_here. }
        by rewrite (Hz x Hx), (Hz y Hy).
      * intros H x y Hx Hy. apply H; by apply list_elem_of_further.
    + split; [done|]. intros H. exfalso.
      assert (pose b = pose a) as Heq.
      { apply H; [apply list_elem_of_further, list_elem_of_here|apply list_elem_of_here]. }
      apply ptr_eqb_true in Heq. congruence.
Qed.

(** [SPARITH::mult] of a vector of momenta by a vector of weights, with
    the result vector it is handed: a size mismatch is reported before
    the result is touched; two momenta in different frames are reported
    (in every build) after the result has been overwritten with six
    zeros; otherwise the result holds the six entries of the sum of the
    weighted momenta, six zeros for the empty input. *)
Theorem mult_momenta_spec (Is : list SVECTOR6) (v result : list REAL) :
  (length Is <> length v -> mult_momenta Is v result = (ThrowsMissize, result))
  /\ (length Is = length v ->
      (exists a b, a ∈ Is /\ b ∈ Is /\ pose a <> pose b) ->
      mult_momenta Is v result = (ThrowsFrame, replicate 6 rzero))
  /\ (length Is = length v ->
      (forall a b, a ∈ Is -> b ∈ Is -> pose a = pose b) ->
      mult_momenta Is v result
      = (Returned tt, sv_entries (sv_linear_combination Is v SVECTOR6_zero))).
Proof.
  unfold mult_momenta. split; [|split].
  - intros Hne. apply Nat.eqb_neq in Hne. by rewrite Hne.
  - intros Hlen (a & b & Ha & Hb & Hne). apply Nat.eqb_eq in Hlen as ->. simpl negb.
    cbv iota.
    destruct (neighbours_differ Is) eqn:Hd.
    + destruct Is; [by apply elem_of_nil in Ha|done].
    + exfalso. apply Hne. by apply (proj1 (neighbours_differ_false Is) Hd).
  - intros Hlen Hall. apply Nat.eqb_eq in Hlen as Hlen'. rewrite Hlen'. simpl negb.
    cbv iota. apply neighbours_differ_false in Hall. rewrite Hall.
    destruct Is as [|I0 Is']; [by destruct v|].
    by rewrite accumulate_momenta_sum.
Qed.
End ProductFacts.

(** ** The static transforms against the member transforms *)

Section StaticAndMember.
Context {Sc : Scalar} {L : ScalarLaws Sc} {Rt : Rotation Sc}.

Add Ring scalar_ring_static : (@scalar_ring Sc L).

Lemma ptr_eqb_sym (a b : ptr) : ptr_eqb a b = ptr_eqb b a.
Proof. unfold ptr_eqb. apply bool_decide_ext. split; congruence. Qed.

Lemma o3_sub_cancel_l (a c d : ORIGIN3) : o3_sub a c = o3_sub a d -> c = d.
Proof.
  destruct a as [a0 a1 a2], c as [c0 c1 c2], d as [d0 d1 d2]. unfold o3_sub. simpl.
  intros H. injection H as H0 H1 H2. f_equal.
  - transitivity (rsub a0 (rsub a0 c0)); [ring|]. rewrite H0. ring.
  - transitivity (rsub a1 (rsub a1 c1)); [ring|]. rewrite H1. ring.
  - transitivity (rsub a2 (rsub a2 c2)); [ring|]. rewrite H2. ring.
Qed.

Lemma calc_transform_root_to_global (cfg : config) (fuel : nat) (hp : heap) (a : addr)
    (pa : POSE3) :
  hp !! a = Some pa -> rpose pa = None ->
  calc_transform cfg (S fuel) hp (Some a) None
  = Ok (mkTransform3 (Some a) None (q pa) (x pa)).
Proof.
  intros Ha Hr. unfold calc_transform, deref. simpl. rewrite Ha. simpl.
  unfold deref. rewrite Ha. simpl. by rewrite Hr.
Qed.

(** For a frame [a] that hangs from the global frame, the static
    transform from [a] to the global frame and the member transform of
    [a] are two routes to the same place.  On points and free vectors
    they are the same function, frame check included.  On wrenches,
    twists and rigid-body inertias the static transform is the member
    transform of the pose with the opposite translation: the static code
    takes [r = Tx.x] where [get_r_E] gives [r = -x].  So the two routes
    give the same twist only where the cross term [x * (E * angular)] is
    its own negative. *)
Theorem static_and_member_to_global (cfg : config) (fuel : nat) (hp : heap) (a : addr)
    (pa : POSE3) :
  hp !! a = Some pa -> rpose pa = None ->
  (forall p, transform_point cfg (S fuel) hp (Some a) None p
             = transform_point_member cfg (Some a) pa p)
  /\ (forall v, transform_vector cfg (S fuel) hp (Some a) None v
                = transform_vector_member cfg (Some a) pa v)
  /\ (forall w, transform_wrench cfg (S fuel) hp (Some a) None w
                = transform_wrench_member cfg (Some a)
                    (mkPose3 (q pa) (o3_neg (x pa)) None) w)
  /\ (forall t, transform_twist cfg (S fuel) hp (Some a) None t
                = transform_twist_member cfg (Some a)
                    (mkPose3 (q pa) (o3_neg (x pa)) None) t)
  /\ (forall Ji, transform_rb_inertia cfg (S fuel) hp (Some a) None Ji
                 = transform_rb_inertia_member cfg (Some a)
                     (mkPose3 (q pa) (o3_neg (x pa)) None) Ji)
  /\ (forall t, pose t = Some a ->
        (transform_twist cfg (S fuel) hp (Some a) None t
         = transform_twist_member cfg (Some a) pa t
         <-> cross (x pa) (m3_mul_vec (q_matrix (q pa)) (upper t))
             = o3_neg (cross (x pa) (m3_mul_vec (q_matrix (q pa)) (upper t))))).
Proof.
  intros Ha Hr.
  pose proof (calc_transform_root_to_global cfg fuel hp a pa Ha Hr) as HT.
  unfold transform_point, transform_vector, transform_wrench, transform_twist,
    transform_rb_inertia, transform_point_member, transform_vector_member,
    transform_wrench_member, transform_twist_member, transform_rb_inertia_member,
    frame_mismatch, get_r_E.
  rewrite HT. simpl. rewrite Hr, o3_neg_neg.
  split; [|split; [|split; [|split; [|split]]]].
  - intros p. by rewrite (ptr_eqb_sym (Some a)).
  - intros v. by rewrite (ptr_eqb_sym (Some a)).
  - intros w. by rewrite (ptr_eqb_sym (Some a)).
  - intros t. by rewrite (ptr_eqb_sym (Some a)).
  - intros Ji. by rewrite (ptr_eqb_sym (Some a)).
  - intros t Ht. rewrite Ht, !ptr_eqb_refl, !andb_false_r.
    unfold spatial_update. rewrite cross_neg_l. split.
    + intros H.
      apply (f_equal (fun o => match o with Ok s => lower s | _ => o3_zero end)) in H.
      simpl in H. by apply o3_sub_cancel_l in H.
    + intros H. by rewrite <- H.
Qed.
End StaticAndMember.

(** ** The properties above on integer frames *)

Section MoreOnIntegers.
#[local] Existing Instance Z_scalar.
Import ZFrames MoreZFrames.

Lemma Z_rotation_inverse_laws : RotationInverseLaws (@Hamilton Z_scalar).
Proof. exact (@Hamilton_inverse_laws Z_scalar Z_scalar_laws). Qed.

Lemma loop_heap_closed :
  parent_closed loop_heap (fun a => a = 1%positive \/ a = 2%positive).
Proof.
  intros a [->| ->].
  - exists (mkPose3 q_one (vec 1 0 0) (Some 2%positive)), 2%positive. auto.
  - exists (mkPose3 q_k (vec 0 1 0) (Some 1%positive)), 1%positive. auto.
Qed.

Lemma axes_one_frame (a b : SVECTOR6) : a ∈ axes -> b ∈ axes -> pose a = pose b.
Proof.
  assert (H : forall e, e ∈ axes -> pose e = Some 1%positive).
  { intros e He. unfold axes in He.
    repeat (apply elem_of_cons in He as [->|He]; [reflexivity|]).
    by apply elem_of_nil in He. }
  intros Ha Hb. by rewrite (H a Ha), (H b Hb).
Qed.

Lemma calc_transform_total_witness :
  (exists Tx, calc_transform checked 3 forest (Some 12%positive) (Some 14%positive) = Ok Tx
              /\ t_source Tx = Some 12%positive /\ t_target Tx = Some 14%positive)
  \/ calc_transform checked 3 forest (Some 12%positive) (Some 14%positive) = AssertionFailure.
Proof.
  apply (@calc_transform_total Z_scalar Hamilton checked 3 forest (Some 12%positive)
           (Some 14%positive) [12%positive; 11%positive; 10%positive]
           [14%positive; 13%positive; 10%positive]).
  - apply (ancestors_chain 3). reflexivity.
  - apply (ancestors_chain 3). reflexivity.
  - simpl. lia.
  - simpl. lia.
Defined.

Lemma walk_on_cycle_never_ends_witness :
  is_common 1000 loop_heap (Some 1%positive) (Some 3%positive) = OutOfFuel
  /\ calc_transform checked 1000 loop_heap (Some 1%positive) None = OutOfFuel
  /\ calc_transform checked 1000 loop_heap None (Some 1%positive) = OutOfFuel.
Proof.
  destruct (@walk_on_cycle_never_ends Z_scalar Hamilton checked loop_heap
              (fun a => a = 1%positive \/ a = 2%positive) 1%positive 1000
              loop_heap_closed (or_introl eq_refl)) as (Hscan & Hto & Hfrom).
  split; [|split; assumption].
  apply Hscan. intros a [->| ->]; discriminate.
Defined.

Lemma from_global_is_inverse_witness :
  exists Tx,
    calc_transform checked 3 forest (Some 12%positive) None = Ok Tx
    /\ calc_transform checked 3 forest None (Some 12%positive)
       = Ok (mkTransform3 None (Some 12%positive)
               (q (invert (mkPose3 (t_q Tx) (t_x Tx) None)))
               (x (invert (mkPose3 (t_q Tx) (t_x Tx) None)))).
Proof.
  eexists. split; [reflexivity|].
  apply (@from_global_is_inverse Z_scalar Hamilton checked 3 forest 12%positive).
  reflexivity.
Defined.

Lemma batch_is_elementwise_witness :
  exists l,
    transform_wrenches checked 4 forest (Some 12%positive) (Some 14%positive)
      [screw (Some 12%positive); screw (Some 12%positive)] stale = (Ok tt, l)
    /\ Forall2 (fun wi ri => transform_wrench checked 4 forest (Some 12%positive)
                               (Some 14%positive) wi = Ok ri)
         [screw (Some 12%positive); screw (Some 12%positive)] l.
Proof.
  eexists. split; [reflexivity|].
  apply (proj1 (@batch_is_elementwise Z_scalar Hamilton checked 4 forest (Some 12%positive)
                  (Some 14%positive) [screw (Some 12%positive); screw (Some 12%positive)]
                  stale _ ltac:(discriminate) ltac:(repeat constructor))).
  reflexivity.
Defined.

Lemma accel_batch_is_elementwise_witness :
  exists l,
    transform_accel (calc_transform checked 4 forest) checked (Some 14%positive)
      [screw (Some 12%positive); screw (Some 12%positive)] stale = (Ok tt, l)
    /\ Forall2 (fun ti ri => transform_accel_single (calc_transform checked 4 forest)
                               (Some 14%positive) ti = Ok ri)
         [screw (Some 12%positive); screw (Some 12%positive)] l.
Proof.
  eexists. split; [reflexivity|].
  apply (@accel_batch_is_elementwise Z_scalar Hamilton (calc_transform checked 4 forest)
           checked (Some 14%positive) [screw (Some 12%positive)] stale _
           (screw (Some 12%positive)) ltac:(repeat constructor)).
  reflexivity.
Defined.

Lemma member_transform_round_trip_witness :
  (let* t1 := transform_twist_member checked (Some 1%positive) child_a
                (screw (Some 1%positive)) in
   inverse_transform_twist checked (Some 1%positive) child_a t1)
  = Ok (screw (Some 1%positive))
  /\ (let* p1 := inverse_transform_point None checked (Some 1%positive) child_a
                   (mkPoint3 (vec 1 2 3) (Some 3%positive)) in
      transform_point_member checked (Some 1%positive) child_a p1)
     = Ok (mkPoint3 (vec 1 2 3) (Some 3%positive)).
Proof.
  destruct (@member_transform_round_trip Z_scalar Z_scalar_laws Hamilton Z_rotation_laws
              checked (Some 1%positive) None child_a eq_refl eq_refl)
    as (_ & Hpoint & _ & _ & _ & _ & Htwist & _).
  split; [apply Htwist|apply Hpoint]; reflexivity.
Defined.

Lemma accel_transform_is_member_twist_witness :
  transform_twist_member checked (Some 1%positive)
    (mkPose3 q_k (vec 1 0 0) (Some 3%positive)) (screw (Some 1%positive))
  = Ok (transform_accel_with (Some 3%positive) (screw (Some 1%positive))
          (fst (get_r_E_transform
                  (mkTransform3 (Some 1%positive) (Some 3%positive) q_k (vec 1 0 0))))
          (snd (get_r_E_transform
                  (mkTransform3 (Some 1%positive) (Some 3%positive) q_k (vec 1 0 0))))
          (screw None)).
Proof.
  apply (@accel_transform_is_member_twist Z_scalar Hamilton Z_rotation_laws
           Z_rotation_inverse_laws checked (Some 1%positive) (Some 3%positive)
           (mkTransform3 (Some 1%positive) (Some 3%positive) q_k (vec 1 0 0))
           (screw (Some 1%positive)) (screw None)); reflexivity.
Defined.

Lemma mult_invert_witness :
  mult checked child_a (invert child_a) = Ok (mkPose3 q_identity o3_zero None)
  /\ mult checked (invert child_a) child_a = Ok (mkPose3 q_identity o3_zero None).
Proof.
  apply (@mult_invert Z_scalar Z_scalar_laws Hamilton Z_rotation_laws
           Z_rotation_inverse_laws checked child_a).
  reflexivity.
Defined.

Lemma transform_to_same_frame_witness :
  transform_twist checked 0 forest (Some 12%positive) (Some 12%positive)
    (screw (Some 12%positive)) = Ok (screw (Some 12%positive))
  /\ transform_rb_inertia checked 0 forest (Some 1%positive) (Some 1%positive) symmetric_body
     = Ok symmetric_body.
Proof.
  destruct (@transform_to_same_frame Z_scalar Z_scalar_laws Hamilton Z_rotation_laws
              checked 0 forest (Some 12%positive)) as (_ & _ & _ & Htwist & _).
  destruct (@transform_to_same_frame Z_scalar Z_scalar_laws Hamilton Z_rotation_laws
              checked 0 forest (Some 1%positive)) as (_ & _ & _ & _ & Hbody & _).
  split; [apply Htwist|apply Hbody]; reflexivity.
Defined.

Lemma rb_inertia_stays_symmetric_witness :
  exists Jx,
    transform_rb_inertia checked 3 turned_tree (Some 1%positive) (Some 2%positive)
      symmetric_body = Ok Jx
    /\ m3_transpose (J Jx) = J Jx.
Proof.
  eexists. split; [reflexivity|].
  apply (proj2 (@rb_inertia_stays_symmetric Z_scalar Z_scalar_laws Hamilton checked 3
                  turned_tree (Some 1%positive) (Some 1%positive) (Some 2%positive) child_a
                  symmetric_body eq_refl)).
  reflexivity.
Defined.

Lemma ab_inertia_stays_symmetric_witness :
  exists mx,
    transform_ab_inertia checked 3 turned_tree (Some 1%positive) (Some 2%positive)
      symmetric_ab = Ok mx
    /\ m3_transpose (ab_M mx) = ab_M mx /\ m3_transpose (ab_J mx) = ab_J mx.
Proof.
  eexists. split; [reflexivity|].
  apply (@ab_inertia_stays_symmetric Z_scalar Z_scalar_laws Hamilton checked 3 turned_tree
           (Some 1%positive) (Some 2%positive) symmetric_ab); reflexivity.
Defined.

Lemma static_and_member_to_global_witness :
  transform_point checked 1 turned_roots (Some 2%positive) None
    (mkPoint3 (vec 1 2 3) (Some 2%positive))
  = transform_point_member checked (Some 2%positive) (mkPose3 q_one (vec 1 0 0) None)
      (mkPoint3 (vec 1 2 3) (Some 2%positive))
  /\ transform_twist checked 1 turned_roots (Some 2%positive) None (screw (Some 2%positive))
     = Ok (mkSVector6 (vec 1 2 3) (vec 4 8 4) None)
  /\ transform_twist_member checked (Some 2%positive) (mkPose3 q_one (vec 1 0 0) None)
       (screw (Some 2%positive))
     = Ok (mkSVector6 (vec 1 2 3) (vec 4 2 8) None).
Proof.
  destruct (@static_and_member_to_global Z_scalar Z_scalar_laws Hamilton checked 0
              turned_roots 2%positive (mkPose3 q_one (vec 1 0 0) None) eq_refl eq_refl)
    as (Hpoint & _ & _ & Htwist & _).
  split; [apply Hpoint|]. split; [by rewrite Htwist|reflexivity].
Defined.

Lemma mult_velocities_spec_witness :
  mult_velocities axes weights
  = Returned (mkSVector6 (vec 2 3 5) (vec 9 20 4) (Some 1%positive))
  /\ mult_velocities axes [2%Z; 3%Z] = ThrowsMissize
  /\ mult_velocities (axes ++ [screw None]) (weights ++ [7%Z]) = ThrowsFrame.
Proof.
  split; [|split].
  - apply (proj2 (proj2 (proj2 (mult_velocities_spec axes weights)) _ _ eq_refl eq_refl)).
    repeat constructor.
  - apply (proj1 (mult_velocities_spec axes [2%Z; 3%Z])). simpl. lia.
  - apply (proj1 (proj2 (proj2 (mult_velocities_spec (axes ++ [screw None])
                                   (weights ++ [7%Z]))) _ _ eq_refl eq_refl)).
    do 2 apply Exists_cons_tl. apply Exists_cons_hd. discriminate.
Defined.

Lemma mult_momenta_spec_witness :
  mult_momenta axes weights [9%Z] = (Returned tt, [2%Z; 3%Z; 5%Z; 9%Z; 20%Z; 4%Z])
  /\ mult_momenta axes [2%Z; 3%Z] [9%Z] = (ThrowsMissize, [9%Z])
  /\ mult_momenta (screw None :: axes) (7%Z :: weights) [9%Z]
     = (ThrowsFrame, [0%Z; 0%Z; 0%Z; 0%Z; 0%Z; 0%Z]).
Proof.
  split; [|split].
  - apply (proj2 (proj2 (mult_momenta_spec axes weights [9%Z])) eq_refl axes_one_frame).
  - apply (proj1 (mult_momenta_spec axes [2%Z; 3%Z] [9%Z])). simpl. lia.
  - apply (proj1 (proj2 (mult_momenta_spec (screw None :: axes) (7%Z :: weights) [9%Z]))
             eq_refl).
    exists (screw None), (mkSVector6 (vec 1 0 0) (vec 0 0 2) (Some 1%positive)).
    split; [apply list_elem_of_here|].
    split; [apply list_elem_of_further, list_elem_of_here|discriminate].
Defined.
End MoreOnIntegers.
